(** * Adaptive Columnar Perfect Hashing (ACPH): a shallow embedding of acph.c

    The development follows the layout of the C file: the byte-hash kernel
    [hash_function], the column analyzer [calculate_character_distribution],
    the perfect-hash selector [find_best_hash], the single-column builder
    [create_character_hash] with [lookup_character], the tree builder
    [create_binary_hash] with [lookup_binary], [free_tree], the adapter
    for integers [create_integer_hash] with [lookup_integer], and the
    diagnostic walk [hash_efficiency] with [hash_table_efficiency].

    Left out: the printing functions, which only write to the standard
    output; the adapter for doubles, which is the adapter for integers on
    the memory image of a [double]; and the adapter for strings, which
    measures each string and hands it on: its keys are the keys of
    [create_binary_hash_buffers] that are followed by a zero byte.

    Conventions of the embedding.
    - A [uint8_t] datum (a key byte, a slot's [character]) is a [Byte.byte];
      the [uint8_t] used as numbers ([prime], [num_slots]) are [Z] and the
      wrap-around of the C conversions is written out ([uint8], [int32]).
    - Array sizes, loop counters and occurrence counts are natural numbers:
      the inputs are taken to be shorter than 2^31 entries, so that the
      [int] and [size_t] counters of the C code do not wrap.
    - A [BinaryValue] (pointer and length) is the list of its [length]
      bytes; the parallel arrays [values] and [payloads] of length
      [num_values] are one list of (value, payload) entries.
    - The builder [create_binary_hash] is given twice.  In the first
      model every key fills its buffer, and the one read of the code that
      has no test of the length (the gathering loop) is undefined when it
      leaves the key.  In the second, [create_binary_hash_buffers], every
      key comes with the bytes that follow it in the caller's buffer, and
      that read returns the byte it finds there.  The first is the second
      with nothing after the keys ([create_binary_hash_exact_size]).
    - [malloc] always succeeds (the C code exits on failure); the blocks
      that are live are counted in a [Heap]. *)

From Stdlib Require Import ZArith Lia Bool.
From Stdlib Require Import Strings.Byte.
From stdpp Require Import base list.

Local Open Scope Z_scope.

(** ** Machine integers *)

(** Conversion to [uint8_t]. *)
Definition uint8 (z : Z) : Z := z mod 256.

(** Arithmetic of a 32-bit two's complement [int]. *)
Definition int32 (z : Z) : Z := (z + 2 ^ 31) mod 2 ^ 32 - 2 ^ 31.

(** The numeric value of a byte. *)
Definition byte_val (b : byte) : Z := Z.of_nat (Byte.to_nat b).

(** ** Data structures *)

Abbreviation BinaryValue := (list byte) (only parsing).

(** The [Payload] union, through its 64-bit integer member. *)
Abbreviation Payload := Z (only parsing).

Definition zero_payload : Payload := 0.

(** [HashSlot] and [HashNode].  The union [next_node] is read as a child
    pointer or as a binary pointer according to [count]; both may be NULL. *)
Inductive HashNode : Type :=
| Node (column : nat) (prime num_slots : Z) (slot : list HashSlot)
with HashSlot : Type :=
| Slot (character : byte) (count : nat) (next_node : NextNode) (payload : Payload)
with NextNode : Type :=
| NullPtr
| ChildPtr (child : HashNode)
| BinaryPtr (binary : BinaryValue).

Definition column (n : HashNode) : nat := let (c, _, _, _) := n in c.
Definition prime (n : HashNode) : Z := let (_, a, _, _) := n in a.
Definition num_slots (n : HashNode) : Z := let (_, _, m, _) := n in m.
Definition slot (n : HashNode) : list HashSlot := let (_, _, _, s) := n in s.

Definition character (s : HashSlot) : byte := let (c, _, _, _) := s in c.
Definition count (s : HashSlot) : nat := let (_, k, _, _) := s in k.
Definition next_node (s : HashSlot) : NextNode := let (_, _, p, _) := s in p.
Definition payload (s : HashSlot) : Payload := let (_, _, _, p) := s in p.

#[global] Instance HashSlot_inhabited : Inhabited HashSlot :=
  populate (Slot "000"%byte 0 NullPtr zero_payload).

(** The work structure [SLOT] of [find_best_hash]. *)
Record SLOT : Type := mkSLOT { SLOT_character : byte; SLOT_count : nat }.

Definition empty_SLOT : SLOT := mkSLOT "000"%byte 0.

#[global] Instance SLOT_inhabited : Inhabited SLOT := populate empty_SLOT.

(** ** hash_function *)

(** [(((a - 1) ^ character) * a) % (num_slots + 1)], evaluated in [int]
    after the integer promotions and converted to the [uint8_t] result. *)
Definition hash_function (character : byte) (a num_slots : Z) : Z :=
  if num_slots =? 255 then byte_val character
  else
    uint8 (Z.rem (int32 (Z.lxor (int32 (a - 1)) (byte_val character) * a))
                 (int32 (num_slots + 1))).

(** The slot index as an array index. *)
Definition slot_index (character : byte) (a num_slots : Z) : nat :=
  Z.to_nat (hash_function character a num_slots).

(** ** calculate_character_distribution *)

(** One round of the counting loop: [char_counts[c]++] and the update of
    [*max_occurrence]. *)
Definition count_character (st : list nat * nat) (c : byte) : list nat * nat :=
  let '(char_counts, max_occurrence) := st in
  let k := S (char_counts !!! Byte.to_nat c) in
  (<[Byte.to_nat c := k]> char_counts,
   if (max_occurrence <? k)%nat then k else max_occurrence).

(** Returns [(unique_chars, max_occurrence)]. *)
Definition calculate_character_distribution (characters : list byte) : nat * nat :=
  let '(char_counts, max_occurrence) :=
    fold_left count_character characters (replicate 256 0%nat, 0%nat) in
  (length (filter (λ k, (0 < k)%nat) char_counts), max_occurrence).

(** ** find_best_hash *)

Definition primes : list Z :=
  [2; 3; 5; 7; 11; 13; 17; 19; 23; 29; 31; 37; 41; 43; 47; 53; 59; 61; 67; 71;
   73; 79; 83; 89; 97; 101; 103; 107; 113; 127; 131; 137; 149; 151; 157; 163;
   167; 173; 211; 223; 227; 229; 233; 239; 241; 251].

(** The slot table after [slot_table[j].count = 0] for [j <= num_slots].
    The [character] of a slot whose count is 0 is stale in C and is never
    read; the entries past [num_slots] are never touched. *)
Definition clear_slot_table (num_slots : Z) : list SLOT :=
  replicate (S (Z.to_nat num_slots)) empty_SLOT.

(** The loop over the characters for one candidate [(a, num_slots)]:
    [None] is the [break] on a false positive, otherwise the filled table
    and the differential score. *)
Fixpoint route (characters : list byte) (a num_slots : Z)
    (slot_table : list SLOT) (differential_score : nat) : option (list SLOT * nat) :=
  match characters with
  | [] => Some (slot_table, differential_score)
  | c :: rest =>
      let slot := slot_index c a num_slots in
      let s := slot_table !!! slot in
      if (SLOT_count s =? 0)%nat then
        route rest a num_slots (<[slot := mkSLOT c 1]> slot_table) differential_score
      else if negb (Byte.eqb (SLOT_character s) c) then None
      else
        let k := S (SLOT_count s) in
        route rest a num_slots (<[slot := mkSLOT (SLOT_character s) k]> slot_table)
              (if (differential_score <? k)%nat then k else differential_score)
  end.

(** The variables [best_score], [best_a], [best_m] and [best_slot_table];
    the table is [None] while it is uninitialised. *)
Record Best : Type := mkBest {
  best_score : nat;
  best_a : Z;
  best_m : Z;
  best_slot_table : option (list SLOT)
}.

Inductive Scan : Type :=
| FoundHash (b : Best)   (* goto found_hash *)
| NextTable (b : Best).  (* the loop over the primes ran to its end *)

(** The loop over the primes for one table size. *)
Fixpoint scan_primes (ps : list Z) (characters : list byte)
    (best_possible_score : nat) (num_slots : Z) (b : Best) : Scan :=
  match ps with
  | [] => NextTable b
  | a :: ps' =>
      match route characters a num_slots (clear_slot_table num_slots) best_possible_score with
      | None => scan_primes ps' characters best_possible_score num_slots b
      | Some (slot_table, differential_score) =>
          let b' :=
            if (differential_score <? best_score b)%nat
            then mkBest differential_score a num_slots (Some slot_table)
            else b in
          if (best_score b' =? best_possible_score)%nat then FoundHash b'
          else scan_primes ps' characters best_possible_score num_slots b'
      end
  end.

(** The [do ... while (num_slots < 255)] loop.  [todo] counts the table
    sizes that remain after the current one, so the body runs with
    [num_slots = 255 - todo] and the loop ends after [num_slots = 255]. *)
Fixpoint scan_tables (todo : nat) (characters : list byte)
    (best_possible_score : nat) (b : Best) : Best :=
  let num_slots := 255 - Z.of_nat todo in
  match scan_primes primes characters best_possible_score num_slots b with
  | FoundHash b' => b'
  | NextTable b' =>
      match todo with
      | O => b'
      | S todo' => scan_tables todo' characters best_possible_score b'
      end
  end.

(** The first table size of the scan: [num_slots = min_unique_chars - 1]
    converted to [uint8_t], then [num_slots++] at the head of the loop body. *)
Definition first_num_slots (min_unique_chars : nat) : Z :=
  uint8 (uint8 (Z.of_nat min_unique_chars - 1) + 1).

(** The copy of the best table into the new node. *)
Definition slot_of_SLOT (s : SLOT) : HashSlot :=
  if (0 <? SLOT_count s)%nat
  then Slot (SLOT_character s) (SLOT_count s) NullPtr zero_payload
  else Slot "000"%byte 0 NullPtr zero_payload.

(** [find_best_hash]; the [column] of the new node is left to the caller
    (0 here; [create_character_hash] never sets it and never reads it).
    [None] when the uninitialised [best_slot_table] would be copied, which
    needs [best_possible_score > num_chars]
    ([find_best_hash_selected]). *)
Definition find_best_hash (characters : list byte)
    (best_possible_score min_unique_chars : nat) : option HashNode :=
  let m0 := first_num_slots min_unique_chars in
  let b := scan_tables (Z.to_nat (255 - m0)) characters best_possible_score
             (mkBest (S (length characters)) 0 0 None) in
  match best_slot_table b with
  | None => None
  | Some table =>
      Some (Node 0 (best_a b) (best_m b)
                 (slot_of_SLOT <$> take (S (Z.to_nat (best_m b))) table))
  end.

(** ** create_character_hash and lookup_character *)

(** [if (node->slot[i].count > 1) node->slot[i].count = 1]. *)
Definition clear_count (s : HashSlot) : HashSlot :=
  if (1 <? count s)%nat
  then Slot (character s) 1 (next_node s) (payload s)
  else s.

(** One round of the payload loop of [create_character_hash]. *)
Definition set_payload (a m : Z) (slots : list HashSlot) (e : byte * Payload) : list HashSlot :=
  let slot := slot_index e.1 a m in
  match slots !! slot with
  | Some s =>
      if (count s =? 1)%nat && Byte.eqb (character s) e.1
      then <[slot := Slot (character s) (count s) (next_node s) e.2]> slots
      else slots
  | None => slots
  end.

Definition create_character_hash (input : list (byte * Payload)) : option HashNode :=
  let characters := input.*1 in
  let '(min_unique_chars, best_possible_score) :=
    calculate_character_distribution characters in
  match find_best_hash characters best_possible_score min_unique_chars with
  | None => None
  | Some node =>
      let slots := clear_count <$> slot node in
      Some (Node (column node) (prime node) (num_slots node)
                 (fold_left (set_payload (prime node) (num_slots node)) input slots))
  end.

(** [Some payload] stands for the return value 1 with [*payload_out] set,
    [None] for the return value 0. *)
Definition lookup_character (character_ : byte) (node : HashNode) : option Payload :=
  let s := slot node !!! slot_index character_ (prime node) (num_slots node) in
  if (0 <? count s)%nat && Byte.eqb (character s) character_
  then Some (payload s)
  else None.

(** ** The allocator *)

(** The number of live blocks of each kind: nodes, the [BinaryValue]
    copies of the leaf slots, and the scratch buffers of the builder. *)
Record Heap : Type := mkHeap {
  live_nodes : nat;
  live_binaries : nat;
  live_buffers : nat
}.

Definition empty_heap : Heap := mkHeap 0 0 0.

Definition malloc_node (h : Heap) : Heap :=
  mkHeap (S (live_nodes h)) (live_binaries h) (live_buffers h).
Definition free_node (h : Heap) : Heap :=
  mkHeap (Nat.pred (live_nodes h)) (live_binaries h) (live_buffers h).
Definition malloc_binary (h : Heap) : Heap :=
  mkHeap (live_nodes h) (S (live_binaries h)) (live_buffers h).
Definition free_binary (h : Heap) : Heap :=
  mkHeap (live_nodes h) (Nat.pred (live_binaries h)) (live_buffers h).
Definition malloc_buffer (h : Heap) : Heap :=
  mkHeap (live_nodes h) (live_binaries h) (S (live_buffers h)).
Definition free_buffer (h : Heap) : Heap :=
  mkHeap (live_nodes h) (live_binaries h) (Nat.pred (live_buffers h)).

(** ** create_binary_hash *)

Abbreviation Entry := (BinaryValue * Payload)%type (only parsing).

(** The byte of a key at a column under the padding rule:
    [length > c ? binary[c] : 0]. *)
Definition column_byte (v : BinaryValue) (c : nat) : byte :=
  default "000"%byte (v !! c).

(** [best_column], [best_num_slots], [best_unique_chars] and the buffer
    [best_column_chars]. *)
Record BestColumn : Type := mkBestColumn {
  best_column : nat;
  best_num_slots : nat;
  best_unique_chars : nat;
  best_column_chars : list byte
}.

(** The body of the column loop for column [c]. *)
Definition survey_column (values : list Entry) (c : nat) (b : BestColumn) : BestColumn :=
  let column_chars := (λ e : Entry, column_byte e.1 c) <$> values in
  let '(unique_chars, num_slots) := calculate_character_distribution column_chars in
  if (num_slots <? best_num_slots b)%nat
  then mkBestColumn c num_slots unique_chars column_chars
  else b.

(** The flag [last_column] after the pass over column [c]. *)
Definition last_column (values : list Entry) (c : nat) : bool :=
  forallb (λ e : Entry, negb (c <? length e.1)%nat) values.

Definition max_length (values : list Entry) : nat :=
  foldr (λ (e : Entry) m, Nat.max (length e.1) m) 0%nat values.

(** [for (c = 0; !last_column; c++)].  The loop is driven by the flag;
    [todo] bounds the columns that remain ([last_column_max_length] shows
    that the flag is set before [todo] runs out when the loop starts with
    [todo = max_length values]). *)
Fixpoint survey (todo c : nat) (values : list Entry) (b : BestColumn) : BestColumn :=
  let b' := survey_column values c b in
  if last_column values c then b'
  else match todo with
       | O => b'
       | S todo' => survey todo' (S c) values b'
       end.

(** [best_unique_chars] and [best_column_chars] are uninitialised in C;
    the pass over column 0 always sets them, since
    [max_occurrence <= num_values < num_values + 1]. *)
Definition column_survey (values : list Entry) : BestColumn :=
  survey (max_length values) 0 values (mkBestColumn 0 (S (length values)) 0 []).

(** The search of a singleton slot: the first key whose padded byte at
    the column is the slot's character. *)
Fixpoint find_binary (values : list Entry) (column : nat) (ch : byte) : option Entry :=
  match values with
  | [] => None
  | e :: rest =>
      if Byte.eqb (column_byte e.1 column) ch then Some e
      else find_binary rest column ch
  end.

(** The gathering loop of a slot with [count > 1]:
    [values[j].binary[node->column] == node->slot[i].character], read
    without a test of the length, for keys in buffers of exactly their
    length: [None] is a read past the end of a key, which is then a read
    past the end of its buffer.  The loop on keys that lie inside larger
    buffers is [gather_buffers]. *)
Fixpoint gather (values : list Entry) (column : nat) (ch : byte) : option (list Entry) :=
  match values with
  | [] => Some []
  | e :: rest =>
      match e.1 !! column with
      | None => None
      | Some b =>
          match gather rest column ch with
          | None => None
          | Some group => Some (if Byte.eqb b ch then e :: group else group)
          end
      end
  end.

(** What a call of [create_binary_hash] comes to. *)
Inductive Build : Type :=
| Built (root : HashNode)
| Null          (* return NULL *)
| Panic         (* exit(1) after "PANIC: Binary not found" *)
| Undefined     (* a read past the end of a key, or of the uninitialised table *)
| OutOfFuel.

(** The clean-up loop before [return NULL]: the binaries of the singleton
    slots [0 .. i]. *)
Definition free_binaries (slots : list HashSlot) (h : Heap) : Heap :=
  foldl (λ h s,
           if (count s =? 1)%nat then
             match next_node s with
             | NullPtr => h
             | _ => free_binary h
             end
           else h) h slots.

Section populate.
(** The recursive call. *)
Variable create : list Entry → Heap → Build * Heap.
Variable values : list Entry.
Variables (col : nat) (a m : Z).

(** The loop over the slots of the new node: [filled] are the slots
    [0 .. i-1] as they are now, [todo] the slots [i ..] as
    [find_best_hash] left them. *)
Fixpoint populate_slots (filled todo : list HashSlot) (h : Heap) : Build * Heap :=
  match todo with
  | [] => (Built (Node col a m filled), h)
  | s :: todo' =>
      if (count s =? 0)%nat then
        populate_slots (filled ++ [Slot (character s) (count s) NullPtr (payload s)]) todo' h
      else if (count s =? 1)%nat then
        match find_binary values col (character s) with
        | Some e =>
            populate_slots (filled ++ [Slot (character s) (count s) (BinaryPtr e.1) e.2])
                           todo' (malloc_binary h)
        | None => (Panic, h)
        end
      else
        let h := malloc_buffer (malloc_buffer h) in   (* grouped_strings, grouped_payloads *)
        match gather values col (character s) with
        | None => (Undefined, h)
        | Some group =>
            let '(r, h) := create group h in
            let h := free_buffer h in                 (* grouped_strings *)
            match r with
            | Built child =>
                populate_slots
                  (filled ++ [Slot (character s) (count s) (ChildPtr child) (payload s)])
                  todo' h
            | Null =>
                let h := free_buffer h in             (* grouped_payloads *)
                let h := free_binaries
                           (filled ++ [Slot (character s) (count s) NullPtr (payload s)]) h in
                (Null, free_node h)
            | r => (r, h)
            end
        end
  end.
End populate.

Fixpoint create_binary_hash_rec (fuel : nat) (values : list Entry) (h : Heap) : Build * Heap :=
  if (length values <? 1)%nat then (Null, h)
  else
    match fuel with
    | O => (OutOfFuel, h)
    | S fuel' =>
        let h := malloc_buffer (malloc_buffer h) in     (* column_chars, best_column_chars *)
        let b := column_survey values in
        let h := free_buffer h in                       (* column_chars *)
        if (best_unique_chars b =? 1)%nat && (1 <? length values)%nat then (Null, h)
        else
          match find_best_hash (best_column_chars b) (best_num_slots b) (best_unique_chars b) with
          | None => (Undefined, h)
          | Some node =>
              let h := malloc_node h in
              match populate_slots (create_binary_hash_rec fuel') values (best_column b)
                                   (prime node) (num_slots node) [] (slot node) h with
              | (Built root, h) => (Built root, free_buffer h)   (* best_column_chars *)
              | r => r
              end
          end
    end.

(** Every recursive call is on fewer values ([create_binary_hash_rec_fuel]),
    so [length values] nested calls are enough. *)
Definition create_binary_hash_heap (values : list Entry) (h : Heap) : Build * Heap :=
  create_binary_hash_rec (length values) values h.

Definition create_binary_hash (values : list Entry) : Build :=
  (create_binary_hash_heap values empty_heap).1.

(** ** create_binary_hash on keys inside larger buffers *)

(** A [BinaryValue] whose pointer leads into a larger buffer of the
    caller: the entry (key and payload) with the bytes that follow the key
    in that buffer, such as the terminator of a string. *)
Abbreviation Stored := (Entry * list byte)%type (only parsing).

(** [values[j].binary[c]] read without a test of the length: a byte of
    the key or a byte after it; [None] past the end of the buffer. *)
Definition peek (e : Stored) (c : nat) : option byte := (e.1.1 ++ e.2) !! c.

(** The gathering loop of a slot with [count > 1], on such values. *)
Fixpoint gather_buffers (values : list Stored) (column : nat) (ch : byte)
    : option (list Stored) :=
  match values with
  | [] => Some []
  | e :: rest =>
      match peek e column with
      | None => None
      | Some b =>
          match gather_buffers rest column ch with
          | None => None
          | Some group => Some (if Byte.eqb b ch then e :: group else group)
          end
      end
  end.

Section populate_buffers.
(** The recursive call. *)
Variable create : list Stored → Build.
Variable values : list Stored.
Variables (col : nat) (a m : Z).

(** The loop over the slots of the new node.  The loops that read under
    the test of the length (the survey, the search of a singleton slot) see
    the entries only.  The gathering loop fills [grouped_strings], which
    has room for [count] values: gathering more is a write past its end.
    The recursive call is on the values gathered, however many. *)
Fixpoint populate_slots_buffers (filled todo : list HashSlot) : Build :=
  match todo with
  | [] => Built (Node col a m filled)
  | s :: todo' =>
      if (count s =? 0)%nat then
        populate_slots_buffers
          (filled ++ [Slot (character s) (count s) NullPtr (payload s)]) todo'
      else if (count s =? 1)%nat then
        match find_binary values.*1 col (character s) with
        | Some e =>
            populate_slots_buffers
              (filled ++ [Slot (character s) (count s) (BinaryPtr e.1) e.2]) todo'
        | None => Panic
        end
      else
        match gather_buffers values col (character s) with
        | None => Undefined
        | Some group =>
            if (count s <? length group)%nat then Undefined
            else
              match create group with
              | Built child =>
                  populate_slots_buffers
                    (filled ++ [Slot (character s) (count s) (ChildPtr child) (payload s)])
                    todo'
              | r => r
              end
        end
  end.
End populate_buffers.

(** The allocator is left out here: it has no part in the value
    returned. *)
Fixpoint create_binary_hash_buffers_rec (fuel : nat) (values : list Stored) : Build :=
  if (length values <? 1)%nat then Null
  else
    match fuel with
    | O => OutOfFuel
    | S fuel' =>
        let b := column_survey values.*1 in
        if (best_unique_chars b =? 1)%nat && (1 <? length values)%nat then Null
        else
          match find_best_hash (best_column_chars b) (best_num_slots b) (best_unique_chars b) with
          | None => Undefined
          | Some node =>
              populate_slots_buffers (create_binary_hash_buffers_rec fuel') values
                                     (best_column b) (prime node) (num_slots node) []
                                     (slot node)
          end
    end.

(** Every recursive call is on fewer values
    ([create_binary_hash_buffers_total]). *)
Definition create_binary_hash_buffers (values : list Stored) : Build :=
  create_binary_hash_buffers_rec (length values) values.

(** ** compare_binaries and lookup_binary *)

(** [memcmp(p, q, n) == 0] with [p] holding the [n] bytes compared. *)
Fixpoint memcmp_eq (p q : list byte) : bool :=
  match p, q with
  | [], _ => true
  | x :: p', y :: q' => Byte.eqb x y && memcmp_eq p' q'
  | _ :: _, [] => false
  end.

Definition compare_binaries (str1 str2 : BinaryValue) : bool :=
  if negb (length str1 =? length str2)%nat then false
  else memcmp_eq str1 str2.

(** What [lookup_binary] does at the slot it has hashed to. *)
Definition lookup_slot (lookup : HashNode → option Payload) (str : BinaryValue)
    (s : HashSlot) : option Payload :=
  match s with
  | Slot _ cnt next pl =>
      if (cnt =? 0)%nat then None
      else if (cnt =? 1)%nat then
        match next with
        | BinaryPtr b => if compare_binaries str b then Some pl else None
        | _ => None
        end
      else
        match next with
        | ChildPtr child => lookup child
        | _ => None
        end
  end.

(** [Some payload] stands for the return value 1 with [*payload_out] set,
    [None] for the return value 0.  The inner loop is [node->slot[slot]]. *)
Fixpoint lookup_binary (str : BinaryValue) (node : HashNode) : option Payload :=
  match node with
  | Node column a m slots =>
      (fix at_slot (l : list HashSlot) (i : nat) {struct l} : option Payload :=
         match l, i with
         | [], _ => None
         | s :: _, O => lookup_slot (lookup_binary str) str s
         | _ :: l', S i' => at_slot l' i'
         end) slots (slot_index (column_byte str column) a m)
  end.

(** ** hash_efficiency and hash_table_efficiency *)

(** The body of the loop over the slots, on the running values of
    [total_slots], [total_empty_slots] and [max_comparisons_needed];
    [efficiency] is the recursive call. *)
Definition efficiency_slot (efficiency : HashNode → nat * nat * nat)
    (acc : nat * nat * nat) (s : HashSlot) : nat * nat * nat :=
  let '(total_slots, total_empty_slots, max_comparisons_needed) := acc in
  let total_slots := S total_slots in
  match s with
  | Slot _ cnt next _ =>
      if (cnt =? 0)%nat then (total_slots, S total_empty_slots, max_comparisons_needed)
      else if (cnt =? 1)%nat then (total_slots, total_empty_slots, max_comparisons_needed)
      else
        match next with
        | ChildPtr child =>
            let '(child_slots_used, child_empty_slots, child_max_comparisons) :=
              efficiency child in
            ((total_slots + child_slots_used)%nat,
             (total_empty_slots + child_empty_slots)%nat,
             if (max_comparisons_needed <? child_max_comparisons)%nat
             then child_max_comparisons else max_comparisons_needed)
        | _ => (total_slots, total_empty_slots, max_comparisons_needed)
        end
  end.

(** Returns [(slots_used, empty_slots, max_comparisons)]. *)
Fixpoint hash_efficiency (node : HashNode) : nat * nat * nat :=
  match node with
  | Node _ _ _ slots =>
      let '(total_slots, total_empty_slots, max_comparisons_needed) :=
        fold_left (efficiency_slot hash_efficiency) slots (0, 0, 0)%nat in
      (total_slots, total_empty_slots, S max_comparisons_needed)
  end.

(** Returns [(slots_used, slot_efficiency, max_comparisons)]: the three
    numbers of the printed line, of which the last two are also stored
    through the pointers. *)
Definition hash_table_efficiency (node : HashNode) : nat * nat * nat :=
  let '(slots_used, empty_slots, max_comparisons) := hash_efficiency node in
  (slots_used, (slots_used * 100 / (slots_used + empty_slots))%nat, max_comparisons).

(** ** free_tree *)

(** The body of the loop of [free_tree] over the slots; [free] is the
    recursive call.  [free_tree(NULL)] and [free(NULL)] do nothing.  (A
    slot whose pointer is not the member that [count] selects does not
    occur in a tree that was built, see [well_formed].) *)
Definition free_slot (free : HashNode → Heap → Heap) (h : Heap) (s : HashSlot) : Heap :=
  match s with
  | Slot _ cnt next _ =>
      if (1 <? cnt)%nat then
        match next with
        | ChildPtr child => free child h
        | _ => h
        end
      else if (cnt =? 1)%nat then
        match next with
        | NullPtr => h
        | _ => free_binary h
        end
      else h
  end.

Fixpoint free_tree (node : HashNode) (h : Heap) : Heap :=
  match node with
  | Node _ _ _ slots => free_node (fold_left (free_slot free_tree) slots h)
  end.

(** ** create_integer_hash and lookup_integer *)

Section integer_hash.
(** The 8 bytes of an [int64_t] in memory, in the byte order of the
    machine: what the cast of [&integer] to a byte pointer reads. *)
Variable image : Z → list byte.

(** The parallel arrays [integers] and [payloads] are one list.  The tree
    keeps pointers into the array [integers]; it is read here while the
    array is unchanged. *)
Definition create_integer_hash (integers : list (Z * Z)) : Build :=
  create_binary_hash ((λ e : Z * Z, (image e.1, e.2)) <$> integers).

Definition lookup_integer (integer : Z) (node : HashNode) : option Z :=
  lookup_binary (image integer) node.
End integer_hash.

(** The byte of value [z mod 256]. *)
Definition byte_of_Z (z : Z) : byte :=
  default "000"%byte (Byte.of_nat (Z.to_nat (z mod 256))).

(** The [n] low bytes of a two's complement integer, least significant
    byte first. *)
Fixpoint low_bytes (n : nat) (z : Z) : list byte :=
  match n with
  | O => []
  | S n' => byte_of_Z z :: low_bytes n' (z / 256)
  end.

(** The image of an [int64_t] on a little-endian machine. *)
Definition little_endian (integer : Z) : list byte := low_bytes 8 integer.

#[global] Instance byte_eq_decision : EqDecision byte := Byte.byte_eq_dec.

(** ** Notions of the specification *)

(** The number of occurrences of a character in an array. *)
Definition occurrences (c : byte) (l : list byte) : nat :=
  length (filter (λ x, x = c) l).

(** A candidate [(a, m)] is perfect on an array when distinct characters
    of the array never share a slot. *)
Definition perfect (a m : Z) (l : list byte) : Prop :=
  ∀ c1 c2, c1 ∈ l → c2 ∈ l → slot_index c1 a m = slot_index c2 a m → c1 = c2.

(** The slot table after the characters [seen] were placed without a
    false positive: every slot counts the characters that hash to it, and
    they are all the slot's character. *)
Definition routed (a m : Z) (seen : list byte) (tbl : list SLOT) : Prop :=
  length tbl = S (Z.to_nat m) ∧
  ∀ i s, tbl !! i = Some s →
    SLOT_count s = length (filter (λ c, slot_index c a m = i) seen) ∧
    (∀ c, c ∈ seen → slot_index c a m = i → c = SLOT_character s).

(** The state of the scan for an array [chars]: while the best table is
    uninitialised the score still is [num_chars + 1]; afterwards the best
    table is a routed table for [(best_a, best_m)]. *)
Definition best_ok (chars : list byte) (b : Best) : Prop :=
  match best_slot_table b with
  | None => best_score b = S (length chars)
  | Some tbl =>
      best_a b ∈ primes ∧ 0 <= best_m b < 256 ∧
      routed (best_a b) (best_m b) chars tbl
  end.

Definition scan_result (s : Scan) : Best :=
  match s with FoundHash b => b | NextTable b => b end.

(** What the builders use of the node of [find_best_hash] for an array
    [chars]: the pair [(prime, num_slots)] is perfect on [chars], the slot
    of a character of [chars] records it with its number of occurrences,
    and every other slot is empty. *)
Definition selected (chars : list byte) (node : HashNode) : Prop :=
  prime node ∈ primes ∧ 0 <= num_slots node < 256 ∧
  length (slot node) = S (Z.to_nat (num_slots node)) ∧
  perfect (prime node) (num_slots node) chars ∧
  (∀ c, c ∈ chars →
     slot node !! slot_index c (prime node) (num_slots node)
       = Some (Slot c (occurrences c chars) NullPtr zero_payload)) ∧
  (∀ i s, slot node !! i = Some s →
     s = Slot "000"%byte 0 NullPtr zero_payload ∨
     (character s ∈ chars ∧
      slot_index (character s) (prime node) (num_slots node) = i ∧
      s = Slot (character s) (occurrences (character s) chars) NullPtr zero_payload)).

(** The bytes of the keys at column [c], padded. *)
Definition column_image (values : list (list byte * Z)) (c : nat) : list byte :=
  (λ e : list byte * Z, column_byte e.1 c) <$> values.

(** The survey has recorded a column: its image and the two results of
    the column analyzer on it. *)
Definition surveyed (values : list (list byte * Z)) (b : BestColumn) : Prop :=
  best_column_chars b = column_image values (best_column b) ∧
  best_unique_chars b = (calculate_character_distribution (best_column_chars b)).1 ∧
  best_num_slots b = (calculate_character_distribution (best_column_chars b)).2.

(** How the slot loop of [create_binary_hash] turns a slot [s] of
    [find_best_hash] into a slot [s'] of the finished node. *)
Definition populated (create : list (list byte * Z) → Heap → Build * Heap)
    (values : list (list byte * Z)) (col : nat) (s s' : HashSlot) : Prop :=
  (count s = 0%nat ∧ s' = Slot (character s) (count s) NullPtr (payload s)) ∨
  (count s = 1%nat ∧
   ∃ e, find_binary values col (character s) = Some e ∧
        s' = Slot (character s) (count s) (BinaryPtr e.1) e.2) ∨
  ((1 < count s)%nat ∧
   ∃ group child h1 h2,
     gather values col (character s) = Some group ∧
     create group h1 = (Built child, h2) ∧
     s' = Slot (character s) (count s) (ChildPtr child) (payload s)).

(** The child node of a branch slot. *)
Definition branch (s : HashSlot) : option HashNode :=
  match s with
  | Slot _ cnt (ChildPtr child) _ => if (1 <? cnt)%nat then Some child else None
  | _ => None
  end.

(** A measure of the child of a slot, 0 for a slot that is no branch. *)
Definition on_branch (f : HashNode → nat) (s : HashSlot) : nat :=
  match s with
  | Slot _ cnt (ChildPtr child) _ => if (1 <? cnt)%nat then f child else 0%nat
  | _ => 0%nat
  end.

(** The depth of a tree: the number of nodes on the longest chain from
    the root through branch slots. *)
Fixpoint depth (node : HashNode) : nat :=
  match node with
  | Node _ _ _ slots => S (foldr (λ s d, Nat.max (on_branch depth s) d) 0%nat slots)
  end.

(** The slots of a tree: all of them, the empty ones ([count = 0]) and the
    occupied ones (leaf or branch, [count >= 1]). *)
Fixpoint total_slots (node : HashNode) : nat :=
  match node with
  | Node _ _ _ slots =>
      (length slots + foldr (λ s k, on_branch total_slots s + k) 0 slots)%nat
  end.

Fixpoint vacant_slots (node : HashNode) : nat :=
  match node with
  | Node _ _ _ slots =>
      (length (filter (λ s, count s = 0%nat) slots)
       + foldr (λ s k, on_branch vacant_slots s + k) 0 slots)%nat
  end.

Fixpoint occupied_slots (node : HashNode) : nat :=
  match node with
  | Node _ _ _ slots =>
      (length (filter (λ s, (0 < count s)%nat) slots)
       + foldr (λ s k, on_branch occupied_slots s + k) 0 slots)%nat
  end.

(** The keys disagree at column [c]. *)
Definition splits (values : list (list byte * Z)) (c : nat) : Prop :=
  Exists (λ e1 : list byte * Z,
            Exists (λ e2 : list byte * Z, column_byte e1.1 c ≠ column_byte e2.1 c) values)
         values.

#[global] Instance splits_dec values c : Decision (splits values c).
Proof. unfold splits. apply _. Defined.

(** The number of columns below [bound] at which the keys disagree. *)
Definition disagreements (bound : nat) (values : list (list byte * Z)) : nat :=
  length (filter (splits values) (seq 0 bound)).

(** The state of the counting loop after the characters [l]. *)
Definition counted (l : list byte) (st : list nat * nat) : Prop :=
  length st.1 = 256%nat ∧
  (∀ c, st.1 !!! Byte.to_nat c = occurrences c l) ∧
  (∀ c, (occurrences c l <= st.2)%nat) ∧
  (st.2 <= length l)%nat ∧
  (l ≠ [] → ∃ c, c ∈ l ∧ occurrences c l = st.2).

(** The slots during the payload loop of [create_character_hash]: the slot
    of every character of the input is a leaf for it, and no slot has a
    child. *)
Definition leaves_only (chars : list byte) (a m : Z) (slots : list HashSlot) : Prop :=
  (∀ c, c ∈ chars → ∃ p, slots !! slot_index c a m = Some (Slot c 1 NullPtr p)) ∧
  (∀ i s, slots !! i = Some s → next_node s = NullPtr ∧ (count s <= 1)%nat).

(** A key read at the columns below [bound], padded. *)
Definition padded_key (bound : nat) (v : list byte) : list byte :=
  (λ c, column_byte v c) <$> seq 0 bound.

(** No key ends before a column at which the keys disagree: the
    gathering loop then stays within every key. *)
Definition long_enough (values : list (list byte * Z)) : Prop :=
  ∀ e c, e ∈ values → splits values c → (c < length e.1)%nat.

(** Keys in buffers of exactly their length: nothing can be read after
    them. *)
Definition exact_size (values : list (list byte * Z)) : list (list byte * Z * list byte) :=
  (λ e, (e, [])) <$> values.

(** Two values read differently at column [c], a read past the end of a
    buffer counting as a reading of its own. *)
Definition buffer_splits (values : list (list byte * Z * list byte)) (c : nat) : Prop :=
  Exists (λ e1 : list byte * Z * list byte,
            Exists (λ e2 : list byte * Z * list byte, peek e1 c ≠ peek e2 c) values)
         values.

#[global] Instance buffer_splits_dec values c : Decision (buffer_splits values c).
Proof. unfold buffer_splits. apply _. Defined.

(** The number of columns below [bound] at which the values read
    differently. *)
Definition buffer_disagreements (bound : nat) (values : list (list byte * Z * list byte)) : nat :=
  length (filter (buffer_splits values) (seq 0 bound)).

(** How the slot loop on values in larger buffers turns a slot [s] of
    [find_best_hash] into a slot [s'] of the finished node. *)
Definition populated_buffers (create : list (list byte * Z * list byte) → Build)
    (values : list (list byte * Z * list byte)) (col : nat) (s s' : HashSlot) : Prop :=
  (count s = 0%nat ∧ s' = Slot (character s) (count s) NullPtr (payload s)) ∨
  (count s = 1%nat ∧
   ∃ e, find_binary values.*1 col (character s) = Some e ∧
        s' = Slot (character s) (count s) (BinaryPtr e.1) e.2) ∨
  ((1 < count s)%nat ∧
   ∃ group child,
     gather_buffers values col (character s) = Some group ∧
     (length group <= count s)%nat ∧
     create group = Built child ∧
     s' = Slot (character s) (count s) (ChildPtr child) (payload s)).

(** The shape of a slot of a finished tree: the member of the union
    [next_node] that [count] selects is the one that was stored. *)
Definition slot_shape (shape : HashNode → Prop) (s : HashSlot) : Prop :=
  match s with
  | Slot _ cnt NullPtr _ => cnt = 0%nat
  | Slot _ cnt (BinaryPtr _) _ => cnt = 1%nat
  | Slot _ cnt (ChildPtr child) _ => (1 < cnt)%nat ∧ shape child
  end.

(** A tree all of whose nodes have a prime of the list, [num_slots + 1]
    slots, between 1 and 256, and slots of the right shape. *)
Fixpoint well_formed (node : HashNode) : Prop :=
  match node with
  | Node _ a m slots =>
      a ∈ primes ∧ 0 <= m < 256 ∧ length slots = S (Z.to_nat m) ∧
      foldr (λ s rest, slot_shape well_formed s ∧ rest) True slots
  end.

(** The nodes of a tree, and its leaf slots ([count = 1]). *)
Fixpoint tree_nodes (node : HashNode) : nat :=
  match node with
  | Node _ _ _ slots => S (foldr (λ s k, on_branch tree_nodes s + k) 0 slots)%nat
  end.

Fixpoint tree_leaves (node : HashNode) : nat :=
  match node with
  | Node _ _ _ slots =>
      (length (filter (λ s, count s = 1%nat) slots)
       + foldr (λ s k, on_branch tree_leaves s + k) 0 slots)%nat
  end.

(** The blocks that a successful call adds to the heap [h], for the tree
    [root] it returns: the nodes, one binary per leaf slot, and one
    scratch buffer per node below the root. *)
Definition allocated (h h' : Heap) (root : HashNode) : Prop :=
  live_nodes h' = (live_nodes h + tree_nodes root)%nat ∧
  live_binaries h' = (live_binaries h + tree_leaves root)%nat ∧
  live_buffers h' = (live_buffers h + (tree_nodes root - 1))%nat.

(** The value of a sequence of bytes, least significant byte first. *)
Definition bytes_value (l : list byte) : Z :=
  foldr (λ b v, byte_val b + 256 * v) 0 l.

(** The values of an [int64_t]. *)
Definition int64 (z : Z) : Prop := - 2 ^ 63 <= z < 2 ^ 63.

(** * Properties *)

(** ** Bytes and machine integers *)

Lemma byte_val_range (b : byte) : 0 <= byte_val b < 256.
Proof.
  unfold byte_val. pose proof (Byte.to_nat_bounded b). lia.
Qed.

Lemma byte_to_nat_inj (b1 b2 : byte) : Byte.to_nat b1 = Byte.to_nat b2 → b1 = b2.
Proof.
  intros E. pose proof (Byte.of_to_nat b1) as H1.
  rewrite E, Byte.of_to_nat in H1. congruence.
Qed.

Lemma byte_val_inj (b1 b2 : byte) : byte_val b1 = byte_val b2 → b1 = b2.
Proof.
  unfold byte_val. intros E. apply byte_to_nat_inj. lia.
Qed.

Lemma byte_eqb_eq (b1 b2 : byte) : Byte.eqb b1 b2 = true ↔ b1 = b2.
Proof.
  split; [apply Byte.byte_dec_bl | apply Byte.byte_dec_lb].
Qed.

Lemma byte_eqb_neq (b1 b2 : byte) : Byte.eqb b1 b2 = false ↔ b1 ≠ b2.
Proof.
  split.
  - apply Byte.eqb_false.
  - intros N. destruct (Byte.eqb b1 b2) eqn:E; [|done].
    apply byte_eqb_eq in E. done.
Qed.

Lemma int32_small (z : Z) : - 2 ^ 31 <= z < 2 ^ 31 → int32 z = z.
Proof.
  intros H. unfold int32. rewrite Z.mod_small; lia.
Qed.

Lemma uint8_small (z : Z) : 0 <= z < 256 → uint8 z = z.
Proof.
  intros H. unfold uint8. apply Z.mod_small. lia.
Qed.

(** The exclusive or of two 8-bit values is an 8-bit value. *)
Lemma lxor_8bit (x y : Z) : 0 <= x < 256 → 0 <= y < 256 → 0 <= Z.lxor x y < 256.
Proof.
  intros Hx Hy.
  assert (N : 0 <= Z.lxor x y) by (apply Z.lxor_nonneg; lia).
  split; [done|].
  destruct (Z.eq_dec (Z.lxor x y) 0) as [->|NZ]; [lia|].
  change 256 with (2 ^ 8). apply Z.log2_lt_pow2; [lia|].
  eapply Z.le_lt_trans; [apply Z.log2_lxor; lia|].
  apply Z.max_lub_lt.
  - destruct (Z.eq_dec x 0) as [->|]; [done|]. apply Z.log2_lt_pow2; lia.
  - destruct (Z.eq_dec y 0) as [->|]; [done|]. apply Z.log2_lt_pow2; lia.
Qed.

(** The product of [hash_function] before the modulus. *)
Lemma hash_product_range (b : byte) (a : Z) :
  0 <= a < 256 → 0 <= Z.lxor (a - 1) (byte_val b) * a < 2 ^ 16.
Proof.
  intros Ha. pose proof (byte_val_range b) as Hb.
  destruct (Z.eq_dec a 0) as [->|NZ]; [lia|].
  pose proof (lxor_8bit (a - 1) (byte_val b)). nia.
Qed.

(** The arithmetic of [hash_function] without the machine conversions. *)
Lemma hash_function_exact (b : byte) (a m : Z) :
  0 <= a < 256 → 0 <= m < 256 →
  hash_function b a m =
    if m =? 255 then byte_val b
    else (Z.lxor (a - 1) (byte_val b) * a) mod (m + 1).
Proof.
  intros Ha Hm. unfold hash_function.
  destruct (m =? 255) eqn:E; [done|].
  apply Z.eqb_neq in E.
  pose proof (hash_product_range b a Ha) as Hp.
  rewrite (int32_small (a - 1)) by lia.
  rewrite (int32_small (Z.lxor _ _ * a)) by lia.
  rewrite (int32_small (m + 1)) by lia.
  rewrite Z.rem_mod_nonneg by lia.
  apply uint8_small.
  pose proof (Z.mod_pos_bound (Z.lxor (a - 1) (byte_val b) * a) (m + 1)). lia.
Qed.

(** The result is an index into a table of [num_slots + 1] slots. *)
Lemma hash_function_range (b : byte) (a m : Z) :
  0 <= a < 256 → 0 <= m < 256 → 0 <= hash_function b a m <= m.
Proof.
  intros Ha Hm. rewrite hash_function_exact by done.
  destruct (m =? 255) eqn:E.
  - apply Z.eqb_eq in E. pose proof (byte_val_range b). lia.
  - pose proof (Z.mod_pos_bound (Z.lxor (a - 1) (byte_val b) * a) (m + 1)). lia.
Qed.

Lemma slot_index_range (b : byte) (a m : Z) :
  0 <= a < 256 → 0 <= m < 256 → (slot_index b a m < S (Z.to_nat m))%nat.
Proof.
  intros Ha Hm. unfold slot_index.
  pose proof (hash_function_range b a m Ha Hm). lia.
Qed.

(** The natural hash of the 256-slot table is injective. *)
Lemma slot_index_natural_inj (b1 b2 : byte) (a : Z) :
  slot_index b1 a 255 = slot_index b2 a 255 → b1 = b2.
Proof.
  unfold slot_index, hash_function. simpl.
  pose proof (byte_val_range b1). pose proof (byte_val_range b2).
  intros E. apply byte_val_inj. lia.
Qed.

(** C6: for every byte [b], multiplier [a] and zero-based slot count [m]
    (both [uint8_t]), [hash_function] returns [b] itself when [m = 255] and
    otherwise [(((a - 1) XOR b) * a) mod (m + 1)]; the product is computed
    exactly: it lies below 2^16, so neither the [int] arithmetic nor the
    conversion of the result to [uint8_t] loses anything. *)
Theorem hash_function_kernel (b : byte) (a m : Z) :
  0 <= a < 256 → 0 <= m < 256 →
  (m = 255 → hash_function b a m = byte_val b) ∧
  (m ≠ 255 → hash_function b a m = (Z.lxor (a - 1) (byte_val b) * a) mod (m + 1)) ∧
  0 <= Z.lxor (a - 1) (byte_val b) * a < 2 ^ 16 ∧
  int32 (Z.lxor (int32 (a - 1)) (byte_val b) * a) = Z.lxor (a - 1) (byte_val b) * a.
Proof.
  intros Ha Hm. pose proof (hash_product_range b a Ha) as Hp.
  repeat split; try lia.
  - intros ->. by rewrite hash_function_exact.
  - intros N. rewrite hash_function_exact by done.
    destruct (m =? 255) eqn:E; [|done]. apply Z.eqb_eq in E. done.
  - rewrite (int32_small (a - 1)) by lia. apply int32_small. lia.
Qed.

(** ** calculate_character_distribution *)

Lemma occurrences_snoc (c x : byte) (l : list byte) :
  occurrences c (l ++ [x]) = (occurrences c l + if decide (x = c) then 1 else 0)%nat.
Proof.
  unfold occurrences. rewrite filter_app, length_app.
  destruct (decide (x = c)) as [->|N].
  - by rewrite filter_cons_True.
  - by rewrite filter_cons_False.
Qed.

Lemma occurrences_le_length (c : byte) (l : list byte) : (occurrences c l <= length l)%nat.
Proof. apply length_filter. Qed.

Lemma occurrences_pos (c : byte) (l : list byte) : (0 < occurrences c l)%nat ↔ c ∈ l.
Proof.
  unfold occurrences. split.
  - intros H. destruct (filter (λ x, x = c) l) as [|y f] eqn:E; [simpl in H; lia|].
    assert (Hy : y ∈ filter (λ x, x = c) l) by (rewrite E; left).
    apply list_elem_of_filter in Hy as [-> Hy]. done.
  - intros H.
    assert (Hc : c ∈ filter (λ x, x = c) l) by (by apply list_elem_of_filter).
    destruct (filter (λ x, x = c) l); [by apply elem_of_nil in Hc | simpl; lia].
Qed.

Lemma counted_fold (l : list byte) :
  counted l (fold_left count_character l (replicate 256 0%nat, 0%nat)).
Proof.
  induction l as [|x l IH] using rev_ind.
  - unfold counted. cbn [fold_left fst snd]. split_and!.
    + apply length_replicate.
    + intros c. apply lookup_total_replicate_2.
      pose proof (Byte.to_nat_bounded c). lia.
    + intros c. cbn. lia.
    + cbn. lia.
    + done.
  - rewrite fold_left_app. cbn [fold_left].
    destruct (fold_left count_character l (replicate 256 0%nat, 0%nat)) as [cs mx].
    destruct IH as (Hlen & Hocc & Hmax & Hle & Hatt). simpl in *.
    assert (Hx : (Byte.to_nat x < length cs)%nat)
      by (pose proof (Byte.to_nat_bounded x); lia).
    repeat split; simpl.
    + by rewrite length_insert.
    + intros c. rewrite occurrences_snoc. destruct (decide (x = c)) as [->|N].
      * rewrite list_lookup_total_insert_eq by done. rewrite Hocc. lia.
      * rewrite list_lookup_total_insert_ne; [rewrite Hocc; lia|].
        intros E. by apply byte_to_nat_inj in E.
    + intros c. rewrite occurrences_snoc, Hocc.
      pose proof (Hmax c). pose proof (Hmax x).
      destruct (Nat.ltb_spec mx (S (occurrences x l)));
        destruct (decide (x = c)) as [E|N]; try rewrite <- E; lia.
    + rewrite length_app. simpl. rewrite Hocc.
      pose proof (occurrences_le_length x l).
      destruct (Nat.ltb_spec mx (S (occurrences x l))); lia.
    + intros _. rewrite Hocc.
      destruct (Nat.ltb_spec mx (S (occurrences x l))) as [Hlt|Hge].
      * exists x. split; [apply elem_of_app; right; left|].
        rewrite occurrences_snoc. rewrite decide_True by done. lia.
      * destruct l as [|y l'] using rev_ind.
        { specialize (Hmax x). simpl in *. lia. }
        clear IHl'. destruct Hatt as (c & Hc & Hoc).
        { by destruct l'. }
        exists c. split; [apply elem_of_app; by left|].
        rewrite occurrences_snoc. destruct (decide (x = c)) as [->|N]; lia.
Qed.

Lemma filter_ext_elem {A} (P1 P2 : A → Prop)
    `{!∀ x, Decision (P1 x), !∀ x, Decision (P2 x)} (l : list A) :
  (∀ x, x ∈ l → P1 x ↔ P2 x) → filter P1 l = filter P2 l.
Proof.
  induction l as [|a l IH]; intros Hiff; [done|].
  assert (Ha : P1 a ↔ P2 a) by (apply Hiff; left).
  assert (Hl : filter P1 l = filter P2 l) by (apply IH; intros x Hx; apply Hiff; by right).
  destruct (decide (P1 a)).
  - rewrite !filter_cons_True by tauto. by rewrite Hl.
  - rewrite !filter_cons_False by tauto. done.
Qed.

(** Counting the entries of an array that satisfy [P] is counting the
    indices at which [P] holds. *)
Lemma length_filter_indices (P : nat → Prop) `{∀ k, Decision (P k)} (cs : list nat) :
  length (filter P cs) = length (filter (λ i, P (cs !!! i)) (seq 0 (length cs))).
Proof.
  induction cs as [|x cs IH] using rev_ind; [done|].
  rewrite length_app. simpl. rewrite Nat.add_1_r, seq_S. simpl.
  rewrite !filter_app, !length_app.
  f_equal.
  - rewrite IH. f_equal. apply filter_ext_elem.
    intros i Hi. apply elem_of_seq in Hi.
    rewrite lookup_total_app_l by lia. done.
  - assert (E : (cs ++ [x]) !!! length cs = x).
    { rewrite lookup_total_app_r by lia. by rewrite Nat.sub_diag. }
    destruct (decide (P x)).
    + rewrite !filter_cons_True; [done | by rewrite E | done].
    + rewrite !filter_cons_False; [done | by rewrite E | done].
Qed.

#[global] Instance byte_to_nat_Inj : Inj (=) (=) Byte.to_nat.
Proof. intros x y. apply byte_to_nat_inj. Qed.

(** The two results of the column analyzer. *)
Lemma unique_chars_spec (l : list byte) :
  (calculate_character_distribution l).1 = length (remove_dups l).
Proof.
  unfold calculate_character_distribution.
  pose proof (counted_fold l) as H.
  destruct (fold_left count_character l (replicate 256 0%nat, 0%nat)) as [cs mx].
  destruct H as (Hlen & Hocc & _). simpl in *.
  rewrite length_filter_indices, Hlen.
  rewrite <- (length_fmap Byte.to_nat (remove_dups l)).
  apply Permutation_length, NoDup_Permutation.
  - apply NoDup_filter, NoDup_seq.
  - apply NoDup_fmap_2; [apply _ | apply NoDup_remove_dups].
  - intros i. rewrite list_elem_of_filter, elem_of_seq, list_elem_of_fmap. split.
    + intros [Hpos Hi].
      destruct (Byte.of_nat i) as [c|] eqn:E.
      * apply Byte.to_of_nat in E. subst i. exists c. split; [done|].
        apply elem_of_remove_dups, occurrences_pos. by rewrite <- Hocc.
      * apply Byte.of_nat_None_iff in E. lia.
    + intros (c & -> & Hc). rewrite elem_of_remove_dups in Hc.
      split; [rewrite Hocc; by apply occurrences_pos|].
      pose proof (Byte.to_nat_bounded c). lia.
Qed.

Lemma max_occurrence_spec (l : list byte) :
  let mx := (calculate_character_distribution l).2 in
  (∀ c, (occurrences c l <= mx)%nat) ∧ (mx <= length l)%nat ∧
  (l ≠ [] → ∃ c, c ∈ l ∧ occurrences c l = mx).
Proof.
  unfold calculate_character_distribution.
  pose proof (counted_fold l) as H.
  destruct (fold_left count_character l (replicate 256 0%nat, 0%nat)) as [cs mx].
  destruct H as (_ & _ & H1 & H2 & H3). simpl in *. done.
Qed.

(** A column on which all the keys agree has one unique character. *)
Lemma unique_chars_agree (l : list byte) (c : byte) :
  l ≠ [] → (∀ x, x ∈ l → x = c) → (calculate_character_distribution l).1 = 1%nat.
Proof.
  intros Hne Hall. rewrite unique_chars_spec.
  assert (E : remove_dups l ≡ₚ [c]).
  { apply NoDup_Permutation; [apply NoDup_remove_dups | apply NoDup_singleton |].
    intros x. rewrite elem_of_remove_dups, list_elem_of_singleton. split; [auto|].
    intros ->. destruct l as [|y l]; [done|].
    rewrite <- (Hall y); left. }
  by rewrite E.
Qed.

(** ** find_best_hash: the routing loop *)

Lemma length_filter_zero {A} (P : A → Prop) `{!∀ x, Decision (P x)} (l : list A) (x : A) :
  length (filter P l) = 0%nat → x ∈ l → ¬ P x.
Proof.
  intros H0 Hx HP.
  assert (Hin : x ∈ filter P l) by (by apply list_elem_of_filter).
  destruct (filter P l); [by apply elem_of_nil in Hin | done].
Qed.

Lemma length_filter_pos {A} (P : A → Prop) `{!∀ x, Decision (P x)} (l : list A) :
  (0 < length (filter P l))%nat → ∃ x, x ∈ l ∧ P x.
Proof.
  intros H0. destruct (filter P l) as [|x f] eqn:E; [simpl in H0; lia|].
  assert (Hin : x ∈ filter P l) by (rewrite E; left).
  apply list_elem_of_filter in Hin as [HP Hin]. eauto.
Qed.

Lemma primes_range (a : Z) : a ∈ primes → 2 <= a < 256.
Proof.
  intros H. assert (F : Forall (λ a, 2 <= a < 256) primes).
  { unfold primes. repeat (apply Forall_cons; split; [lia|]). apply Forall_nil_2. }
  rewrite Forall_forall in F. by apply F.
Qed.

Lemma routed_clear (a m : Z) : routed a m [] (clear_slot_table m).
Proof.
  split; [apply length_replicate|].
  intros i s Hs. apply lookup_replicate in Hs as [-> _].
  split; [done|]. intros c Hc. by apply elem_of_nil in Hc.
Qed.

Section routing.
Variables a m : Z.
Hypothesis a_range : 0 <= a < 256.
Hypothesis m_range : 0 <= m < 256.

(** Placing one more character. *)
Lemma routed_snoc (seen : list byte) (tbl : list SLOT) (c : byte) (s : SLOT) :
  routed a m seen tbl →
  tbl !! slot_index c a m = Some s →
  (SLOT_count s = 0%nat ∨ SLOT_character s = c) →
  routed a m (seen ++ [c])
    (<[slot_index c a m :=
         mkSLOT (if (SLOT_count s =? 0)%nat then c else SLOT_character s)
                (S (SLOT_count s))]> tbl).
Proof.
  intros [Hlen Htbl] Hs Hcase. split; [by rewrite length_insert|].
  intros i s' Hs'.
  destruct (decide (i = slot_index c a m)) as [->|Ni].
  - rewrite list_lookup_insert_eq in Hs' by (by eapply lookup_lt_Some).
    injection Hs' as <-. simpl.
    destruct (Htbl _ _ Hs) as [Hcnt Hch].
    split.
    + rewrite filter_app, length_app, filter_cons_True by done. simpl. lia.
    + intros c' Hc' Hi. apply elem_of_app in Hc' as [Hc'|Hc'].
      * destruct (Nat.eqb_spec (SLOT_count s) 0) as [Z0|NZ].
        -- rewrite Z0 in Hcnt. symmetry in Hcnt.
           by apply (length_filter_zero _ _ c') in Hcnt.
        -- destruct Hcase as [?|Hc]; [done|]. by apply Hch.
      * apply list_elem_of_singleton in Hc' as ->.
        destruct (Nat.eqb_spec (SLOT_count s) 0); [done|].
        destruct Hcase as [?|Hc]; done.
  - rewrite list_lookup_insert_ne in Hs' by done.
    destruct (Htbl _ _ Hs') as [Hcnt Hch].
    split.
    + rewrite filter_app, length_app, filter_cons_False by done. simpl. lia.
    + intros c' Hc' Hi. apply elem_of_app in Hc' as [Hc'|Hc']; [by apply Hch|].
      apply list_elem_of_singleton in Hc' as ->. done.
Qed.

Lemma routed_lookup (seen : list byte) (tbl : list SLOT) (c : byte) :
  routed a m seen tbl → ∃ s, tbl !! slot_index c a m = Some s.
Proof.
  intros [Hlen _]. apply lookup_lt_is_Some. rewrite Hlen.
  by apply slot_index_range.
Qed.

(** The routing loop, when it runs to its end, leaves a routed table. *)
Lemma route_sound (chars : list byte) :
  ∀ seen tbl d tbl' d',
    routed a m seen tbl →
    route chars a m tbl d = Some (tbl', d') →
    routed a m (seen ++ chars) tbl' ∧
    (d <= d')%nat ∧ (d' <= Nat.max d (length (seen ++ chars)))%nat.
Proof.
  induction chars as [|c rest IH]; intros seen tbl d tbl' d' Hr Hroute.
  - injection Hroute as <- <-. rewrite app_nil_r. split_and!; [done | lia | lia].
  - cbn [route] in Hroute.
    destruct (routed_lookup seen tbl c Hr) as [s Hs].
    rewrite (list_lookup_total_correct _ _ _ Hs) in Hroute.
    pose proof (routed_snoc seen tbl c s Hr Hs) as Hsnoc.
    assert (Hcnt : (SLOT_count s <= length seen)%nat).
    { destruct Hr as [_ Htbl]. destruct (Htbl _ _ Hs) as [-> _]. apply length_filter. }
    replace (seen ++ c :: rest) with ((seen ++ [c]) ++ rest) by (by rewrite <- app_assoc).
    destruct (Nat.eqb_spec (SLOT_count s) 0) as [Z0|NZ].
    + rewrite Z0 in Hsnoc. apply IH with (seen := seen ++ [c]) in Hroute; [|auto].
      destruct Hroute as (? & ? & ?). rewrite !length_app in *. simpl in *.
      split_and!; [done | lia | lia].
    + destruct (Byte.eqb (SLOT_character s) c) eqn:E; [|done]. simpl in Hroute.
      apply byte_eqb_eq in E.
      apply IH with (seen := seen ++ [c]) in Hroute; [|auto].
      destruct Hroute as (? & ? & ?). rewrite !length_app in *. simpl in *.
      split_and!; [done | |];
        destruct (Nat.ltb_spec d (S (SLOT_count s))); lia.
Qed.

(** The routing loop breaks only on a false positive. *)
Lemma route_complete (chars : list byte) :
  ∀ seen tbl d,
    routed a m seen tbl →
    perfect a m (seen ++ chars) →
    is_Some (route chars a m tbl d).
Proof.
  induction chars as [|c rest IH]; intros seen tbl d Hr Hp; [by eexists|].
  cbn [route].
  destruct (routed_lookup seen tbl c Hr) as [s Hs].
  rewrite (list_lookup_total_correct _ _ _ Hs).
  pose proof (routed_snoc seen tbl c s Hr Hs) as Hsnoc.
  assert (Hp' : perfect a m ((seen ++ [c]) ++ rest)) by (by rewrite <- app_assoc).
  destruct (Nat.eqb_spec (SLOT_count s) 0) as [Z0|NZ].
  - rewrite Z0 in Hsnoc. apply IH with (seen := seen ++ [c]); auto.
  - assert (Hc : SLOT_character s = c).
    { destruct Hr as [_ Htbl]. destruct (Htbl _ _ Hs) as [Hcnt Hch].
      destruct (length_filter_pos (λ c0, slot_index c0 a m = slot_index c a m) seen)
        as (c' & Hc' & Hi); [lia|].
      rewrite <- (Hch c' Hc' Hi).
      apply Hp; [apply elem_of_app; by left | | done].
      apply elem_of_app; right; left. }
    rewrite (proj2 (byte_eqb_eq _ _) Hc). simpl.
    apply IH with (seen := seen ++ [c]); auto.
Qed.

(** A routed table witnesses a perfect hash, and tells the slot of
    every character. *)
Lemma routed_perfect (l : list byte) (tbl : list SLOT) :
  routed a m l tbl → perfect a m l.
Proof.
  intros Hr c1 c2 H1 H2 E.
  destruct (routed_lookup l tbl c1 Hr) as [s Hs].
  destruct Hr as [_ Htbl]. destruct (Htbl _ _ Hs) as [_ Hch].
  rewrite (Hch c1), (Hch c2); done.
Qed.

Lemma routed_slot (l : list byte) (tbl : list SLOT) (c : byte) :
  routed a m l tbl → c ∈ l →
  tbl !! slot_index c a m = Some (mkSLOT c (occurrences c l)).
Proof.
  intros Hr Hc.
  destruct (routed_lookup l tbl c Hr) as [s Hs]. rewrite Hs. f_equal.
  pose proof (routed_perfect l tbl Hr) as Hp.
  destruct Hr as [_ Htbl]. destruct (Htbl _ _ Hs) as [Hcnt Hch].
  destruct s as [ch k]. simpl in *. f_equal; [symmetry; by apply Hch|].
  rewrite Hcnt. unfold occurrences. f_equal. apply filter_ext_elem.
  intros x Hx. split; [intros E; by apply Hp | by intros ->].
Qed.

Lemma routed_occupied (l : list byte) (tbl : list SLOT) (i : nat) (s : SLOT) :
  routed a m l tbl → tbl !! i = Some s → (0 < SLOT_count s)%nat →
  SLOT_character s ∈ l ∧ slot_index (SLOT_character s) a m = i ∧
  SLOT_count s = occurrences (SLOT_character s) l.
Proof.
  intros Hr Hs Hpos. pose proof Hr as [_ Htbl].
  destruct (Htbl _ _ Hs) as [Hcnt Hch].
  destruct (length_filter_pos (λ c0, slot_index c0 a m = i) l) as (c & Hc & Hi); [lia|].
  rewrite <- (Hch c Hc Hi).
  pose proof (routed_slot l tbl c Hr Hc) as Hs'. rewrite Hi, Hs in Hs'.
  injection Hs' as ->. done.
Qed.
End routing.

(** ** find_best_hash: the scan over the candidates *)

Section scanning.
Variable chars : list byte.
Variable best_possible_score : nat.
Hypothesis score_le : (best_possible_score <= length chars)%nat.

Lemma scan_primes_ok (ps : list Z) (m : Z) :
  0 <= m < 256 → (∀ a, a ∈ ps → a ∈ primes) →
  ∀ b, best_ok chars b →
    best_ok chars (scan_result (scan_primes ps chars best_possible_score m b)).
Proof.
  intros Hm. induction ps as [|a ps IH]; intros Hps b Hb; [done|].
  assert (Ha : a ∈ primes) by (apply Hps; left).
  assert (Hps' : ∀ a, a ∈ ps → a ∈ primes) by (intros x Hx; apply Hps; by right).
  cbn [scan_primes].
  destruct (route chars a m (clear_slot_table m) best_possible_score)
    as [[tbl d]|] eqn:Hroute; [|by apply IH].
  apply (route_sound a m) with (seen := []) in Hroute as (Hr & _ & _);
    [| pose proof (primes_range a Ha); lia | done | apply routed_clear].
  rewrite app_nil_l in Hr.
  set (b' := if (d <? best_score b)%nat then mkBest d a m (Some tbl) else b).
  assert (Hb' : best_ok chars b').
  { unfold b'. destruct (d <? best_score b)%nat; [|done].
    unfold best_ok. cbn. pose proof (primes_range a Ha). done. }
  destruct (best_score b' =? best_possible_score)%nat; [done|]. by apply IH.
Qed.

(** [goto found_hash] is taken with an initialised table. *)
Lemma scan_primes_found (ps : list Z) (m : Z) :
  ∀ b b', scan_primes ps chars best_possible_score m b = FoundHash b' →
    best_score b' = best_possible_score.
Proof.
  induction ps as [|a ps IH]; intros b b' H; [done|].
  cbn [scan_primes] in H.
  destruct (route chars a m (clear_slot_table m) best_possible_score)
    as [[tbl d]|]; [|by eapply IH].
  destruct (Nat.eqb_spec
              (best_score (if (d <? best_score b)%nat then mkBest d a m (Some tbl) else b))
              best_possible_score) as [E|N].
  - injection H as <-. done.
  - by eapply IH.
Qed.

Lemma scan_primes_keeps (ps : list Z) (m : Z) :
  ∀ b, is_Some (best_slot_table b) →
    is_Some (best_slot_table (scan_result (scan_primes ps chars best_possible_score m b))).
Proof.
  induction ps as [|a ps IH]; intros b Hb; [done|].
  cbn [scan_primes].
  destruct (route chars a m (clear_slot_table m) best_possible_score)
    as [[tbl d]|]; [|by apply IH].
  set (b' := if (d <? best_score b)%nat then mkBest d a m (Some tbl) else b).
  assert (Hb' : is_Some (best_slot_table b')).
  { unfold b'. destruct (d <? best_score b)%nat; [by eexists | done]. }
  destruct (best_score b' =? best_possible_score)%nat; [done|]. by apply IH.
Qed.

(** A perfect candidate among the primes initialises the best table. *)
Lemma scan_primes_settles (ps : list Z) (m a0 : Z) :
  0 <= m < 256 → (∀ a, a ∈ ps → a ∈ primes) →
  a0 ∈ ps → perfect a0 m chars →
  ∀ b, best_ok chars b →
    is_Some (best_slot_table (scan_result (scan_primes ps chars best_possible_score m b))).
Proof.
  intros Hm. induction ps as [|a ps IH]; intros Hps Ha0 Hp b Hb.
  { by apply elem_of_nil in Ha0. }
  assert (Ha : a ∈ primes) by (apply Hps; left).
  assert (Hps' : ∀ a, a ∈ ps → a ∈ primes) by (intros x Hx; apply Hps; by right).
  pose proof (primes_range a Ha) as Har.
  cbn [scan_primes].
  destruct (route chars a m (clear_slot_table m) best_possible_score)
    as [[tbl d]|] eqn:Hroute.
  - pose proof Hroute as Hroute'.
    apply (route_sound a m) with (seen := []) in Hroute' as (Hr & _ & Hd);
      [| lia | done | apply routed_clear].
    rewrite app_nil_l in Hr, Hd.
    set (b' := if (d <? best_score b)%nat then mkBest d a m (Some tbl) else b).
    assert (Hb' : is_Some (best_slot_table b')).
    { unfold b'. destruct (Nat.ltb_spec d (best_score b)) as [Hlt|Hge]; [by eexists|].
      unfold best_ok in Hb. destruct (best_slot_table b); [by eexists | lia]. }
    destruct (best_score b' =? best_possible_score)%nat; [done|].
    by apply scan_primes_keeps.
  - apply elem_of_cons in Ha0 as [->|Ha0]; [|by apply IH].
    destruct (route_complete a m) with (chars := chars) (seen := @nil byte)
      (tbl := clear_slot_table m) (d := best_possible_score) as [r Hr];
      [lia | done | apply routed_clear | done |].
    congruence.
Qed.

Lemma head_prime : 2 ∈ primes.
Proof. left. Qed.

(** The scan over the table sizes ends with an initialised best table
    that is routed for the best pair. *)
Lemma scan_tables_ok (todo : nat) :
  (todo <= 255)%nat →
  ∀ b, best_ok chars b →
    let b' := scan_tables todo chars best_possible_score b in
    best_ok chars b' ∧ is_Some (best_slot_table b').
Proof.
  induction todo as [|todo IH]; intros Htodo b Hb; cbn [scan_tables].
  - pose proof (scan_primes_ok primes 255 ltac:(lia) ltac:(done) b Hb) as Hok.
    pose proof (scan_primes_settles primes 255 2 ltac:(lia) ltac:(done) head_prime) as Hs.
    specialize (Hs ltac:(intros c1 c2 _ _; apply slot_index_natural_inj) b Hb).
    change (255 - Z.of_nat 0) with 255.
    destruct (scan_primes primes chars best_possible_score 255 b); done.
  - set (m := 255 - Z.of_nat (S todo)).
    pose proof (scan_primes_ok primes m ltac:(lia) ltac:(done) b Hb) as Hok.
    destruct (scan_primes primes chars best_possible_score m b) as [b'|b'] eqn:E.
    + split; [done|]. apply scan_primes_found in E. simpl in Hok.
      unfold best_ok in Hok. destruct (best_slot_table b'); [by eexists | lia].
    + apply IH; [lia | done].
Qed.

(** The node of [find_best_hash]. *)
Lemma find_best_hash_routed (min_unique_chars : nat) :
  ∃ node tbl,
    find_best_hash chars best_possible_score min_unique_chars = Some node ∧
    column node = 0%nat ∧
    prime node ∈ primes ∧ 0 <= num_slots node < 256 ∧
    routed (prime node) (num_slots node) chars tbl ∧
    slot node = slot_of_SLOT <$> tbl.
Proof.
  unfold find_best_hash.
  set (m0 := first_num_slots min_unique_chars).
  assert (Hm0 : 0 <= m0 < 256) by (apply Z.mod_pos_bound; lia).
  destruct (scan_tables_ok (Z.to_nat (255 - m0)) ltac:(lia)
              (mkBest (S (length chars)) 0 0 None) eq_refl) as [Hok [tbl Htbl]].
  set (b := scan_tables _ _ _ _) in *.
  unfold best_ok in Hok. rewrite Htbl in *. destruct Hok as (Ha & Hm & Hr).
  exists (Node 0 (best_a b) (best_m b) (slot_of_SLOT <$> take (S (Z.to_nat (best_m b))) tbl)), tbl.
  cbn [column prime num_slots slot].
  split; [done|]. split; [done|]. split; [done|]. split; [done|]. split; [done|].
  f_equal. apply take_ge. destruct Hr as [Hl _]. by rewrite Hl.
Qed.
End scanning.

(** ** find_best_hash: the node *)

Lemma find_best_hash_selected (chars : list byte) (best_possible_score min_unique_chars : nat) :
  (best_possible_score <= length chars)%nat →
  ∃ node, find_best_hash chars best_possible_score min_unique_chars = Some node ∧
          column node = 0%nat ∧ selected chars node.
Proof.
  intros Hle.
  destruct (find_best_hash_routed chars best_possible_score Hle min_unique_chars)
    as (node & tbl & Hfind & Hcol & Ha & Hm & Hr & Hslot).
  exists node. split; [done|]. split; [done|].
  pose proof (primes_range _ Ha) as Har.
  assert (Har' : 0 <= prime node < 256) by lia.
  unfold selected. rewrite Hslot. split_and!; try done; try lia.
  - rewrite length_fmap. by destruct Hr.
  - by eapply routed_perfect.
  - intros c Hc. rewrite list_lookup_fmap.
    rewrite (routed_slot _ _ Har' Hm chars tbl c Hr Hc). cbn.
    unfold slot_of_SLOT. cbn.
    apply occurrences_pos in Hc. destruct (occurrences c chars); [lia|done].
  - intros i s Hs. rewrite list_lookup_fmap in Hs.
    destruct (tbl !! i) as [t|] eqn:Ht; [|done]. injection Hs as <-.
    unfold slot_of_SLOT. destruct (Nat.ltb_spec 0 (SLOT_count t)) as [Hpos|Hz]; [|by left].
    right. cbn.
    destruct (routed_occupied _ _ Har' Hm chars tbl i t Hr Ht Hpos) as (Hin & Hi & Hcnt).
    rewrite <- Hcnt. done.
Qed.

(** The column analyzer gives [find_best_hash] a score it can reach. *)
Lemma find_best_hash_distribution (chars : list byte) :
  ∃ node,
    find_best_hash chars (calculate_character_distribution chars).2
                   (calculate_character_distribution chars).1 = Some node ∧
    column node = 0%nat ∧ selected chars node.
Proof.
  apply find_best_hash_selected. apply max_occurrence_spec.
Qed.

(** C5: for every byte array, [find_best_hash] (called, as both builders
    do, with the results of the column analyzer; or with any score that
    does not exceed the length of the array, and any lower bound)
    returns a node, and the node's [(prime, num_slots)] sends any two
    distinct byte values of the array to different slots.  The scan cannot
    fail to find one: the natural hash of the 256-slot table separates all
    byte values, whatever the multiplier. *)
Theorem find_best_hash_no_collision (characters : list byte) :
  (∃ node,
     find_best_hash characters
       (calculate_character_distribution characters).2
       (calculate_character_distribution characters).1 = Some node ∧
     ∀ c1 c2, c1 ∈ characters → c2 ∈ characters → c1 ≠ c2 →
       hash_function c1 (prime node) (num_slots node)
         ≠ hash_function c2 (prime node) (num_slots node)) ∧
  (∀ best_possible_score min_unique_chars,
     (best_possible_score <= length characters)%nat →
     ∃ node,
       find_best_hash characters best_possible_score min_unique_chars = Some node ∧
       ∀ c1 c2, c1 ∈ characters → c2 ∈ characters → c1 ≠ c2 →
         hash_function c1 (prime node) (num_slots node)
           ≠ hash_function c2 (prime node) (num_slots node)) ∧
  (∀ a c1 c2, c1 ≠ c2 → hash_function c1 a 255 ≠ hash_function c2 a 255).
Proof.
  assert (Hsep : ∀ node, selected characters node →
            ∀ c1 c2, c1 ∈ characters → c2 ∈ characters → c1 ≠ c2 →
              hash_function c1 (prime node) (num_slots node)
                ≠ hash_function c2 (prime node) (num_slots node)).
  { intros node (_ & _ & _ & Hp & _) c1 c2 H1 H2 Hne E. apply Hne.
    apply Hp; [done..|]. unfold slot_index. by rewrite E. }
  split_and!.
  - destruct (find_best_hash_distribution characters) as (node & Hfind & _ & Hsel).
    exists node. split; [done | by apply Hsep].
  - intros bps u Hle.
    destruct (find_best_hash_selected characters bps u Hle) as (node & Hfind & _ & Hsel).
    exists node. split; [done | by apply Hsep].
  - intros a c1 c2 Hne E. apply Hne.
    apply (slot_index_natural_inj c1 c2 a). unfold slot_index. by rewrite E.
Qed.

(** ** find_best_hash: which candidate is returned *)

Section first_candidate.
Variable chars : list byte.

(** With the score of the column analyzer, the differential score of a
    candidate without false positive is that score itself. *)
Lemma route_score (a m : Z) (bound : nat) :
  0 <= a < 256 → 0 <= m < 256 →
  ∀ rest seen tbl d tbl' d',
    routed a m seen tbl →
    route rest a m tbl d = Some (tbl', d') →
    (d <= bound)%nat →
    (∀ c, (occurrences c (seen ++ rest) <= bound)%nat) →
    (d' <= bound)%nat.
Proof.
  intros Ha Hm. induction rest as [|c rest IH]; intros seen tbl d tbl' d' Hr Hroute Hd Hocc.
  { by injection Hroute as <- <-. }
  pose proof (route_sound a m Ha Hm _ _ _ _ _ _ Hr Hroute) as (Hall & _ & _).
  pose proof (routed_perfect a m Ha Hm _ _ Hall) as Hp.
  cbn [route] in Hroute.
  destruct (routed_lookup a m Ha Hm seen tbl c Hr) as [s Hs].
  rewrite (list_lookup_total_correct _ _ _ Hs) in Hroute.
  pose proof (routed_snoc a m seen tbl c s Hr Hs) as Hsnoc.
  assert (Hocc' : ∀ c0, (occurrences c0 ((seen ++ [c]) ++ rest) <= bound)%nat).
  { intros c0. by rewrite <- app_assoc. }
  destruct (Nat.eqb_spec (SLOT_count s) 0) as [Z0|NZ].
  - rewrite Z0 in Hsnoc. eapply (IH (seen ++ [c])); eauto.
  - destruct (Byte.eqb (SLOT_character s) c) eqn:E; [|done]. cbn [negb] in Hroute.
    apply byte_eqb_eq in E.
    eapply (IH (seen ++ [c])); [by auto | exact Hroute | | done].
    (* the new count of the slot is below the occurrences of [c] *)
    destruct Hr as [_ Htbl]. destruct (Htbl _ _ Hs) as [Hcnt _].
    assert (Hk : (S (SLOT_count s) <= occurrences c (seen ++ c :: rest))%nat).
    { rewrite Hcnt. unfold occurrences.
      rewrite (filter_ext_elem (λ x, x = c) (λ x, slot_index x a m = slot_index c a m)
                 (seen ++ c :: rest)).
      - rewrite filter_app, length_app, filter_cons_True by done. cbn. lia.
      - intros x Hx. split; [by intros ->|]. intros Hi. apply Hp; [done | | done].
        apply elem_of_app. right. left. }
    specialize (Hocc c). destruct (Nat.ltb_spec d (S (SLOT_count s))); lia.
Qed.

(** The score that the builders pass. *)
#[local] Abbreviation score := (calculate_character_distribution chars).2.

Lemma route_score_exact (a m : Z) (tbl : list SLOT) (d : nat) :
  0 <= a < 256 → 0 <= m < 256 →
  route chars a m (clear_slot_table m) score = Some (tbl, d) → d = score.
Proof.
  intros Ha Hm Hroute.
  pose proof (route_sound a m Ha Hm _ _ _ _ _ _ (routed_clear a m) Hroute) as (_ & Hge & _).
  pose proof (route_score a m score Ha Hm _ _ _ _ _ _ (routed_clear a m) Hroute
                (Nat.le_refl _)) as Hle.
  assert (d <= score)%nat; [|lia].
  apply Hle. intros c. rewrite app_nil_l. apply max_occurrence_spec.
Qed.

(** While no candidate has been accepted, the loop over the primes stops
    at the first prime that is perfect for the table size. *)
Lemma scan_primes_first (ps : list Z) (m : Z) (b : Best) :
  0 <= m < 256 → (∀ a, a ∈ ps → a ∈ primes) →
  best_slot_table b = None → best_score b = S (length chars) →
  match scan_primes ps chars score m b with
  | FoundHash b' =>
      ∃ l1 l2 tbl, ps = l1 ++ best_a b' :: l2 ∧
                   (∀ a', a' ∈ l1 → ¬ perfect a' m chars) ∧
                   perfect (best_a b') m chars ∧
                   best_m b' = m ∧ best_slot_table b' = Some tbl
  | NextTable b' => b' = b ∧ ∀ a', a' ∈ ps → ¬ perfect a' m chars
  end.
Proof.
  intros Hm. revert b. induction ps as [|a ps IH]; intros b Hps Hnone Hscore.
  { cbn. split; [done|]. intros a' Ha'. by apply elem_of_nil in Ha'. }
  assert (Ha : 0 <= a < 256) by (pose proof (primes_range a (Hps a ltac:(left))); lia).
  assert (Hps' : ∀ a, a ∈ ps → a ∈ primes) by (intros x Hx; apply Hps; by right).
  assert (Hle : (score <= length chars)%nat) by apply max_occurrence_spec.
  cbn [scan_primes].
  destruct (route chars a m (clear_slot_table m) score) as [[tbl d]|] eqn:Hroute.
  - pose proof (route_score_exact a m tbl d Ha Hm Hroute) as ->.
    pose proof (route_sound a m Ha Hm _ _ _ _ _ _ (routed_clear a m) Hroute) as (Hr & _ & _).
    rewrite app_nil_l in Hr.
    rewrite Hscore.
    destruct (Nat.ltb_spec score (S (length chars))) as [_|]; [|lia].
    cbn [best_score]. rewrite Nat.eqb_refl.
    exists [], ps, tbl. cbn [best_a best_m best_slot_table app]. split_and!; try done.
    + intros a' Ha'. by apply elem_of_nil in Ha'.
    + by eapply routed_perfect.
  - assert (Hnp : ¬ perfect a m chars).
    { intros Hp.
      destruct (route_complete a m Ha Hm chars [] (clear_slot_table m) score
                  (routed_clear a m) Hp) as [r Hr].
      congruence. }
    specialize (IH b Hps' Hnone Hscore).
    destruct (scan_primes ps chars score m b) as [b'|b'].
    + destruct IH as (l1 & l2 & tbl & -> & Hl1 & Hp & Hbm & Htbl).
      exists (a :: l1), l2, tbl. split_and!; try done.
      intros a' Ha'. apply elem_of_cons in Ha' as [->|Ha']; auto.
    + destruct IH as [-> Hall]. split; [done|].
      intros a' Ha'. apply elem_of_cons in Ha' as [->|Ha']; auto.
Qed.

(** The scan returns the first perfect candidate, in the order of the
    table sizes from [255 - todo] and of the primes for each size. *)
Lemma scan_tables_first (todo : nat) (b : Best) :
  (todo <= 255)%nat →
  best_slot_table b = None → best_score b = S (length chars) →
  let b' := scan_tables todo chars score b in
  ∃ l1 l2 tbl,
    best_slot_table b' = Some tbl ∧
    255 - Z.of_nat todo <= best_m b' <= 255 ∧
    primes = l1 ++ best_a b' :: l2 ∧
    (∀ a', a' ∈ l1 → ¬ perfect a' (best_m b') chars) ∧
    perfect (best_a b') (best_m b') chars ∧
    (∀ m' a', 255 - Z.of_nat todo <= m' < best_m b' → a' ∈ primes →
              ¬ perfect a' m' chars).
Proof.
  revert b. induction todo as [|todo IH]; intros b Htodo Hnone Hscore; cbn [scan_tables].
  - change (255 - Z.of_nat 0) with 255.
    pose proof (scan_primes_first primes 255 b ltac:(lia) ltac:(done) Hnone Hscore) as H.
    destruct (scan_primes primes chars score 255 b) as [b'|b'].
    + destruct H as (l1 & l2 & tbl & Hps & Hl1 & Hp & Hbm & Htbl).
      exists l1, l2, tbl. rewrite Hbm. split_and!; try done. intros m' a' ?. lia.
    + destruct H as [_ Hall]. exfalso. apply (Hall 2); [left|].
      intros c1 c2 _ _. apply slot_index_natural_inj.
  - set (m := 255 - Z.of_nat (S todo)).
    pose proof (scan_primes_first primes m b ltac:(lia) ltac:(done) Hnone Hscore) as H.
    destruct (scan_primes primes chars score m b) as [b'|b'].
    + destruct H as (l1 & l2 & tbl & Hps & Hl1 & Hp & Hbm & Htbl).
      exists l1, l2, tbl. rewrite Hbm. split_and!; try done; try lia.
    + destruct H as [-> Hall].
      destruct (IH b ltac:(lia) Hnone Hscore) as (l1 & l2 & tbl & Htbl & Hbm & Hps & Hl1 & Hp & Hbefore).
      exists l1, l2, tbl. split_and!; try done; try lia.
      intros m' a' Hm' Ha'.
      destruct (Z.eq_dec m' m) as [->|]; [by apply Hall|].
      apply Hbefore; [lia | done].
Qed.
End first_candidate.

(** The first table size that is tried is the number of unique characters
    itself: the smallest table tried has one slot more than there are
    unique characters (and for 256 unique characters the counter wraps
    and the scan starts at one slot). *)
Lemma first_num_slots_mod (min_unique_chars : nat) :
  first_num_slots min_unique_chars = Z.of_nat min_unique_chars mod 256.
Proof.
  unfold first_num_slots, uint8.
  rewrite Zplus_mod_idemp_l. f_equal. lia.
Qed.

(** X21: what [find_best_hash] returns for a byte array and the results
    of the column analyzer on it: the first candidate that is perfect on
    the array, where the table sizes are tried upward from
    [first_num_slots] and, for each, the primes in the order of the list. *)
Theorem find_best_hash_first_perfect (characters : list byte) :
  let unique_chars := (calculate_character_distribution characters).1 in
  let max_occurrence := (calculate_character_distribution characters).2 in
  ∃ node l1 l2,
    find_best_hash characters max_occurrence unique_chars = Some node ∧
    first_num_slots unique_chars <= num_slots node <= 255 ∧
    perfect (prime node) (num_slots node) characters ∧
    primes = l1 ++ prime node :: l2 ∧
    (∀ a', a' ∈ l1 → ¬ perfect a' (num_slots node) characters) ∧
    (∀ m' a', first_num_slots unique_chars <= m' < num_slots node → a' ∈ primes →
              ¬ perfect a' m' characters).
Proof.
  intros u mx. unfold find_best_hash.
  set (m0 := first_num_slots u).
  assert (Hm0 : 0 <= m0 < 256) by (apply Z.mod_pos_bound; lia).
  destruct (scan_tables_first characters (Z.to_nat (255 - m0))
              (mkBest (S (length characters)) 0 0 None) ltac:(lia) eq_refl eq_refl)
    as (l1 & l2 & tbl & Htbl & Hbm & Hps & Hl1 & Hp & Hbefore).
  fold mx in Htbl, Hbm, Hps, Hl1, Hp, Hbefore.
  set (b := scan_tables _ _ _ _) in *.
  rewrite Htbl. rewrite Z2Nat.id in Hbm, Hbefore by lia.
  eexists _, l1, l2. split; [done|]. cbn [prime num_slots].
  split_and!; try done; try lia.
  intros m' a' Hm'. apply Hbefore. lia.
Qed.

(** ** The depth of the tree *)

Lemma on_branch_branch (f : HashNode → nat) (s : HashSlot) :
  on_branch f s = match branch s with Some child => f child | None => 0%nat end.
Proof.
  destruct s as [ch cnt [|child|bin] pl]; cbn [on_branch branch]; try done.
  by destruct (1 <? cnt)%nat.
Qed.

Lemma depth_Node_le (col : nat) (a m : Z) (slots : list HashSlot) (k : nat) :
  (∀ s child, s ∈ slots → branch s = Some child → (depth child <= k)%nat) →
  (depth (Node col a m slots) <= S k)%nat.
Proof.
  intros H. cbn [depth]. apply le_n_S.
  induction slots as [|s slots IH]; cbn [foldr]; [lia|].
  apply Nat.max_lub.
  - rewrite on_branch_branch. destruct (branch s) as [child|] eqn:E; [|lia].
    apply (H s); [left | done].
  - apply IH. intros s' child Hs'. apply H. by right.
Qed.

Lemma depth_child (col : nat) (a m : Z) (slots : list HashSlot) (s : HashSlot) (child : HashNode) :
  s ∈ slots → branch s = Some child → (depth child < depth (Node col a m slots))%nat.
Proof.
  intros Hs Hb. cbn [depth]. apply Nat.lt_succ_r.
  induction slots as [|s0 slots IH]; [by apply elem_of_nil in Hs|].
  cbn [foldr]. apply elem_of_cons in Hs as [->|Hs].
  - rewrite on_branch_branch, Hb. lia.
  - etrans; [by apply IH|]. lia.
Qed.

(** ** create_character_hash and lookup_character *)

Section character_hash.
Variable chars : list byte.
Variables a m : Z.
Hypothesis hash_perfect : perfect a m chars.

Lemma set_payload_leaf (slots : list HashSlot) (e : byte * Z) :
  leaves_only chars a m slots → e.1 ∈ chars →
  set_payload a m slots e = <[slot_index e.1 a m := Slot e.1 1 NullPtr e.2]> slots.
Proof.
  intros [Hleaf _] He. unfold set_payload.
  destruct (Hleaf _ He) as [p ->]. cbn.
  by rewrite (proj2 (byte_eqb_eq _ _) eq_refl).
Qed.

Lemma set_payload_leaves_only (slots : list HashSlot) (e : byte * Z) :
  leaves_only chars a m slots → e.1 ∈ chars → leaves_only chars a m (set_payload a m slots e).
Proof.
  intros Hinv He. rewrite set_payload_leaf by done.
  destruct Hinv as [Hleaf Hnull].
  destruct (Hleaf _ He) as [p0 Hp0].
  pose proof (lookup_lt_Some _ _ _ Hp0) as Hlt.
  split.
  - intros c Hc. destruct (decide (slot_index c a m = slot_index e.1 a m)) as [E|N].
    + rewrite E, list_lookup_insert_eq by done.
      rewrite (hash_perfect c e.1 Hc He E). by eexists.
    + rewrite list_lookup_insert_ne by done. by apply Hleaf.
  - intros i s Hs. destruct (decide (i = slot_index e.1 a m)) as [->|N].
    + rewrite list_lookup_insert_eq in Hs by done. injection Hs as <-. cbn. auto.
    + rewrite list_lookup_insert_ne in Hs by done. by eapply Hnull.
Qed.

(** After the payload loop the slot of a character carries the payload
    of its last occurrence. *)
Lemma set_payload_fold (slots0 : list HashSlot) (input : list (byte * Z)) :
  leaves_only chars a m slots0 → (∀ e, e ∈ input → e.1 ∈ chars) →
  leaves_only chars a m (fold_left (set_payload a m) input slots0) ∧
  ∀ i b p, input !! i = Some (b, p) →
           (∀ j q, (i < j)%nat → input !! j ≠ Some (b, q)) →
           fold_left (set_payload a m) input slots0 !! slot_index b a m
             = Some (Slot b 1 NullPtr p).
Proof.
  intros H0. induction input as [|e input IH] using rev_ind; intros Hin.
  { split; [done|]. intros i b p Hi. done. }
  assert (He : e.1 ∈ chars) by (apply Hin, elem_of_app; right; left).
  destruct IH as [Hinv Hlast].
  { intros x Hx. apply Hin, elem_of_app. by left. }
  rewrite fold_left_app. cbn [fold_left].
  split; [by apply set_payload_leaves_only|].
  intros i b p Hi Hlater. rewrite set_payload_leaf by done.
  destruct Hinv as [Hleaf _]. destruct (Hleaf _ He) as [p0 Hp0].
  pose proof (lookup_lt_Some _ _ _ Hp0) as Hlt.
  destruct (decide (i = length input)) as [->|Ni].
  - rewrite lookup_app_r, Nat.sub_diag in Hi by lia. injection Hi as ->.
    by rewrite list_lookup_insert_eq.
  - assert (Hi' : (i < length input)%nat).
    { apply lookup_lt_Some in Hi. rewrite length_app in Hi. simpl in Hi. lia. }
    rewrite lookup_app_l in Hi by done.
    assert (Hne : e.1 ≠ b).
    { intros E. apply (Hlater (length input) e.2); [done|].
      rewrite lookup_app_r, Nat.sub_diag by lia. destruct e; simpl in *. by subst. }
    assert (Hb : b ∈ chars).
    { apply (Hin (b, p)), elem_of_app. left. by eapply list_elem_of_lookup_2. }
    rewrite list_lookup_insert_ne.
    + apply (Hlast i b p Hi). intros j q Hj Hq.
      apply (Hlater j q Hj). rewrite lookup_app_l; [done|]. by eapply lookup_lt_Some.
    + intros E. apply Hne. symmetry. by apply hash_perfect.
Qed.
End character_hash.

Lemma clear_count_selected (chars : list byte) (node : HashNode) :
  selected chars node →
  leaves_only chars (prime node) (num_slots node) (clear_count <$> slot node).
Proof.
  intros (_ & _ & _ & _ & Hocc & Hall). split.
  - intros c Hc. exists zero_payload. rewrite list_lookup_fmap, (Hocc c Hc). cbn.
    apply occurrences_pos in Hc. unfold clear_count. cbn.
    destruct (occurrences c chars) as [|[|k]]; [lia | done | done].
  - intros i s Hs. rewrite list_lookup_fmap in Hs.
    destruct (slot node !! i) as [s0|] eqn:E; [|done]. injection Hs as <-.
    unfold clear_count.
    destruct (Hall _ _ E) as [->|(_ & _ & ->)]; cbn.
    + split; [done|lia].
    + destruct (occurrences (character s0) chars) as [|[|k]]; cbn; split; done || lia.
Qed.

(** C9: for every byte array with parallel payloads,
    [create_character_hash] builds a node (duplicate byte values are no
    error) none of whose slots has a child: every slot is empty or a leaf,
    so the tree is this one node; and [lookup_character b] finds, for
    every byte value [b] of the input, the payload of the last occurrence
    of [b]. *)
Theorem create_character_hash_last_payload (input : list (byte * Z)) :
  ∃ node,
    create_character_hash input = Some node ∧
    (∀ s, s ∈ slot node → next_node s = NullPtr ∧ (count s <= 1)%nat) ∧
    depth node = 1%nat ∧
    ∀ i b p, input !! i = Some (b, p) →
             (∀ j q, (i < j)%nat → input !! j ≠ Some (b, q)) →
             lookup_character b node = Some p.
Proof.
  unfold create_character_hash.
  destruct (find_best_hash_distribution input.*1) as (node & Hfind & _ & Hsel).
  destruct (calculate_character_distribution input.*1) as [u mx]. cbn in Hfind.
  rewrite Hfind.
  pose proof Hsel as (_ & _ & _ & Hp & _).
  destruct (set_payload_fold input.*1 (prime node) (num_slots node) Hp
              (clear_count <$> slot node) input) as [[_ Hnull] Hlast].
  { by apply clear_count_selected. }
  { intros e He. by apply list_elem_of_fmap_2. }
  assert (Hleaf : ∀ s, s ∈ fold_left (set_payload (prime node) (num_slots node)) input
                              (clear_count <$> slot node) →
                       next_node s = NullPtr ∧ (count s <= 1)%nat).
  { intros s Hs. apply list_elem_of_lookup in Hs as [i Hs]. by eapply Hnull. }
  eexists. split; [done|]. split; [exact Hleaf|]. split.
  - apply Nat.le_antisymm; [|cbn [depth]; lia].
    apply depth_Node_le. intros s child Hs Hb.
    destruct (Hleaf s Hs) as [Hnext _]. destruct s as [ch cnt next pl].
    cbn in Hnext. subst next. done.
  - intros i b p Hi Hlater. unfold lookup_character. cbn [slot prime num_slots].
    rewrite (list_lookup_total_correct _ _ _ (Hlast i b p Hi Hlater)). cbn.
    by rewrite (proj2 (byte_eqb_eq _ _) eq_refl).
Qed.



(** ** create_binary_hash: the column survey *)

Lemma length_column_image (values : list (list byte * Z)) (c : nat) :
  length (column_image values c) = length values.
Proof. apply length_fmap. Qed.

Lemma survey_column_surveyed (values : list (list byte * Z)) (c : nat) (b : BestColumn) :
  surveyed values b ∨ best_num_slots b = S (length values) →
  surveyed values (survey_column values c b).
Proof.
  intros Hb. unfold survey_column. fold (column_image values c).
  pose proof (max_occurrence_spec (column_image values c)) as (_ & Hle & _).
  rewrite length_column_image in Hle.
  destruct (calculate_character_distribution (column_image values c)) as [u k] eqn:E.
  cbn in Hle.
  destruct (Nat.ltb_spec k (best_num_slots b)) as [Hlt|Hge].
  - unfold surveyed. cbn. by rewrite E.
  - destruct Hb as [Hb|Hb]; [done|lia].
Qed.

Lemma survey_surveyed (values : list (list byte * Z)) (todo : nat) :
  ∀ c b, surveyed values b ∨ best_num_slots b = S (length values) →
         surveyed values (survey todo c values b).
Proof.
  induction todo as [|todo IH]; intros c b Hb; cbn [survey];
    pose proof (survey_column_surveyed values c b Hb) as Hs;
    destruct (last_column values c); auto.
Qed.

Lemma column_survey_surveyed (values : list (list byte * Z)) :
  surveyed values (column_survey values).
Proof. apply survey_surveyed. by right. Qed.

(** The flag [last_column] is set at the length of the longest key, so
    the bound of [survey] is never used up. *)
Lemma last_column_max_length (values : list (list byte * Z)) (c : nat) :
  last_column values c = true ↔ (max_length values <= c)%nat.
Proof.
  unfold last_column. induction values as [|e values IH].
  - cbn. split; [lia|done].
  - cbn [forallb max_length foldr]. fold (max_length values).
    rewrite andb_true_iff, IH.
    destruct (Nat.ltb_spec c (length e.1)); cbn [negb]; split.
    + intros [? _]. done.
    + lia.
    + lia.
    + intros ?. split; [done|lia].
Qed.

Lemma survey_flag (values : list (list byte * Z)) (todo : nat) :
  ∀ c b, (max_length values <= c + todo)%nat →
         ∀ extra, survey (todo + extra) c values b = survey todo c values b.
Proof.
  induction todo as [|todo IH]; intros c b Hc extra; cbn [survey].
  - assert (H : last_column values c = true) by (apply last_column_max_length; lia).
    destruct extra; cbn [survey Nat.add]; by rewrite H.
  - cbn [Nat.add survey]. destruct (last_column values c); [done|].
    apply IH. lia.
Qed.

(** ** create_binary_hash: the slot loop *)

Section populate_facts.
Variable create : list (list byte * Z) → Heap → Build * Heap.
Variable values : list (list byte * Z).
Variables (col : nat) (a m : Z).

(** The finished node keeps the slots in their order, each one
    populated from the slot that [find_best_hash] left. *)
Lemma populate_slots_Built (todo : list HashSlot) :
  ∀ filled h root h',
    populate_slots create values col a m filled todo h = (Built root, h') →
    ∃ new, root = Node col a m (filled ++ new) ∧
           Forall2 (populated create values col) todo new.
Proof.
  induction todo as [|s todo IH]; intros filled h root h' H; cbn [populate_slots] in H.
  - injection H as <- <-. exists []. by rewrite app_nil_r.
  - destruct (Nat.eqb_spec (count s) 0) as [Z0|NZ].
    { apply IH in H as (new & -> & Hnew). eexists (_ :: new).
      rewrite <- app_assoc. split; [done|]. constructor; [|done]. by left. }
    destruct (Nat.eqb_spec (count s) 1) as [Z1|NZ1].
    { destruct (find_binary values col (character s)) as [e|] eqn:Hfind; [|done].
      apply IH in H as (new & -> & Hnew). eexists (_ :: new).
      rewrite <- app_assoc. split; [done|]. constructor; [|done].
      right; left. split; [done|]. by exists e. }
    destruct (gather values col (character s)) as [group|] eqn:Hgather; [|done].
    destruct (create group (malloc_buffer (malloc_buffer h))) as [r h1] eqn:Hcreate.
    destruct r; try done.
    apply IH in H as (new & -> & Hnew). eexists (_ :: new).
    rewrite <- app_assoc. split; [done|]. constructor; [|done].
    right; right. split; [lia|]. by eexists _, _, _, _.
Qed.

End populate_facts.

(** ** create_binary_hash: one call *)

(** A call that builds a node has surveyed a column [col], has found the
    keys to differ there when there are several, and has populated the
    slots of the node that [find_best_hash] selected for the column. *)
Lemma create_binary_hash_rec_Built (fuel : nat) (values : list (list byte * Z))
    (h h' : Heap) (root : HashNode) :
  create_binary_hash_rec fuel values h = (Built root, h') →
  ∃ fuel' col node0 new,
    fuel = S fuel' ∧ values ≠ [] ∧
    ((1 < length values)%nat →
       (calculate_character_distribution (column_image values col)).1 ≠ 1%nat) ∧
    selected (column_image values col) node0 ∧
    root = Node col (prime node0) (num_slots node0) new ∧
    Forall2 (populated (create_binary_hash_rec fuel') values col) (slot node0) new.
Proof.
  intros H. destruct fuel as [|fuel']; cbn [create_binary_hash_rec] in H.
  { destruct (length values <? 1)%nat; done. }
  destruct (Nat.ltb_spec (length values) 1) as [Hlt|Hge]; [done|].
  pose proof (column_survey_surveyed values) as (Hchars & Hu & Hk).
  set (b := column_survey values) in *.
  destruct (find_best_hash_distribution (best_column_chars b)) as (node & Hfind & _ & Hsel).
  rewrite <- Hu, <- Hk in Hfind.
  destruct ((best_unique_chars b =? 1)%nat && (1 <? length values)%nat) eqn:Hdup; [done|].
  rewrite Hfind in H.
  destruct (populate_slots _ _ _ _ _ _ _ _) as [r h1] eqn:Hpop in H.
  destruct r; try done. injection H as <- <-.
  apply populate_slots_Built in Hpop as (new & -> & Hnew).
  exists fuel', (best_column b), node, new.
  split; [done|]. split; [destruct values; [cbn in Hge; lia | done]|].
  rewrite <- Hchars. split; [|done].
  intros Hn E. rewrite <- Hu in E.
  apply andb_false_iff in Hdup as [Hdup|Hdup].
  - apply Nat.eqb_neq in Hdup. done.
  - apply Nat.ltb_ge in Hdup. lia.
Qed.

(** ** The gathering loop *)

Lemma gather_Some (values : list (list byte * Z)) (col : nat) (ch : byte) (group : list (list byte * Z)) :
  gather values col ch = Some group →
  group = filter (λ e : list byte * Z, column_byte e.1 col = ch) values ∧
  ∀ e, e ∈ values → (col < length e.1)%nat.
Proof.
  revert group. induction values as [|e values IH]; intros group H; cbn [gather] in H.
  - injection H as <-. split; [done|]. intros e He. by apply elem_of_nil in He.
  - destruct (e.1 !! col) as [b|] eqn:Hb; [|done].
    destruct (gather values col ch) as [g|]; [|done].
    destruct (IH g eq_refl) as [-> Hlen]. injection H as <-.
    assert (Hcb : column_byte e.1 col = b) by (unfold column_byte; by rewrite Hb).
    split.
    + destruct (Byte.eqb b ch) eqn:E.
      * apply byte_eqb_eq in E. rewrite filter_cons_True; [done | congruence].
      * apply byte_eqb_neq in E. rewrite filter_cons_False; [done | congruence].
    + intros e' He'. apply elem_of_cons in He' as [->|He']; [|by apply Hlen].
      by eapply lookup_lt_Some.
Qed.

Lemma occurrences_column_image (values : list (list byte * Z)) (col : nat) (ch : byte) :
  occurrences ch (column_image values col)
    = length (filter (λ e : list byte * Z, column_byte e.1 col = ch) values).
Proof.
  unfold occurrences, column_image. induction values as [|e values IH]; [done|].
  cbn [fmap list_fmap]. destruct (decide (column_byte e.1 col = ch)).
  - rewrite !filter_cons_True by done. cbn. by rewrite <- IH.
  - by rewrite !filter_cons_False.
Qed.

(** ** Columns at which the keys disagree *)

Lemma max_length_bound (values : list (list byte * Z)) (bound : nat) :
  (max_length values <= bound)%nat ↔ ∀ e, e ∈ values → (length e.1 <= bound)%nat.
Proof.
  induction values as [|e values IH]; cbn [max_length foldr].
  - split; [|lia]. intros _ e He. by apply elem_of_nil in He.
  - fold (max_length values). rewrite Nat.max_lub_iff, IH. split.
    + intros [He Hall] e' He'. apply elem_of_cons in He' as [->|He']; auto.
    + intros Hall. split; [apply Hall; left|]. intros e' He'. apply Hall. by right.
Qed.

Lemma splits_elem (values : list (list byte * Z)) (c : nat) :
  splits values c ↔
  ∃ e1 e2, e1 ∈ values ∧ e2 ∈ values ∧ column_byte e1.1 c ≠ column_byte e2.1 c.
Proof.
  unfold splits. rewrite Exists_exists. split.
  - intros (e1 & H1 & H). apply Exists_exists in H as (e2 & H2 & H). eauto.
  - intros (e1 & e2 & H1 & H2 & H). exists e1. split; [done|].
    apply Exists_exists. eauto.
Qed.

(** Past the longest key every column reads the padding byte. *)
Lemma splits_max_length (values : list (list byte * Z)) (c : nat) :
  splits values c → (c < max_length values)%nat.
Proof.
  intros H. apply splits_elem in H as (e1 & e2 & H1 & H2 & Hne).
  destruct (Nat.lt_ge_cases c (max_length values)) as [|Hge]; [done|].
  exfalso. apply Hne.
  pose proof (proj1 (max_length_bound values c) Hge) as Hall.
  unfold column_byte.
  rewrite !lookup_ge_None_2; [done | by apply Hall | by apply Hall].
Qed.

(** Several keys that agree at a column give it one unique character. *)
Lemma unique_chars_splits (values : list (list byte * Z)) (c : nat) :
  values ≠ [] →
  (calculate_character_distribution (column_image values c)).1 ≠ 1%nat →
  splits values c.
Proof.
  intros Hne Hu. destruct (decide (splits values c)) as [|Hn]; [done|].
  exfalso. apply Hu. destruct values as [|e0 values]; [done|].
  apply (unique_chars_agree _ (column_byte e0.1 c)); [done|].
  intros x Hx. apply list_elem_of_fmap in Hx as (e & -> & He).
  destruct (decide (column_byte e.1 c = column_byte e0.1 c)) as [|N]; [done|].
  exfalso. apply Hn, splits_elem. exists e, e0. split; [done|]. split; [left | done].
Qed.

Lemma disagreements_lt (bound : nat) (group values : list (list byte * Z)) (c : nat) :
  (∀ e, e ∈ group → e ∈ values) →
  ¬ splits group c → splits values c → (c < bound)%nat →
  (disagreements bound group < disagreements bound values)%nat.
Proof.
  intros Hsub Hg Hv Hc. unfold disagreements.
  rewrite <- (list_filter_filter_l (splits group) (splits values)).
  - apply (length_filter_lt _ _ c); [|done].
    apply list_elem_of_filter. split; [done|]. apply elem_of_seq. lia.
  - intros x Hx. apply splits_elem in Hx as (e1 & e2 & H1 & H2 & Hne).
    apply splits_elem. exists e1, e2. auto.
Qed.

Lemma disagreements_le (bound : nat) (values : list (list byte * Z)) :
  (disagreements bound values <= bound)%nat.
Proof.
  unfold disagreements. etrans; [apply length_filter|]. by rewrite length_seq.
Qed.

(** The slots that [find_best_hash] counts twice or more need two keys. *)
Lemma selected_count (chars : list byte) (node : HashNode) (s : HashSlot) :
  selected chars node → s ∈ slot node → (0 < count s)%nat →
  character s ∈ chars ∧ count s = occurrences (character s) chars.
Proof.
  intros (_ & _ & _ & _ & _ & Hall) Hs Hpos.
  apply list_elem_of_lookup in Hs as [i Hs].
  destruct (Hall _ _ Hs) as [->|(Hin & _ & E)]; [cbn in Hpos; lia|].
  split; [done|]. rewrite E at 1. done.
Qed.

(** A tree for one key is one node; a tree for several keys is no deeper
    than the number of columns at which they disagree. *)
Lemma depth_disagreements (fuel : nat) :
  ∀ values h root h' bound,
    create_binary_hash_rec fuel values h = (Built root, h') →
    (max_length values <= bound)%nat →
    ((length values <= 1)%nat → (depth root <= 1)%nat) ∧
    ((1 < length values)%nat → (depth root <= disagreements bound values)%nat).
Proof.
  induction fuel as [|fuel IH]; intros values h root h' bound H Hbound;
    apply create_binary_hash_rec_Built in H
      as (fuel' & col & node0 & new & Hfuel & Hne & Hu & Hsel & -> & Hnew);
    [done|].
  injection Hfuel as <-.
  (* every branch slot of the node comes from a group of two or more keys *)
  assert (Hbranch : ∀ s' child, s' ∈ new → branch s' = Some child →
            (1 < length values)%nat ∧
            (depth child < disagreements bound values)%nat).
  { intros s' child Hs' Hb.
    apply list_elem_of_lookup in Hs' as [i Hs'].
    destruct (Forall2_lookup_r _ _ _ _ _ Hnew Hs') as (s & Hs & Hpop).
    destruct Hpop as [[_ ->]|[(_ & e & _ & ->)|(Hcnt & group & c & h1 & h2 & Hg & Hc & ->)]];
      [done | done |].
    unfold branch in Hb. destruct (1 <? count s)%nat; [|done]. injection Hb as ->.
    destruct (selected_count _ _ s Hsel) as [Hin Hocc];
      [by eapply list_elem_of_lookup_2 | lia |].
    apply gather_Some in Hg as [Hgroup Hlen].
    rewrite occurrences_column_image, <- Hgroup in Hocc.
    assert (Hsub : ∀ e, e ∈ group → e ∈ values).
    { intros e He. rewrite Hgroup in He. by apply list_elem_of_filter in He as [_ ?]. }
    assert (Hn : (1 < length values)%nat).
    { pose proof (length_filter (λ e : list byte * Z, column_byte e.1 col = character s) values).
      rewrite <- Hgroup in *. lia. }
    split; [done|].
    assert (Hsplit : splits values col) by (apply unique_chars_splits; auto).
    destruct (IH group h1 child h2 bound Hc) as [_ Hdeep].
    { apply max_length_bound. intros e He.
      apply (proj1 (max_length_bound values bound) Hbound). auto. }
    eapply Nat.le_lt_trans; [apply Hdeep; lia|].
    apply (disagreements_lt bound group values col); [done | | done |].
    - intros Hs2. apply splits_elem in Hs2 as (e1 & e2 & H1 & H2 & Hd). apply Hd.
      rewrite Hgroup in H1, H2.
      apply list_elem_of_filter in H1 as [-> _]. by apply list_elem_of_filter in H2 as [-> _].
    - pose proof (splits_max_length values col Hsplit). lia. }
  split.
  - intros Hn. apply depth_Node_le. intros s' child Hs' Hb.
    destruct (Hbranch s' child Hs' Hb). lia.
  - intros Hn.
    assert (Hsplit : splits values col) by (apply unique_chars_splits; auto).
    pose proof (splits_max_length values col Hsplit) as Hcol.
    assert (Hpos : (0 < disagreements bound values)%nat).
    { unfold disagreements.
      assert (Hin : col ∈ filter (splits values) (seq 0 bound)).
      { apply list_elem_of_filter. split; [done|]. apply elem_of_seq. lia. }
      destruct (filter (splits values) (seq 0 bound)); [by apply elem_of_nil in Hin|].
      cbn. lia. }
    replace (disagreements bound values) with (S (disagreements bound values - 1)) by lia.
    apply depth_Node_le. intros s' child Hs' Hb.
    destruct (Hbranch s' child Hs' Hb). lia.
Qed.

(** The depth of a tree for keys in buffers of exactly their length is at
    most the length of the longest key plus one. *)
Lemma depth_exact_size (values : list (list byte * Z)) (root : HashNode) :
  create_binary_hash values = Built root →
  (depth root <= max_length values + 1)%nat.
Proof.
  unfold create_binary_hash, create_binary_hash_heap. intros H.
  destruct (create_binary_hash_rec (length values) values empty_heap) as [r h'] eqn:E.
  cbn in H. subst r.
  destruct (depth_disagreements _ _ _ _ _ (max_length values) E (Nat.le_refl _)) as [H1 H2].
  pose proof (disagreements_le (max_length values) values).
  destruct (Nat.le_gt_cases (length values) 1); [specialize (H1 ltac:(done)) | specialize (H2 ltac:(done))]; lia.
Qed.

(** ** create_binary_hash: the recursion ends *)

(** A group gathered for a slot is smaller than the key set once the keys
    disagree at the column. *)
Lemma group_smaller (values : list (list byte * Z)) (col : nat) (ch : byte) :
  splits values col →
  (length (filter (λ e : list byte * Z, column_byte e.1 col = ch) values) < length values)%nat.
Proof.
  intros H. apply splits_elem in H as (e1 & e2 & H1 & H2 & Hne).
  destruct (decide (column_byte e1.1 col = ch)) as [E|N].
  - apply (length_filter_lt _ _ e2); [done|]. congruence.
  - by apply (length_filter_lt _ _ e1).
Qed.



(** ** The two ways to NULL *)

(** Two byte-identical keys alone are reported at once. *)
Lemma create_binary_hash_twice (k : list byte) (p q : Z) :
  create_binary_hash [(k, p); (k, q)] = Null.
Proof.
  unfold create_binary_hash, create_binary_hash_heap. cbn [length create_binary_hash_rec].
  pose proof (column_survey_surveyed [(k, p); (k, q)]) as (Hchars & Hu & _).
  set (b := column_survey _) in *.
  assert (E : best_unique_chars b = 1%nat).
  { rewrite Hu, Hchars. apply (unique_chars_agree _ (column_byte k (best_column b))); [done|].
    intros x Hx. cbn in Hx.
    apply elem_of_cons in Hx as [->|Hx]; [done|].
    by apply list_elem_of_singleton in Hx as ->. }
  rewrite E. done.
Qed.

(** C10: with no key at all ([num_values = 0]) [create_binary_hash]
    returns NULL, and NULL is also what it returns for byte-identical keys:
    the result does not tell an empty input from a duplicate. *)
Theorem create_binary_hash_empty_Null :
  create_binary_hash [] = Null ∧
  ∀ (k : list byte) (p q : Z), create_binary_hash [(k, p); (k, q)] = create_binary_hash [].
Proof.
  split; [done|]. intros k p q. by rewrite create_binary_hash_twice.
Qed.

(** ** hash_efficiency *)

Lemma triple_eq (a a' b b' c c' : nat) :
  a = a' → b = b' → c = c' → (a, b, c) = (a', b', c').
Proof. by intros -> -> ->. Qed.

Lemma efficiency_fold (slots : list HashSlot) :
  (∀ s child, s ∈ slots → branch s = Some child →
     hash_efficiency child = (total_slots child, vacant_slots child, depth child)) →
  ∀ ts te mx,
    fold_left (efficiency_slot hash_efficiency) slots (ts, te, mx)
    = ((ts + (length slots + foldr (λ s k, on_branch total_slots s + k) 0 slots))%nat,
       (te + (length (filter (λ s, count s = 0%nat) slots)
              + foldr (λ s k, on_branch vacant_slots s + k) 0 slots))%nat,
       Nat.max mx (foldr (λ s d, Nat.max (on_branch depth s) d) 0%nat slots)).
Proof.
  induction slots as [|s slots IH]; intros Hchild ts te mx.
  - cbn. apply triple_eq; lia.
  - cbn [fold_left foldr length].
    assert (Hrest : ∀ s' child, s' ∈ slots → branch s' = Some child →
              hash_efficiency child = (total_slots child, vacant_slots child, depth child)).
    { intros s' child Hs'. apply Hchild. by right. }
    specialize (IH Hrest).
    pose proof (Hchild s) as Hs. specialize (fun child => Hs child ltac:(left)).
    destruct s as [ch cnt next pl]. cbn [efficiency_slot].
    destruct (Nat.eqb_spec cnt 0) as [->|NZ].
    { rewrite IH, filter_cons_True by done. cbn [length].
      assert (E : ∀ f, on_branch f (Slot ch 0 next pl) = 0%nat) by (intros f; by destruct next).
      rewrite !E. apply triple_eq; lia. }
    rewrite filter_cons_False by (cbn; lia).
    destruct (Nat.eqb_spec cnt 1) as [->|NZ1].
    { rewrite IH.
      assert (E : ∀ f, on_branch f (Slot ch 1 next pl) = 0%nat) by (intros f; by destruct next).
      rewrite !E. apply triple_eq; lia. }
    assert (Hcnt : (1 <? cnt)%nat = true) by (apply Nat.ltb_lt; lia).
    destruct next as [|child|bin]; cbn [on_branch].
    + rewrite IH. apply triple_eq; lia.
    + rewrite Hcnt. rewrite (Hs child) by (cbn [branch]; by rewrite Hcnt).
      destruct (Nat.ltb_spec mx (depth child)); rewrite IH; apply triple_eq; lia.
    + rewrite IH. apply triple_eq; lia.
Qed.

(** What [hash_efficiency] computes: the number of all the slots of the
    tree, the number of its empty slots, and its depth. *)
Lemma hash_efficiency_spec (node : HashNode) :
  hash_efficiency node = (total_slots node, vacant_slots node, depth node).
Proof.
  pose proof (Nat.le_refl (depth node)) as Hle.
  revert Hle. generalize (depth node) at 2. intros n.
  revert node. induction n as [|n IH]; intros [col a m slots] Hle.
  { cbn in Hle. lia. }
  cbn [hash_efficiency total_slots vacant_slots depth].
  rewrite efficiency_fold.
  - apply triple_eq; lia.
  - intros s child Hs Hb. apply IH.
    pose proof (depth_child col a m slots s child Hs Hb). lia.
Qed.

Lemma total_slots_split (node : HashNode) :
  total_slots node = (occupied_slots node + vacant_slots node)%nat.
Proof.
  pose proof (Nat.le_refl (depth node)) as Hle.
  revert Hle. generalize (depth node) at 2. intros n.
  revert node. induction n as [|n IH]; intros [col a m slots] Hle.
  { cbn in Hle. lia. }
  cbn [total_slots occupied_slots vacant_slots].
  assert (Hchild : ∀ s child, s ∈ slots → branch s = Some child →
            total_slots child = (occupied_slots child + vacant_slots child)%nat).
  { intros s child Hs Hb. apply IH.
    pose proof (depth_child col a m slots s child Hs Hb). lia. }
  clear IH Hle. induction slots as [|s slots IHs]; [done|].
  cbn [length foldr].
  assert (Hs : on_branch total_slots s
               = (on_branch occupied_slots s + on_branch vacant_slots s)%nat).
  { rewrite !on_branch_branch. destruct (branch s) as [child|] eqn:E; [|done].
    apply (Hchild s); [left | done]. }
  specialize (IHs ltac:(intros s' child Hs'; apply Hchild; by right)).
  destruct (decide (count s = 0%nat)) as [Z0|NZ].
  - rewrite (filter_cons_True (λ s, count s = 0%nat)) by done.
    rewrite (filter_cons_False (λ s, (0 < count s)%nat)) by lia. cbn [length]. lia.
  - rewrite (filter_cons_False (λ s, count s = 0%nat)) by done.
    rewrite (filter_cons_True (λ s, (0 < count s)%nat)) by lia. cbn [length]. lia.
Qed.

(** The three numbers of [hash_table_efficiency]: [slots_used] counts the
    empty slots too. *)
Lemma hash_table_efficiency_spec (node : HashNode) :
  hash_table_efficiency node
  = ((occupied_slots node + vacant_slots node)%nat,
     ((occupied_slots node + vacant_slots node) * 100
      / (occupied_slots node + vacant_slots node + vacant_slots node))%nat,
     depth node).
Proof.
  unfold hash_table_efficiency. by rewrite hash_efficiency_spec, total_slots_split.
Qed.

(** C8, at the tree of the single empty key: the tree has one occupied
    slot (a leaf) and one empty slot, and [hash_efficiency] reports
    [slots_used = 2]; the efficiency printed is 66 and not 50. *)
Theorem hash_efficiency_counts_empty_slots :
  let root := Node 0 2 1 [Slot "000" 1 (BinaryPtr []) 42; Slot "000" 0 NullPtr 0] in
  create_binary_hash [([], 42)] = Built root ∧
  occupied_slots root = 1%nat ∧ vacant_slots root = 1%nat ∧ depth root = 1%nat ∧
  hash_efficiency root = (2, 1, 1)%nat ∧
  hash_table_efficiency root = (2, 66, 1)%nat.
Proof. vm_compute. repeat split. Qed.

(** ** The builders at particular inputs *)

(** C1, at the keys [""] and ["\000"]: the keys differ (in length), every
    surveyed column reads the same byte 0 for both, and
    [create_binary_hash] returns NULL. *)
Theorem create_binary_hash_padding_collision :
  ([] : list byte) ≠ ["000"%byte] ∧
  create_binary_hash [([], 1); (["000"%byte], 2)] = Null ∧
  create_binary_hash [(["A"%byte], 1); (["A"%byte; "000"%byte], 2)] = Null.
Proof. split; [done|]. vm_compute. done. Qed.

(** C2, at the keys "aa", "ab", "ca", "ca": the slot of 'a' is populated
    with a child node and its two leaf copies, then the slot of 'c'
    reports the duplicate; the call returns NULL and leaves that child
    node and its two leaf copies allocated (and three scratch buffers). *)
Theorem create_binary_hash_duplicate_leak :
  create_binary_hash_heap
    [(["a"; "a"]%byte, 1); (["a"; "b"]%byte, 2); (["c"; "a"]%byte, 3); (["c"; "a"]%byte, 4)]
    empty_heap
  = (Null, mkHeap 1 2 3).
Proof. vm_compute. done. Qed.

(** C3, at the one-byte array "A": one slot would do ([num_slots = 0] is
    perfect for every multiplier), the scan starts at [num_slots = 1], and
    the node has two slots. *)
Theorem find_best_hash_skips_smallest_table :
  calculate_character_distribution ["A"%byte] = (1, 1)%nat ∧
  perfect 2 0 ["A"%byte] ∧
  first_num_slots 1 = 1 ∧
  find_best_hash ["A"%byte] 1 1
  = Some (Node 0 2 1 [Slot "A" 1 NullPtr 0; Slot "000" 0 NullPtr 0]).
Proof.
  split; [by vm_compute|]. split; [|split; by vm_compute].
  intros c1 c2 H1 H2 _.
  apply list_elem_of_singleton in H1 as ->. by apply list_elem_of_singleton in H2 as ->.
Qed.

(** C4, at the keys "xaa", "xab", "xb", "": the survey picks column 1,
    the slot of 'a' there has count 2, and the gathering loop reads
    [binary[1]] of the empty key. *)
Theorem gather_reads_past_key :
  let values := [(["x"; "a"; "a"]%byte, 1); (["x"; "a"; "b"]%byte, 2);
                 (["x"; "b"]%byte, 3); ([], 4)] in
  best_column (column_survey values) = 1%nat ∧
  occurrences "a"%byte (column_image values 1) = 2%nat ∧
  gather values 1 "a"%byte = None ∧
  create_binary_hash values = Undefined.
Proof. vm_compute. repeat split. Qed.

(** ** lookup_binary on the trees that are built *)

Lemma memcmp_eq_refl (p : list byte) : memcmp_eq p p = true.
Proof.
  induction p as [|x p IH]; [done|]. cbn. rewrite IH.
  by rewrite (proj2 (byte_eqb_eq x x) eq_refl).
Qed.

Lemma memcmp_eq_same_length (p q : list byte) :
  length p = length q → memcmp_eq p q = true → p = q.
Proof.
  revert q. induction p as [|x p IH]; intros [|y q] Hlen H; try done.
  cbn in H. apply andb_true_iff in H as [Hxy H].
  apply byte_eqb_eq in Hxy as ->. f_equal. apply IH; [|done].
  cbn in Hlen. lia.
Qed.

Lemma compare_binaries_eq (str1 str2 : list byte) :
  compare_binaries str1 str2 = true ↔ str1 = str2.
Proof.
  unfold compare_binaries. split.
  - destruct (Nat.eqb_spec (length str1) (length str2)) as [E|N]; [|done].
    cbn. by apply memcmp_eq_same_length.
  - intros ->. rewrite Nat.eqb_refl. cbn. apply memcmp_eq_refl.
Qed.

(** [node->slot[slot]] as a lookup in the slot list. *)
Lemma lookup_binary_Node (str : list byte) (col : nat) (a m : Z) (slots : list HashSlot) :
  lookup_binary str (Node col a m slots)
  = match slots !! slot_index (column_byte str col) a m with
    | Some s => lookup_slot (lookup_binary str) str s
    | None => None
    end.
Proof.
  cbn [lookup_binary]. generalize (slot_index (column_byte str col) a m).
  induction slots as [|s slots IH]; intros [|i]; cbn; auto.
Qed.

Lemma find_binary_Some (values : list (list byte * Z)) (col : nat) (ch : byte) (e : list byte * Z) :
  find_binary values col ch = Some e → e ∈ values ∧ column_byte e.1 col = ch.
Proof.
  induction values as [|e0 values IH]; cbn [find_binary]; [done|].
  destruct (Byte.eqb (column_byte e0.1 col) ch) eqn:E.
  - intros [= <-]. split; [left | by apply byte_eqb_eq].
  - intros H. destruct (IH H). split; [by right | done].
Qed.

Lemma length_filter_one {A} (P : A → Prop) `{!∀ x, Decision (P x)} (l : list A) (x y : A) :
  length (filter P l) = 1%nat → x ∈ l → P x → y ∈ l → P y → x = y.
Proof.
  intros Hlen Hx HPx Hy HPy.
  assert (Hx' : x ∈ filter P l) by (by apply list_elem_of_filter).
  assert (Hy' : y ∈ filter P l) by (by apply list_elem_of_filter).
  destruct (filter P l) as [|z [|z' f]]; try done.
  apply list_elem_of_singleton in Hx', Hy'. congruence.
Qed.

(** On a tree that was built, a key of the input is found with its
    payload, and a byte string that is no key of the input is not found. *)
Lemma lookup_binary_built (fuel : nat) :
  ∀ values h root h',
    create_binary_hash_rec fuel values h = (Built root, h') →
    (∀ k p, (k, p) ∈ values → lookup_binary k root = Some p) ∧
    (∀ q, (∀ p, (q, p) ∉ values) → lookup_binary q root = None).
Proof.
  induction fuel as [|fuel IH]; intros values h root h' H;
    apply create_binary_hash_rec_Built in H
      as (fuel' & col & node0 & new & Hfuel & Hne & Hu & Hsel & -> & Hnew);
    [done|].
  injection Hfuel as <-. split.
  - intros k p Hk. rewrite lookup_binary_Node.
    set (ch := column_byte k col).
    assert (Hch : ch ∈ column_image values col).
    { apply (list_elem_of_fmap_2 (λ e : list byte * Z, column_byte e.1 col) _ (k, p) Hk). }
    pose proof Hsel as (_ & _ & _ & _ & Hocc & _).
    specialize (Hocc ch Hch).
    destruct (Forall2_lookup_l _ _ _ _ _ Hnew Hocc) as (s' & -> & Hpop).
    rewrite occurrences_column_image in Hpop.
    destruct Hpop as [[Hc ->]|[(Hc & e & Hfind & ->)|(Hc & group & child & h1 & h2 & Hg & Hb & ->)]];
      cbn [count character payload] in *.
    + exfalso.
      apply (length_filter_zero _ _ (k, p)) in Hc; [|done]. by apply Hc.
    + apply find_binary_Some in Hfind as [He Hech].
      assert (E : e = (k, p)).
      { by apply (length_filter_one
                    (λ e : list byte * Z, column_byte e.1 col = ch) values). }
      subst e. cbn [lookup_slot]. rewrite Hc. cbn.
      by rewrite (proj2 (compare_binaries_eq k k) eq_refl).
    + cbn [lookup_slot].
      destruct (Nat.eqb_spec (length (filter (λ e : list byte * Z, column_byte e.1 col = ch) values)) 0);
        [lia|].
      destruct (Nat.eqb_spec (length (filter (λ e : list byte * Z, column_byte e.1 col = ch) values)) 1);
        [lia|].
      apply gather_Some in Hg as [-> _].
      apply (IH _ _ _ _ Hb). by apply list_elem_of_filter.
  - intros q Hq. rewrite lookup_binary_Node.
    destruct (new !! slot_index (column_byte q col) (prime node0) (num_slots node0))
      as [s'|] eqn:Hs'; [|done].
    destruct (Forall2_lookup_r _ _ _ _ _ Hnew Hs') as (s & Hs & Hpop).
    destruct Hpop as [[Hc ->]|[(Hc & e & Hfind & ->)|(Hc & group & child & h1 & h2 & Hg & Hb & ->)]];
      cbn [lookup_slot].
    + by rewrite Hc.
    + rewrite Hc. cbn.
      apply find_binary_Some in Hfind as [He _].
      destruct (compare_binaries q e.1) eqn:E; [|done].
      apply compare_binaries_eq in E. subst q. destruct e as [k p]. by destruct (Hq p).
    + destruct (Nat.eqb_spec (count s) 0); [lia|].
      destruct (Nat.eqb_spec (count s) 1); [lia|].
      apply gather_Some in Hg as [-> _].
      apply (IH _ _ _ _ Hb). intros p Hp.
      apply list_elem_of_filter in Hp as [_ Hp]. by destruct (Hq p).
Qed.

(** X19: whenever [create_binary_hash] builds a tree in a run that
    reads no byte past the end of a key, the tree maps the keys of the
    input to their payloads and nothing else: [lookup_binary] finds every
    key with its payload and finds no byte string that is not a key. *)
Theorem lookup_binary_sound (values : list (list byte * Z)) (root : HashNode) :
  create_binary_hash values = Built root →
  (∀ k p, (k, p) ∈ values → lookup_binary k root = Some p) ∧
  (∀ q, (∀ p, (q, p) ∉ values) → lookup_binary q root = None).
Proof.
  unfold create_binary_hash, create_binary_hash_heap. intros H.
  destruct (create_binary_hash_rec (length values) values empty_heap) as [r h'] eqn:E.
  cbn in H. subst r. by eapply lookup_binary_built.
Qed.

(** ** create_binary_hash on duplicate keys, and the PANIC exit *)



Section populate_panic.
Variable create : list (list byte * Z) → Heap → Build * Heap.
Variable values : list (list byte * Z).
Variables (col : nat) (a m : Z).

(** The slot loop exits with the PANIC message only for a singleton slot
    whose character no key has, or through a recursive call. *)
Lemma populate_slots_Panic (todo : list HashSlot) :
  ∀ filled h,
    (populate_slots create values col a m filled todo h).1 = Panic →
    (∃ s, s ∈ todo ∧ count s = 1%nat ∧ find_binary values col (character s) = None) ∨
    (∃ group h0, (create group h0).1 = Panic).
Proof.
  induction todo as [|s todo IH]; intros filled h H; cbn [populate_slots] in H; [done|].
  assert (Hrec : ∀ filled' h', (populate_slots create values col a m filled' todo h').1 = Panic →
            (∃ s0, s0 ∈ s :: todo ∧ count s0 = 1%nat ∧
                   find_binary values col (character s0) = None) ∨
            (∃ group h0, (create group h0).1 = Panic)).
  { intros filled' h' H'. apply IH in H' as [(s0 & Hin & ?)|?]; [left | by right].
    exists s0. split; [by right | done]. }
  destruct (Nat.eqb_spec (count s) 0) as [Z0|NZ]; [by eapply Hrec|].
  destruct (Nat.eqb_spec (count s) 1) as [Z1|NZ1].
  { destruct (find_binary values col (character s)) eqn:E; [by eapply Hrec|].
    left. exists s. split; [left | done]. }
  destruct (gather values col (character s)) as [group|] eqn:Hgather; [|done].
  destruct (create group (malloc_buffer (malloc_buffer h))) as [r h1] eqn:Hcreate.
  destruct r; try done; [by eapply Hrec|].
  right. exists group, (malloc_buffer (malloc_buffer h)). by rewrite Hcreate.
Qed.
End populate_panic.

Lemma find_binary_None (values : list (list byte * Z)) (col : nat) (ch : byte) :
  find_binary values col ch = None → ch ∉ column_image values col.
Proof.
  induction values as [|e values IH]; cbn [find_binary].
  - intros _ H. by apply elem_of_nil in H.
  - destruct (Byte.eqb (column_byte e.1 col) ch) eqn:E; [done|].
    intros H Hin. apply byte_eqb_neq in E.
    cbn in Hin. apply elem_of_cons in Hin as [Hin|Hin]; [done|]. by apply IH.
Qed.

(** The exit "PANIC: Binary not found" is never taken. *)
Lemma create_binary_hash_rec_no_panic (fuel : nat) :
  ∀ values h, (create_binary_hash_rec fuel values h).1 ≠ Panic.
Proof.
  induction fuel as [|fuel IH]; intros values h; cbn [create_binary_hash_rec].
  { by destruct (length values <? 1)%nat. }
  destruct (length values <? 1)%nat; [done|].
  pose proof (column_survey_surveyed values) as (Hchars & Hu & Hk).
  set (b := column_survey values) in *.
  destruct (find_best_hash_distribution (best_column_chars b)) as (node & Hfind & _ & Hsel).
  rewrite <- Hu, <- Hk in Hfind.
  destruct ((best_unique_chars b =? 1)%nat && (1 <? length values)%nat); [done|].
  rewrite Hfind.
  destruct (populate_slots _ _ _ _ _ _ _ _) as [r h1] eqn:Hpop.
  destruct r; try done. cbn. intros _.
  assert (Hpop' : (populate_slots (create_binary_hash_rec fuel) values (best_column b)
                     (prime node) (num_slots node) [] (slot node)
                     (malloc_node (free_buffer (malloc_buffer (malloc_buffer h))))).1
                  = Panic) by (by rewrite Hpop).
  apply populate_slots_Panic in Hpop' as [(s & Hs & Hc & Hnone)|(group & h0 & Hp)].
  - destruct (selected_count _ _ s Hsel Hs) as [Hin _]; [lia|].
    apply find_binary_None in Hnone. rewrite <- Hchars in Hnone. done.
  - by apply IH in Hp.
Qed.


(** ** create_binary_hash: when a tree is built *)

Lemma survey_column_le (values : list (list byte * Z)) (c : nat) (b : BestColumn) :
  (best_num_slots (survey_column values c b) <= best_num_slots b)%nat ∧
  (best_num_slots (survey_column values c b)
   <= (calculate_character_distribution (column_image values c)).2)%nat.
Proof.
  unfold survey_column. fold (column_image values c).
  destruct (calculate_character_distribution (column_image values c)) as [u k].
  destruct (Nat.ltb_spec k (best_num_slots b)); cbn; lia.
Qed.

Lemma survey_le (values : list (list byte * Z)) (todo : nat) :
  ∀ c b, (best_num_slots (survey todo c values b) <= best_num_slots b)%nat.
Proof.
  induction todo as [|todo IH]; intros c b; cbn [survey];
    pose proof (survey_column_le values c b) as [H _];
    destruct (last_column values c); try done.
  etrans; [apply IH | done].
Qed.

(** The survey keeps a column whose maximal multiplicity is the least
    among the columns up to the length of the longest key. *)
Lemma survey_min (values : list (list byte * Z)) (todo : nat) :
  ∀ c b c', (c <= c')%nat → (c' <= c + todo)%nat → (c' <= max_length values)%nat →
    (best_num_slots (survey todo c values b)
     <= (calculate_character_distribution (column_image values c')).2)%nat.
Proof.
  induction todo as [|todo IH]; intros c b c' Hc Hc' Hmax; cbn [survey];
    pose proof (survey_column_le values c b) as [_ Hle].
  - assert (c' = c) as -> by lia. by destruct (last_column values c).
  - destruct (decide (c' = c)) as [->|Hne].
    + destruct (last_column values c); [done|].
      etrans; [apply survey_le | done].
    + destruct (last_column values c) eqn:Hlast.
      { apply last_column_max_length in Hlast. lia. }
      apply IH; lia.
Qed.

Lemma filter_all {A} (P : A → Prop) `{!∀ x, Decision (P x)} (l : list A) :
  (∀ x, x ∈ l → P x) → filter P l = l.
Proof.
  induction l as [|x l IH]; intros Hall; [done|].
  rewrite filter_cons_True by (apply Hall; left).
  f_equal. apply IH. intros y Hy. apply Hall. by right.
Qed.

(** On a column at which the keys agree the maximal multiplicity is the
    number of keys; on the others it is less. *)
Lemma max_occurrence_agree (values : list (list byte * Z)) (c : nat) :
  values ≠ [] → ¬ splits values c →
  (calculate_character_distribution (column_image values c)).2 = length values.
Proof.
  intros Hne Hn.
  pose proof (max_occurrence_spec (column_image values c)) as (Hocc & Hle & _).
  rewrite length_column_image in Hle.
  destruct values as [|e0 values]; [done|].
  specialize (Hocc (column_byte e0.1 c)).
  rewrite occurrences_column_image in Hocc.
  rewrite filter_all in Hocc; [lia|].
  intros e He.
  destruct (decide (column_byte e.1 c = column_byte e0.1 c)) as [|N]; [done|].
  exfalso. apply Hn, splits_elem. exists e, e0. split; [done|]. split; [left | done].
Qed.

Lemma max_occurrence_splits (values : list (list byte * Z)) (c : nat) :
  splits values c →
  ((calculate_character_distribution (column_image values c)).2 < length values)%nat.
Proof.
  intros Hs.
  pose proof (max_occurrence_spec (column_image values c)) as (_ & _ & Hatt).
  destruct Hatt as (ch & _ & <-).
  { apply splits_elem in Hs as (e1 & _ & H1 & _). intros E.
    apply (f_equal length) in E. rewrite length_column_image in E.
    destruct values; [by apply elem_of_nil in H1 | done]. }
  rewrite occurrences_column_image. by apply group_smaller.
Qed.

(** If the keys disagree at some column, they disagree at the column of
    the survey. *)
Lemma column_survey_splits (values : list (list byte * Z)) (c : nat) :
  splits values c → splits values (best_column (column_survey values)).
Proof.
  intros Hs.
  assert (Hne : values ≠ []).
  { apply splits_elem in Hs as (e1 & _ & H1 & _). intros ->. by apply elem_of_nil in H1. }
  destruct (decide (splits values (best_column (column_survey values)))) as [|Hn]; [done|].
  exfalso.
  pose proof (column_survey_surveyed values) as (Hchars & _ & Hk).
  rewrite Hchars, (max_occurrence_agree _ _ Hne Hn) in Hk.
  pose proof (survey_min values (max_length values) 0
                (mkBestColumn 0 (S (length values)) 0 []) c) as Hmin.
  pose proof (splits_max_length values c Hs).
  specialize (Hmin ltac:(lia) ltac:(lia) ltac:(lia)).
  pose proof (max_occurrence_splits values c Hs).
  unfold column_survey in Hk. lia.
Qed.

Lemma unique_chars_of_splits (values : list (list byte * Z)) (c : nat) :
  splits values c →
  (calculate_character_distribution (column_image values c)).1 ≠ 1%nat.
Proof.
  intros Hs E. rewrite unique_chars_spec in E.
  apply splits_elem in Hs as (e1 & e2 & H1 & H2 & Hne). apply Hne.
  assert (Hin : ∀ e, e ∈ values → column_byte e.1 c ∈ remove_dups (column_image values c)).
  { intros e He. apply elem_of_remove_dups.
    by apply (list_elem_of_fmap_2 (λ e : list byte * Z, column_byte e.1 c)). }
  pose proof (Hin e1 H1) as Hx. pose proof (Hin e2 H2) as Hy.
  destruct (remove_dups (column_image values c)) as [|x [|y l]]; try done.
  apply list_elem_of_singleton in Hx, Hy. congruence.
Qed.

Lemma gather_long (values : list (list byte * Z)) (col : nat) (ch : byte) :
  (∀ e, e ∈ values → (col < length e.1)%nat) →
  ∃ group, gather values col ch = Some group.
Proof.
  induction values as [|e values IH]; intros Hlen; cbn [gather]; [by eexists|].
  destruct (lookup_lt_is_Some_2 e.1 col) as [b ->]; [apply Hlen; left|].
  destruct IH as [group ->]; [intros e' He'; apply Hlen; by right|].
  by eexists.
Qed.

Section populate_succeeds.
Variable create : list (list byte * Z) → Heap → Build * Heap.
Variable values : list (list byte * Z).
Variables (col : nat) (a m : Z).

(** The slot loop builds the node when every singleton slot finds its key
    and every group is gathered and built. *)
Lemma populate_slots_succeeds (todo : list HashSlot) :
  (∀ s, s ∈ todo → count s = 1%nat → find_binary values col (character s) ≠ None) →
  (∀ s, s ∈ todo → (1 < count s)%nat →
     ∃ group, gather values col (character s) = Some group ∧
              ∀ h, ∃ child h', create group h = (Built child, h')) →
  ∀ filled h, ∃ root h', populate_slots create values col a m filled todo h = (Built root, h').
Proof.
  induction todo as [|s todo IH]; intros Hone Hmany filled h; cbn [populate_slots].
  { by eexists _, _. }
  assert (IH' : ∀ filled h, ∃ root h',
             populate_slots create values col a m filled todo h = (Built root, h')).
  { apply IH; intros s' Hs'; [apply Hone | apply Hmany]; by right. }
  destruct (Nat.eqb_spec (count s) 0) as [Z0|NZ]; [apply IH'|].
  destruct (Nat.eqb_spec (count s) 1) as [Z1|NZ1].
  { specialize (Hone s ltac:(left) Z1).
    destruct (find_binary values col (character s)); [apply IH' | done]. }
  destruct (Hmany s ltac:(left) ltac:(lia)) as (group & -> & Hcreate).
  destruct (Hcreate (malloc_buffer (malloc_buffer h))) as (child & h' & ->).
  apply IH'.
Qed.
End populate_succeeds.

Lemma padded_key_differ (bound : nat) (v1 v2 : list byte) :
  padded_key bound v1 ≠ padded_key bound v2 →
  ∃ c, column_byte v1 c ≠ column_byte v2 c.
Proof.
  intros Hne.
  destruct (decide (Forall (λ c, column_byte v1 c = column_byte v2 c) (seq 0 bound)))
    as [Hall|Hn].
  - exfalso. apply Hne. unfold padded_key. by apply Forall_fmap_ext.
  - apply not_Forall_Exists in Hn; [|apply _].
    apply Exists_exists in Hn as (c & _ & Hc). by exists c.
Qed.

(** Two or more keys that are pairwise different as padded keys disagree
    at some column. *)
Lemma padded_keys_split (bound : nat) (values : list (list byte * Z)) :
  (1 < length values)%nat →
  NoDup ((λ e : list byte * Z, padded_key bound e.1) <$> values) →
  ∃ c, splits values c.
Proof.
  intros Hlen Hnd. destruct values as [|e1 [|e2 values]]; [cbn in Hlen; lia.. |].
  cbn in Hnd. apply NoDup_cons in Hnd as [Hnotin _].
  destruct (padded_key_differ bound e1.1 e2.1) as [c Hc].
  { intros E. apply Hnotin. rewrite E. left. }
  exists c. apply splits_elem. exists e1, e2. split; [left|]. split; [right; left | done].
Qed.

Lemma long_enough_filter (P : list byte * Z → Prop) `{!∀ e, Decision (P e)}
    (values : list (list byte * Z)) :
  long_enough values → long_enough (filter P values).
Proof.
  intros Hlong e c He Hs.
  apply list_elem_of_filter in He as [_ He]. apply (Hlong e c He).
  apply splits_elem in Hs as (e1 & e2 & H1 & H2 & Hne).
  apply list_elem_of_filter in H1 as [_ H1]. apply list_elem_of_filter in H2 as [_ H2].
  apply splits_elem. eauto.
Qed.

(** Keys that are pairwise different as padded keys, none of which ends
    before a column at which they disagree, are built into a tree. *)
Lemma create_binary_hash_rec_succeeds (bound : nat) (fuel : nat) :
  ∀ values h,
    (length values <= fuel)%nat → values ≠ [] →
    NoDup ((λ e : list byte * Z, padded_key bound e.1) <$> values) →
    long_enough values →
    ∃ root h', create_binary_hash_rec fuel values h = (Built root, h').
Proof.
  induction fuel as [|fuel IH]; intros values h Hfuel Hne Hnd Hlong.
  { destruct values; [done | cbn in Hfuel; lia]. }
  cbn [create_binary_hash_rec].
  destruct (Nat.ltb_spec (length values) 1) as [Hlt|Hge].
  { destruct values; [done | cbn in Hlt; lia]. }
  pose proof (column_survey_surveyed values) as (Hchars & Hu & Hk).
  set (b := column_survey values) in *.
  (* several keys disagree at the column of the survey *)
  assert (Hsplit : (1 < length values)%nat → splits values (best_column b)).
  { intros Hn. destruct (padded_keys_split bound values Hn Hnd) as [c Hc].
    by apply (column_survey_splits values c). }
  assert (Hdup : (best_unique_chars b =? 1)%nat && (1 <? length values)%nat = false).
  { apply andb_false_iff. destruct (Nat.ltb_spec 1 (length values)) as [Hn|]; [left | by right].
    apply Nat.eqb_neq. rewrite Hu, Hchars. by apply unique_chars_of_splits, Hsplit. }
  rewrite Hdup.
  destruct (find_best_hash_distribution (best_column_chars b)) as (node & Hfind & _ & Hsel).
  rewrite <- Hu, <- Hk in Hfind. rewrite Hfind.
  destruct (populate_slots_succeeds (create_binary_hash_rec fuel) values (best_column b)
              (prime node) (num_slots node) (slot node)) with
    (filled := @nil HashSlot)
    (h := malloc_node (free_buffer (malloc_buffer (malloc_buffer h))))
    as (root & h' & ->); [| | by eexists _, _].
  - intros s Hs Hc Hnone.
    destruct (selected_count _ _ s Hsel Hs) as [Hin _]; [lia|].
    apply find_binary_None in Hnone. by rewrite <- Hchars in Hnone.
  - intros s Hs Hc.
    destruct (selected_count _ _ s Hsel Hs) as [Hin Hocc]; [lia|].
    rewrite Hchars, occurrences_column_image in Hocc.
    assert (Hn : (1 < length values)%nat).
    { pose proof (length_filter (λ e : list byte * Z,
                                  column_byte e.1 (best_column b) = character s) values).
      lia. }
    destruct (gather_long values (best_column b) (character s)) as [group Hg].
    { intros e He. by apply (Hlong e (best_column b) He), Hsplit. }
    exists group. split; [done|].
    apply gather_Some in Hg as [-> _]. intros h0. apply IH.
    + pose proof (group_smaller values (best_column b) (character s) (Hsplit Hn)). lia.
    + intros E. rewrite E in Hocc. cbn in Hocc. lia.
    + eapply sublist_NoDup; [exact Hnd|]. apply fmap_sublist, sublist_filter.
    + by apply long_enough_filter.
Qed.

Lemma padded_key_full (v : list byte) : padded_key (length v) v = v.
Proof.
  unfold padded_key. apply list_eq. intros i. rewrite list_lookup_fmap.
  destruct (decide (i < length v)%nat) as [Hi|Hi].
  - rewrite lookup_seq_lt by done. cbn. unfold column_byte.
    destruct (lookup_lt_is_Some_2 v i Hi) as [x Hx]. by rewrite Hx.
  - rewrite lookup_seq_ge by lia. cbn. symmetry. apply lookup_ge_None_2. lia.
Qed.

(** Pairwise distinct keys of one width are built into a tree that maps
    them to their payloads and nothing else. *)
Lemma one_width_round_trip (values : list (list byte * Z)) (width : nat) :
  values ≠ [] →
  (∀ e, e ∈ values → length e.1 = width) →
  NoDup values.*1 →
  ∃ root,
    create_binary_hash values = Built root ∧
    (∀ k p, (k, p) ∈ values → lookup_binary k root = Some p) ∧
    (∀ q, q ∉ values.*1 → lookup_binary q root = None).
Proof.
  intros Hne Hwidth Hnd.
  destruct (create_binary_hash_rec_succeeds width (length values) values empty_heap)
    as (root & h' & Hbuilt); [done | done | | |].
  - replace ((λ e : list byte * Z, padded_key width e.1) <$> values) with values.*1; [done|].
    apply list_fmap_ext. intros i e He.
    rewrite <- (Hwidth e) by (by eapply list_elem_of_lookup_2).
    symmetry. apply padded_key_full.
  - intros e c He Hs. rewrite (Hwidth e He).
    pose proof (splits_max_length values c Hs) as Hc.
    assert (max_length values <= width)%nat; [|lia].
    apply max_length_bound. intros e' He'. by rewrite (Hwidth e' He').
  - exists root.
    assert (E : create_binary_hash values = Built root).
    { unfold create_binary_hash, create_binary_hash_heap. by rewrite Hbuilt. }
    split; [done|]. destruct (lookup_binary_built _ _ _ _ _ Hbuilt) as [Hin Hout].
    split; [done|]. intros q Hq. apply Hout. intros p Hp. apply Hq.
    by apply (list_elem_of_fmap_2 fst _ (q, p)).
Qed.

(** ** create_binary_hash on keys inside larger buffers *)

Lemma gather_buffers_Some (values : list (list byte * Z * list byte)) (col : nat) (ch : byte)
    (group : list (list byte * Z * list byte)) :
  gather_buffers values col ch = Some group →
  group = filter (λ e, peek e col = Some ch) values ∧
  ∀ e, e ∈ values → is_Some (peek e col).
Proof.
  revert group. induction values as [|e values IH]; intros group H; cbn [gather_buffers] in H.
  - injection H as <-. split; [done|]. intros e He. by apply elem_of_nil in He.
  - destruct (peek e col) as [b|] eqn:Hb; [|done].
    destruct (gather_buffers values col ch) as [g|]; [|done].
    destruct (IH g eq_refl) as [-> Hread]. injection H as <-.
    split.
    + destruct (Byte.eqb b ch) eqn:E.
      * apply byte_eqb_eq in E. subst b. by rewrite filter_cons_True.
      * apply byte_eqb_neq in E. rewrite filter_cons_False; [done | congruence].
    + intros e' He'. apply elem_of_cons in He' as [->|He']; [by eexists | by apply Hread].
Qed.

Section populate_buffers_facts.
Variable create : list (list byte * Z * list byte) → Build.
Variable values : list (list byte * Z * list byte).
Variables (col : nat) (a m : Z).

Lemma populate_slots_buffers_Built (todo : list HashSlot) :
  ∀ filled root,
    populate_slots_buffers create values col a m filled todo = Built root →
    ∃ new, root = Node col a m (filled ++ new) ∧
           Forall2 (populated_buffers create values col) todo new.
Proof.
  induction todo as [|s todo IH]; intros filled root H; cbn [populate_slots_buffers] in H.
  - injection H as <-. exists []. by rewrite app_nil_r.
  - destruct (Nat.eqb_spec (count s) 0) as [Z0|NZ].
    { apply IH in H as (new & -> & Hnew). eexists (_ :: new).
      rewrite <- app_assoc. split; [done|]. constructor; [|done]. by left. }
    destruct (Nat.eqb_spec (count s) 1) as [Z1|NZ1].
    { destruct (find_binary values.*1 col (character s)) as [e|] eqn:Hfind; [|done].
      apply IH in H as (new & -> & Hnew). eexists (_ :: new).
      rewrite <- app_assoc. split; [done|]. constructor; [|done].
      right; left. split; [done|]. by exists e. }
    destruct (gather_buffers values col (character s)) as [group|] eqn:Hgather; [|done].
    destruct (Nat.ltb_spec (count s) (length group)) as [Hover|Hfit]; [done|].
    destruct (create group) as [child| | | |] eqn:Hcreate; try done.
    apply IH in H as (new & -> & Hnew). eexists (_ :: new).
    rewrite <- app_assoc. split; [done|]. constructor; [|done].
    right; right. split; [lia|]. by eexists _, _.
Qed.

(** The slot loop runs out of fuel only through a recursive call, on a
    group that fits the slot. *)
Lemma populate_slots_buffers_OutOfFuel (todo : list HashSlot) :
  ∀ filled,
    populate_slots_buffers create values col a m filled todo = OutOfFuel →
    ∃ s group, s ∈ todo ∧ (1 < count s)%nat ∧
               gather_buffers values col (character s) = Some group ∧
               (length group <= count s)%nat ∧
               create group = OutOfFuel.
Proof.
  induction todo as [|s todo IH]; intros filled H; cbn [populate_slots_buffers] in H; [done|].
  assert (Hrec : ∀ filled', populate_slots_buffers create values col a m filled' todo = OutOfFuel →
            ∃ s0 group, s0 ∈ s :: todo ∧ (1 < count s0)%nat ∧
              gather_buffers values col (character s0) = Some group ∧
              (length group <= count s0)%nat ∧
              create group = OutOfFuel).
  { intros filled' H'. apply IH in H' as (s0 & group & Hin & ?).
    exists s0, group. split; [by right | done]. }
  destruct (Nat.eqb_spec (count s) 0) as [Z0|NZ]; [by eapply Hrec|].
  destruct (Nat.eqb_spec (count s) 1) as [Z1|NZ1].
  { destruct (find_binary values.*1 col (character s)); [by eapply Hrec | done]. }
  destruct (gather_buffers values col (character s)) as [group|] eqn:Hgather; [|done].
  destruct (Nat.ltb_spec (count s) (length group)) as [Hover|Hfit]; [done|].
  destruct (create group) as [child| | | |] eqn:Hcreate; try done; [by eapply Hrec|].
  exists s, group. split; [left|]. split; [lia|]. done.
Qed.
End populate_buffers_facts.

(** A call that builds a node, seen from its result. *)
Lemma create_binary_hash_buffers_rec_Built (fuel : nat)
    (values : list (list byte * Z * list byte)) (root : HashNode) :
  create_binary_hash_buffers_rec fuel values = Built root →
  ∃ fuel' col node0 new,
    fuel = S fuel' ∧ values ≠ [] ∧
    ((1 < length values)%nat → splits values.*1 col) ∧
    selected (column_image values.*1 col) node0 ∧
    root = Node col (prime node0) (num_slots node0) new ∧
    Forall2 (populated_buffers (create_binary_hash_buffers_rec fuel') values col)
            (slot node0) new.
Proof.
  intros H. destruct fuel as [|fuel']; cbn [create_binary_hash_buffers_rec] in H.
  { destruct (length values <? 1)%nat; done. }
  destruct (Nat.ltb_spec (length values) 1) as [Hlt|Hge]; [done|].
  pose proof (column_survey_surveyed values.*1) as (Hchars & Hu & Hk).
  set (b := column_survey values.*1) in *.
  destruct (find_best_hash_distribution (best_column_chars b)) as (node & Hfind & _ & Hsel).
  rewrite <- Hu, <- Hk in Hfind.
  destruct ((best_unique_chars b =? 1)%nat && (1 <? length values)%nat) eqn:Hdup; [done|].
  rewrite Hfind in H.
  apply populate_slots_buffers_Built in H as (new & -> & Hnew).
  exists fuel', (best_column b), node, new.
  assert (Hne : values ≠ []) by (destruct values; [cbn in Hge; lia | done]).
  split; [done|]. split; [done|].
  rewrite <- Hchars. split; [|done].
  intros Hn. apply unique_chars_splits.
  - intros E. apply fmap_nil_inv in E. done.
  - rewrite <- Hchars, <- Hu. intros E.
    apply andb_false_iff in Hdup as [Hdup|Hdup].
    + apply Nat.eqb_neq in Hdup. done.
    + apply Nat.ltb_ge in Hdup. lia.
Qed.

(** The group gathered for a branch slot of a node that was built: it
    is made of values of the node that all read the slot's character at
    the column, it is smaller than the set of values, and the values of
    the node do not all read the same at the column. *)
Lemma gathered_group (fuel : nat) (values : list (list byte * Z * list byte)) (col : nat)
    (node0 : HashNode) (s : HashSlot) (group : list (list byte * Z * list byte))
    (child : HashNode) :
  selected (column_image values.*1 col) node0 →
  ((1 < length values)%nat → splits values.*1 col) →
  s ∈ slot node0 → (1 < count s)%nat →
  gather_buffers values col (character s) = Some group →
  (length group <= count s)%nat →
  create_binary_hash_buffers_rec fuel group = Built child →
  (∀ e, e ∈ group → e ∈ values ∧ peek e col = Some (character s)) ∧
  (length group < length values)%nat ∧
  (col < max_length values.*1)%nat ∧
  buffer_splits values col.
Proof.
  intros Hsel Hu Hs Hcnt Hg Hfit Hc.
  destruct (selected_count _ _ s Hsel Hs) as [_ Hocc]; [lia|].
  rewrite occurrences_column_image in Hocc.
  apply gather_buffers_Some in Hg as [Hgroup Hread].
  assert (Hin : ∀ e, e ∈ group → e ∈ values ∧ peek e col = Some (character s)).
  { intros e He. rewrite Hgroup in He. apply list_elem_of_filter in He. tauto. }
  pose proof (length_filter (λ e : list byte * Z, column_byte e.1 col = character s) values.*1)
    as Hle.
  rewrite length_fmap in Hle.
  assert (Hsplit : splits values.*1 col) by (apply Hu; lia).
  pose proof (group_smaller values.*1 col (character s) Hsplit) as Hsmall.
  rewrite length_fmap in Hsmall.
  assert (Hlt : (length group < length values)%nat) by lia.
  split; [done|]. split; [done|]. split; [by apply splits_max_length|].
  destruct (decide (buffer_splits values col)) as [|Hn]; [done|]. exfalso.
  apply create_binary_hash_buffers_rec_Built in Hc as (_ & _ & _ & _ & _ & Hgne & _).
  destruct group as [|e0 g] eqn:Eg; [done|]. rewrite <- Eg in *.
  destruct (Hin e0) as [He0 Hp0]; [rewrite Eg; left|].
  assert (Hall : filter (λ e, peek e col = Some (character s)) values = values).
  { apply filter_all. intros e He.
    destruct (decide (peek e col = peek e0 col)) as [E|N]; [by rewrite E|].
    exfalso. apply Hn. unfold buffer_splits. apply Exists_exists. exists e. split; [done|].
    apply Exists_exists. by exists e0. }
  rewrite Hall in Hgroup. rewrite Hgroup in Hlt. lia.
Qed.

Lemma buffer_disagreements_lt (bound : nat) (group values : list (list byte * Z * list byte))
    (c : nat) :
  (∀ e, e ∈ group → e ∈ values) →
  ¬ buffer_splits group c → buffer_splits values c → (c < bound)%nat →
  (buffer_disagreements bound group < buffer_disagreements bound values)%nat.
Proof.
  intros Hsub Hg Hv Hc. unfold buffer_disagreements.
  rewrite <- (list_filter_filter_l (buffer_splits group) (buffer_splits values)).
  - apply (length_filter_lt _ _ c); [|done].
    apply list_elem_of_filter. split; [done|]. apply elem_of_seq. lia.
  - intros x Hx. unfold buffer_splits in *.
    apply Exists_exists in Hx as (e1 & H1 & Hx). apply Exists_exists in Hx as (e2 & H2 & Hx).
    apply Exists_exists. exists e1. split; [auto|]. apply Exists_exists. exists e2. auto.
Qed.

(** A column is not used twice on a chain of nodes: the values below a
    branch slot all read the same at the column of the node, and a node
    with a branch slot has values that read differently at its column. *)
Lemma depth_buffer_disagreements (fuel : nat) :
  ∀ values root bound,
    create_binary_hash_buffers_rec fuel values = Built root →
    (max_length values.*1 <= bound)%nat →
    (depth root <= S (buffer_disagreements bound values))%nat.
Proof.
  induction fuel as [|fuel IH]; intros values root bound H Hbound;
    apply create_binary_hash_buffers_rec_Built in H
      as (fuel' & col & node0 & new & Hfuel & Hne & Hu & Hsel & -> & Hnew);
    [done|].
  injection Hfuel as <-.
  apply depth_Node_le. intros s' child Hs' Hb.
  apply list_elem_of_lookup in Hs' as [i Hs'].
  destruct (Forall2_lookup_r _ _ _ _ _ Hnew Hs') as (s & Hs & Hpop).
  destruct Hpop as [[_ ->]|[(_ & e & _ & ->)|(Hcnt & group & c & Hg & Hfit & Hc & ->)]];
    [done | done |].
  unfold branch in Hb. destruct (1 <? count s)%nat; [|done]. injection Hb as ->.
  destruct (gathered_group _ _ _ _ s _ _ Hsel Hu (list_elem_of_lookup_2 _ _ _ Hs) Hcnt Hg Hfit Hc)
    as (Hin & _ & Hcol & Hsplits).
  assert (Hdeep : (depth child <= S (buffer_disagreements bound group))%nat).
  { apply (IH _ _ _ Hc). apply max_length_bound. intros e He.
    apply list_elem_of_fmap in He as (x & -> & Hx).
    apply (proj1 (max_length_bound values.*1 bound) Hbound).
    apply list_elem_of_fmap_2. by apply Hin. }
  assert (Hless : (buffer_disagreements bound group < buffer_disagreements bound values)%nat).
  { apply (buffer_disagreements_lt bound group values col); [apply Hin | | done | lia].
    unfold buffer_splits. intros Hx.
    apply Exists_exists in Hx as (e1 & H1 & Hx). apply Exists_exists in Hx as (e2 & H2 & Hx).
    apply Hx. destruct (Hin e1 H1) as [_ ->]. by destruct (Hin e2 H2) as [_ ->]. }
  lia.
Qed.

Lemma buffer_disagreements_le (bound : nat) (values : list (list byte * Z * list byte)) :
  (buffer_disagreements bound values <= bound)%nat.
Proof.
  unfold buffer_disagreements. etrans; [apply length_filter|]. by rewrite length_seq.
Qed.

(** Every recursive call is on fewer values: the model never runs out of
    fuel. *)
Lemma create_binary_hash_buffers_rec_fuel (fuel : nat) :
  ∀ values, (length values <= fuel)%nat →
            create_binary_hash_buffers_rec fuel values ≠ OutOfFuel.
Proof.
  induction fuel as [|fuel IH]; intros values Hlen; cbn [create_binary_hash_buffers_rec].
  { destruct values; [done | cbn in Hlen; lia]. }
  destruct (Nat.ltb_spec (length values) 1) as [Hlt|Hge]; [done|].
  pose proof (column_survey_surveyed values.*1) as (Hchars & Hu & Hk).
  set (b := column_survey values.*1) in *.
  destruct (find_best_hash_distribution (best_column_chars b)) as (node & Hfind & _ & Hsel).
  rewrite <- Hu, <- Hk in Hfind.
  destruct ((best_unique_chars b =? 1)%nat && (1 <? length values)%nat) eqn:Hdup; [done|].
  rewrite Hfind. intros Hout.
  apply populate_slots_buffers_OutOfFuel in Hout as (s & group & Hs & Hcnt & Hg & Hfit & Hout).
  revert Hout. apply IH.
  destruct (selected_count _ _ s Hsel Hs) as [_ Hocc]; [lia|].
  rewrite Hchars, occurrences_column_image in Hocc.
  pose proof (length_filter (λ e : list byte * Z,
                column_byte e.1 (best_column b) = character s) values.*1) as Hle.
  rewrite length_fmap in Hle.
  assert (Hsplit : splits values.*1 (best_column b)).
  { apply unique_chars_splits.
    - intros E. apply fmap_nil_inv in E. subst values. cbn in Hge. lia.
    - rewrite <- Hchars, <- Hu. intros E.
      apply andb_false_iff in Hdup as [Hdup|Hdup].
      + apply Nat.eqb_neq in Hdup. done.
      + apply Nat.ltb_ge in Hdup. lia. }
  pose proof (group_smaller values.*1 (best_column b) (character s) Hsplit) as Hsmall.
  rewrite length_fmap in Hsmall. lia.
Qed.

Lemma create_binary_hash_buffers_total (values : list (list byte * Z * list byte)) :
  create_binary_hash_buffers values ≠ OutOfFuel.
Proof. by apply create_binary_hash_buffers_rec_fuel. Qed.

(** C7: when [create_binary_hash] builds a tree for a set of keys, its
    depth, the longest chain of nodes from the root down through the branch
    slots, is at most the length of the longest key plus one.  The keys may
    lie inside larger buffers (the keys of [create_string_hash], each
    followed by its terminator, or slices of a text): the gathering loop
    then reads the byte that follows a short key, and the tree is built on
    what it read. *)
Theorem depth_le_max_key_length (values : list (list byte * Z * list byte))
    (root : HashNode) :
  create_binary_hash_buffers values = Built root →
  (depth root <= max_length values.*1 + 1)%nat.
Proof.
  intros H.
  pose proof (depth_buffer_disagreements _ _ _ (max_length values.*1) H (Nat.le_refl _)).
  pose proof (buffer_disagreements_le (max_length values.*1) values). lia.
Qed.

(** ** Keys in buffers of exactly their length *)

Lemma exact_size_entries (values : list (list byte * Z)) : (exact_size values).*1 = values.
Proof.
  unfold exact_size. rewrite <- list_fmap_compose. induction values as [|e values IH]; [done|].
  cbn. by rewrite IH.
Qed.

Lemma gather_exact_size (values : list (list byte * Z)) (col : nat) (ch : byte) :
  gather_buffers (exact_size values) col ch = exact_size <$> gather values col ch.
Proof.
  induction values as [|e values IH]; [done|].
  cbn [exact_size fmap list_fmap gather_buffers gather]. fold (exact_size values).
  unfold peek. cbn [fst snd]. rewrite app_nil_r.
  destruct (e.1 !! col) as [b|]; [|done].
  rewrite IH. destruct (gather values col ch) as [g|]; [|done].
  cbn. by destruct (Byte.eqb b ch).
Qed.

Section populate_exact_size.
Variable create : list (list byte * Z) → Heap → Build * Heap.
Variable create_buffers : list (list byte * Z * list byte) → Build.
Variable values : list (list byte * Z).
Variables (col : nat) (a m : Z).
Hypothesis create_exact_size :
  ∀ group h, (create group h).1 = create_buffers (exact_size group).

Lemma populate_slots_exact_size (todo : list HashSlot) :
  (∀ s, s ∈ todo → (1 < count s)%nat →
        count s = occurrences (character s) (column_image values col)) →
  ∀ filled h,
    (populate_slots create values col a m filled todo h).1
    = populate_slots_buffers create_buffers (exact_size values) col a m filled todo.
Proof.
  induction todo as [|s todo IH]; intros Hcount filled h;
    cbn [populate_slots populate_slots_buffers]; [done|].
  specialize (IH ltac:(intros s0 Hs0; apply Hcount; by right)).
  destruct (Nat.eqb_spec (count s) 0) as [Z0|NZ]; [apply IH|].
  rewrite exact_size_entries.
  destruct (Nat.eqb_spec (count s) 1) as [Z1|NZ1].
  { destruct (find_binary values col (character s)); [apply IH | done]. }
  rewrite gather_exact_size.
  destruct (gather values col (character s)) as [group|] eqn:Hg; [|done].
  cbn [fmap option_fmap option_map].
  pose proof (Hcount s ltac:(left) ltac:(lia)) as Hocc.
  apply gather_Some in Hg as [Hgroup _].
  rewrite occurrences_column_image, <- Hgroup in Hocc.
  assert (Hfit : (count s <? length (exact_size group))%nat = false).
  { apply Nat.ltb_ge. unfold exact_size. rewrite length_fmap. lia. }
  rewrite Hfit.
  rewrite <- (create_exact_size group (malloc_buffer (malloc_buffer h))).
  destruct (create group (malloc_buffer (malloc_buffer h))) as [r h1].
  destruct r; [apply IH | done..].
Qed.
End populate_exact_size.

Lemma create_binary_hash_rec_exact_size (fuel : nat) :
  ∀ values h,
    (create_binary_hash_rec fuel values h).1
    = create_binary_hash_buffers_rec fuel (exact_size values).
Proof.
  induction fuel as [|fuel IH]; intros values h;
    cbn [create_binary_hash_rec create_binary_hash_buffers_rec];
    rewrite ?exact_size_entries;
    replace (length (exact_size values)) with (length values)
      by (unfold exact_size; by rewrite length_fmap).
  { by destruct (length values <? 1)%nat. }
  destruct (length values <? 1)%nat; [done|].
  pose proof (column_survey_surveyed values) as (Hchars & Hu & Hk).
  set (b := column_survey values) in *.
  destruct (find_best_hash_distribution (best_column_chars b)) as (node & Hfind & _ & Hsel).
  rewrite <- Hu, <- Hk in Hfind.
  destruct ((best_unique_chars b =? 1)%nat && (1 <? length values)%nat); [done|].
  rewrite Hfind.
  rewrite <- (populate_slots_exact_size (create_binary_hash_rec fuel) _ values _ _ _ IH
                (slot node)) with
    (h := malloc_node (free_buffer (malloc_buffer (malloc_buffer h)))).
  - destruct (populate_slots _ _ _ _ _ _ _ _) as [r h1]. by destruct r.
  - intros s Hs Hcnt. rewrite <- Hchars.
    destruct (selected_count _ _ s Hsel Hs) as [_ Hocc]; [lia | done].
Qed.

(** The model of [create_binary_hash] with reads past a key undefined is
    the model on buffers with nothing after the keys. *)
Lemma create_binary_hash_exact_size (values : list (list byte * Z)) :
  create_binary_hash values = create_binary_hash_buffers (exact_size values).
Proof.
  unfold create_binary_hash, create_binary_hash_heap, create_binary_hash_buffers.
  rewrite create_binary_hash_rec_exact_size. f_equal.
  unfold exact_size. by rewrite length_fmap.
Qed.

(** With a byte after a short key that is not the padding byte, a key can
    miss its group: the empty key below lies in a buffer that holds "zz",
    it is counted in the slot of the padding byte at column 0 and not
    gathered for it, and the tree that is built has two leaves for three
    keys and does not find the empty key. *)
Lemma create_binary_hash_buffers_lost_key :
  ∃ root,
    create_binary_hash_buffers
      [(([], 1), ["z"; "z"]); ((["000"; "y"], 2), []); ((["a"; "y"], 3), [])]%byte
      = Built root ∧
    tree_leaves root = 2%nat ∧
    lookup_binary [] root = None.
Proof.
  eexists. split; [vm_compute; reflexivity|].
  split; vm_compute; reflexivity.
Qed.

(** ** Instances of the theorems at concrete inputs *)

Lemma hash_function_kernel_witness :
  0 <= 5 < 256 ∧ 0 <= 2 < 256 ∧
  hash_function "A"%byte 5 2 = (Z.lxor (5 - 1) (byte_val "A"%byte) * 5) mod (2 + 1).
Proof.
  split; [lia|]. split; [lia|].
  apply (hash_function_kernel "A"%byte 5 2); lia.
Defined.

Lemma find_best_hash_no_collision_witness :
  ∃ node,
    find_best_hash ["a"; "b"; "a"]%byte 2 2 = Some node ∧
    hash_function "a"%byte (prime node) (num_slots node)
      ≠ hash_function "b"%byte (prime node) (num_slots node).
Proof.
  destruct (find_best_hash_no_collision ["a"; "b"; "a"]%byte) as [(node & Hfind & Hsep) _].
  exists node. split; [exact Hfind|].
  apply Hsep; [left | right; left | discriminate].
Defined.

Lemma create_character_hash_last_payload_witness :
  ∃ node,
    create_character_hash [("a"%byte, 1); ("b"%byte, 2); ("a"%byte, 3)] = Some node ∧
    lookup_character "a"%byte node = Some 3.
Proof.
  destruct (create_character_hash_last_payload
              [("a"%byte, 1); ("b"%byte, 2); ("a"%byte, 3)]) as (node & Hnode & _ & _ & Hlast).
  exists node. split; [exact Hnode|].
  apply (Hlast 2%nat "a"%byte 3); [reflexivity|].
  intros j q Hj. destruct j as [|[|[|j]]]; [lia | lia | lia | discriminate].
Defined.

Lemma depth_le_max_key_length_witness :
  ∃ root,
    create_binary_hash_buffers
      [(([], 1), ["000"]); ((["a"], 2), ["000"]); ((["a"; "b"], 3), ["000"])]%byte
      = Built root ∧
    depth root = 2%nat ∧
    (depth root <= 2 + 1)%nat.
Proof.
  eexists. split; [vm_compute; reflexivity|]. split; [vm_compute; reflexivity|].
  apply (depth_le_max_key_length
           [(([], 1), ["000"]); ((["a"], 2), ["000"]); ((["a"; "b"], 3), ["000"])]%byte).
  vm_compute. reflexivity.
Defined.

(** * Further properties of the code *)

(** ** The kernel and the column analyzer *)

(** X1: for [uint8_t] arguments the result of [hash_function] is an index
    of the table of [num_slots + 1] slots: [node->slot[slot]] and
    [slot_table[slot]] are never indexed out of their bounds. *)
Theorem hash_function_in_table (b : byte) (a m : Z) :
  0 <= a < 256 → 0 <= m < 256 →
  0 <= hash_function b a m <= m ∧ (slot_index b a m < S (Z.to_nat m))%nat.
Proof.
  intros Ha Hm. split; [by apply hash_function_range | by apply slot_index_range].
Qed.

(** X2: [calculate_character_distribution] returns the number of distinct
    byte values of the array (at most 256) and the largest number of
    occurrences of one value: no value occurs more often, some value of a
    non-empty array occurs that often, and for the empty array both
    results are 0. *)
Theorem calculate_character_distribution_spec (l : list byte) :
  let unique_chars := (calculate_character_distribution l).1 in
  let max_occurrence := (calculate_character_distribution l).2 in
  unique_chars = length (remove_dups l) ∧
  (unique_chars <= 256)%nat ∧
  (∀ c, (occurrences c l <= max_occurrence)%nat) ∧
  (max_occurrence <= length l)%nat ∧
  (∃ c, (c ∈ l ∨ l = []) ∧ occurrences c l = max_occurrence).
Proof.
  cbn zeta. pose proof (max_occurrence_spec l) as (Hle & Hlen & Hatt).
  split; [apply unique_chars_spec|]. split.
  { unfold calculate_character_distribution.
    pose proof (counted_fold l) as H.
    destruct (fold_left count_character l (replicate 256 0%nat, 0%nat)) as [cs mx].
    destruct H as (H256 & _). cbn in *. rewrite <- H256. apply length_filter. }
  split; [done|]. split; [done|].
  destruct l as [|x l].
  - exists "000"%byte. split; [by right|]. cbn in Hlen. cbn. lia.
  - destruct Hatt as (c & Hc & E); [done|]. exists c. split; [by left | done].
Qed.

(** X3: [compare_binaries] returns 1 exactly for two values of the same
    length and the same bytes. *)
Theorem compare_binaries_decides (str1 str2 : list byte) :
  (compare_binaries str1 str2 = true ↔ str1 = str2) ∧
  (compare_binaries str1 str2 = false ↔ str1 ≠ str2) ∧
  ((length str1 ≠ length str2) → compare_binaries str1 str2 = false).
Proof.
  pose proof (compare_binaries_eq str1 str2) as H. split; [done|]. split.
  - destruct (compare_binaries str1 str2); split; try done.
    + intros N. exfalso. apply N. by apply H.
    + intros _ E. by apply H in E.
  - intros N. destruct (compare_binaries str1 str2) eqn:E; [|done].
    apply compare_binaries_eq in E. by subst.
Qed.

(** ** The node of find_best_hash *)

(** X4: the node that [find_best_hash] returns for a byte array (with
    the results of the column analyzer) has a prime of the list, between 1
    and 256 slots, as many as [num_slots + 1]; the slot a byte of the array
    hashes to records that byte and the number of its occurrences, and
    every other slot is empty; no slot has a payload or a pointer yet. *)
Theorem find_best_hash_table (characters : list byte) :
  ∃ node,
    find_best_hash characters (calculate_character_distribution characters).2
                   (calculate_character_distribution characters).1 = Some node ∧
    prime node ∈ primes ∧
    (1 <= length (slot node) <= 256)%nat ∧
    Z.of_nat (length (slot node)) = num_slots node + 1 ∧
    (∀ c, c ∈ characters →
       slot node !! slot_index c (prime node) (num_slots node)
         = Some (Slot c (occurrences c characters) NullPtr zero_payload)) ∧
    (∀ i s, slot node !! i = Some s →
       (∀ c, c ∈ characters → slot_index c (prime node) (num_slots node) ≠ i) →
       s = Slot "000"%byte 0 NullPtr zero_payload) ∧
    (∀ s, s ∈ slot node → next_node s = NullPtr ∧ payload s = zero_payload).
Proof.
  destruct (find_best_hash_distribution characters)
    as (node & Hfind & _ & Ha & Hm & Hlen & _ & Hocc & Hall).
  exists node. split; [done|]. split; [done|]. rewrite Hlen.
  split; [lia|]. split; [lia|]. split; [done|]. split.
  - intros i s Hs Hfree. destruct (Hall i s Hs) as [|(Hin & Hi & _)]; [done|].
    by destruct (Hfree _ Hin).
  - intros s Hs. apply list_elem_of_lookup in Hs as [i Hs].
    destruct (Hall i s Hs) as [->|(_ & _ & ->)]; done.
Qed.

(** ** lookup_character on bytes that are not in the input *)

(** The payload loop changes no [character] and no [count]. *)
Lemma set_payload_keeps (a m : Z) (slots : list HashSlot) (e : byte * Z) :
  (λ s, (character s, count s)) <$> set_payload a m slots e
  = (λ s, (character s, count s)) <$> slots.
Proof.
  unfold set_payload.
  destruct (slots !! slot_index e.1 a m) as [s|] eqn:Hs; [|done].
  destruct ((count s =? 1)%nat && Byte.eqb (character s) e.1); [|done].
  rewrite list_fmap_insert. apply list_insert_id.
  rewrite list_lookup_fmap, Hs. done.
Qed.

Lemma set_payload_fold_keeps (a m : Z) (input : list (byte * Z)) :
  ∀ slots,
    (λ s, (character s, count s)) <$> fold_left (set_payload a m) input slots
    = (λ s, (character s, count s)) <$> slots.
Proof.
  induction input as [|e input IH]; intros slots; [done|].
  cbn [fold_left]. rewrite IH. apply set_payload_keeps.
Qed.

(** X5: in the node of [create_character_hash], [lookup_character]
    returns 0 (not found) for every byte value that does not occur in the
    input; in particular nothing is found in the node built from the
    empty array. *)
Theorem lookup_character_absent (input : list (byte * Z)) (node : HashNode) (b : byte) :
  create_character_hash input = Some node →
  b ∉ input.*1 →
  lookup_character b node = None.
Proof.
  unfold create_character_hash. intros Hnode Hb.
  destruct (find_best_hash_distribution input.*1) as (node0 & Hfind & _ & Hsel).
  destruct (calculate_character_distribution input.*1) as [u mx]. cbn in Hfind.
  rewrite Hfind in Hnode. injection Hnode as <-.
  unfold lookup_character. cbn [slot prime num_slots].
  set (i := slot_index b (prime node0) (num_slots node0)).
  set (slots := fold_left _ _ _).
  pose proof (set_payload_fold_keeps (prime node0) (num_slots node0) input
                (clear_count <$> slot node0)) as Hkeep.
  fold slots in Hkeep.
  apply (f_equal (λ l, l !! i)) in Hkeep. rewrite !list_lookup_fmap in Hkeep.
  destruct (slots !! i) as [s|] eqn:Hs.
  - rewrite (list_lookup_total_correct _ _ _ Hs).
    destruct (slot node0 !! i) as [s0|] eqn:Hs0; [|done].
    cbn in Hkeep. injection Hkeep as Hch Hcnt.
    destruct Hsel as (_ & _ & _ & _ & _ & Hall).
    destruct (Hall i s0 Hs0) as [->|(Hin & _ & _)].
    + cbn in Hcnt. by rewrite Hcnt.
    + assert (Hne : character s ≠ b).
      { rewrite Hch. unfold clear_count.
        destruct (1 <? count s0)%nat; cbn; intros E; apply Hb; by rewrite <- E. }
      apply byte_eqb_neq in Hne. rewrite Hne. by rewrite andb_false_r.
  - rewrite list_lookup_total_alt, Hs. done.
Qed.

(** ** create_binary_hash: the outcomes *)

Section populate_null.
Variable create : list (list byte * Z) → Heap → Build * Heap.
Variable values : list (list byte * Z).
Variables (col : nat) (a m : Z).

(** The slot loop returns NULL only when a recursive call does. *)
Lemma populate_slots_Null (todo : list HashSlot) :
  ∀ filled h,
    (populate_slots create values col a m filled todo h).1 = Null →
    ∃ s group h0, s ∈ todo ∧ (1 < count s)%nat ∧
                  gather values col (character s) = Some group ∧
                  (create group h0).1 = Null.
Proof.
  induction todo as [|s todo IH]; intros filled h H; cbn [populate_slots] in H; [done|].
  assert (Hrec : ∀ filled' h', (populate_slots create values col a m filled' todo h').1 = Null →
            ∃ s0 group h0, s0 ∈ s :: todo ∧ (1 < count s0)%nat ∧
              gather values col (character s0) = Some group ∧
              (create group h0).1 = Null).
  { intros filled' h' H'. apply IH in H' as (s0 & group & h0 & Hin & ?).
    exists s0, group, h0. split; [by right | done]. }
  destruct (Nat.eqb_spec (count s) 0) as [Z0|NZ]; [by eapply Hrec|].
  destruct (Nat.eqb_spec (count s) 1) as [Z1|NZ1].
  { destruct (find_binary values col (character s)); [by eapply Hrec | done]. }
  destruct (gather values col (character s)) as [group|] eqn:Hgather; [|done].
  destruct (create group (malloc_buffer (malloc_buffer h))) as [r h1] eqn:Hcreate.
  destruct r; try done; [by eapply Hrec|].
  exists s, group, (malloc_buffer (malloc_buffer h)).
  split; [left|]. split; [lia|]. split; [done|]. by rewrite Hcreate.
Qed.
End populate_null.

(** Keys that are pairwise different as padded keys are never reported
    as duplicates. *)
Lemma create_binary_hash_rec_not_Null (bound : nat) (fuel : nat) :
  ∀ values h,
    values ≠ [] →
    NoDup ((λ e : list byte * Z, padded_key bound e.1) <$> values) →
    (create_binary_hash_rec fuel values h).1 ≠ Null.
Proof.
  induction fuel as [|fuel IH]; intros values h Hne Hnd; cbn [create_binary_hash_rec].
  { destruct values; [done | done]. }
  destruct (Nat.ltb_spec (length values) 1) as [Hlt|Hge].
  { destruct values; [done | cbn in Hlt; lia]. }
  pose proof (column_survey_surveyed values) as (Hchars & Hu & Hk).
  set (b := column_survey values) in *.
  assert (Hdup : (best_unique_chars b =? 1)%nat && (1 <? length values)%nat = false).
  { apply andb_false_iff. destruct (Nat.ltb_spec 1 (length values)) as [Hn|]; [left | by right].
    apply Nat.eqb_neq. rewrite Hu, Hchars. apply unique_chars_of_splits.
    destruct (padded_keys_split bound values Hn Hnd) as [c Hc].
    by apply (column_survey_splits values c). }
  rewrite Hdup.
  destruct (find_best_hash_distribution (best_column_chars b)) as (node & Hfind & _ & Hsel).
  rewrite <- Hu, <- Hk in Hfind. rewrite Hfind.
  destruct (populate_slots _ _ _ _ _ _ _ _) as [r h1] eqn:Hpop.
  destruct r; try done. cbn. intros _.
  assert (Hpop' : (populate_slots (create_binary_hash_rec fuel) values (best_column b)
                     (prime node) (num_slots node) [] (slot node)
                     (malloc_node (free_buffer (malloc_buffer (malloc_buffer h))))).1
                  = Null) by (by rewrite Hpop).
  apply populate_slots_Null in Hpop' as (s & group & h0 & Hs & Hcnt & Hg & Hnull).
  revert Hnull. apply gather_Some in Hg as [-> _]. apply IH.
  - destruct (selected_count _ _ s Hsel Hs) as [_ Hocc]; [lia|].
    rewrite Hchars, occurrences_column_image in Hocc.
    intros E. rewrite E in Hocc. cbn in Hocc. lia.
  - eapply sublist_NoDup; [exact Hnd|]. apply fmap_sublist, sublist_filter.
Qed.

Lemma padded_key_column (bound : nat) (v1 v2 : list byte) (c : nat) :
  (length v1 <= bound)%nat → (length v2 <= bound)%nat →
  padded_key bound v1 = padded_key bound v2 →
  column_byte v1 c = column_byte v2 c.
Proof.
  intros H1 H2 E. destruct (Nat.lt_ge_cases c bound) as [Hc|Hc].
  - apply (f_equal (λ l, l !! c)) in E. unfold padded_key in E.
    rewrite !list_lookup_fmap, lookup_seq_lt in E by done. cbn in E. congruence.
  - unfold column_byte. rewrite !lookup_ge_None_2; [done | lia | lia].
Qed.

Lemma filter_filter_elem {A} (P Q : A → Prop)
    `{!∀ x, Decision (P x), !∀ x, Decision (Q x)} (l : list A) :
  (∀ x, x ∈ l → P x → Q x) → filter P (filter Q l) = filter P l.
Proof.
  induction l as [|x l IH]; intros Himp; [done|].
  assert (IH' : filter P (filter Q l) = filter P l).
  { apply IH. intros y Hy. apply Himp. by right. }
  destruct (decide (Q x)) as [HQ|HQ].
  - rewrite (filter_cons_True Q) by done.
    destruct (decide (P x)).
    + rewrite !(filter_cons_True P) by done. by rewrite IH'.
    + rewrite !(filter_cons_False P) by done. done.
  - rewrite (filter_cons_False Q) by done.
    rewrite (filter_cons_False P); [done|]. intros HP. apply HQ, Himp; [left | done].
Qed.

(** A key set with two keys that read the same at every column is
    never built into a tree. *)
Lemma padded_duplicates_not_built (bound : nat) (fuel : nat) :
  ∀ values h pk root h',
    (max_length values <= bound)%nat →
    (2 <= length (filter (λ e : list byte * Z, padded_key bound e.1 = pk) values))%nat →
    create_binary_hash_rec fuel values h ≠ (Built root, h').
Proof.
  induction fuel as [|fuel IH]; intros values h pk root h' Hbound Hdup H;
    apply create_binary_hash_rec_Built in H
      as (fuel' & col & node0 & new & Hfuel & Hne & Hu & Hsel & -> & Hnew);
    [done|].
  injection Hfuel as <-.
  pose proof (proj1 (max_length_bound values bound) Hbound) as Hlen.
  destruct (filter (λ e : list byte * Z, padded_key bound e.1 = pk) values)
    as [|e0 rest] eqn:Hf; [cbn in Hdup; lia|].
  assert (He0 : e0 ∈ values ∧ padded_key bound e0.1 = pk).
  { assert (Hin : e0 ∈ filter (λ e : list byte * Z, padded_key bound e.1 = pk) values)
      by (rewrite Hf; left).
    apply list_elem_of_filter in Hin. tauto. }
  destruct He0 as [He0 Hpk]. rewrite <- Hf in Hdup. clear Hf rest.
  set (ch := column_byte e0.1 col).
  assert (Himp : ∀ e, e ∈ values → padded_key bound e.1 = pk → column_byte e.1 col = ch).
  { intros e He E. apply (padded_key_column bound); [by apply Hlen | by apply Hlen | congruence]. }
  pose proof (filter_filter_elem (λ e : list byte * Z, padded_key bound e.1 = pk)
                (λ e : list byte * Z, column_byte e.1 col = ch) values Himp) as Hff.
  assert (Hocc2 : (2 <= length (filter (λ e : list byte * Z, column_byte e.1 col = ch) values))%nat).
  { etrans; [exact Hdup|]. rewrite <- Hff. apply length_filter. }
  assert (Hch : ch ∈ column_image values col).
  { apply occurrences_pos. rewrite occurrences_column_image. lia. }
  pose proof Hsel as (_ & _ & _ & _ & Hocc & _).
  specialize (Hocc ch Hch).
  destruct (Forall2_lookup_l _ _ _ _ _ Hnew Hocc) as (s' & _ & Hpop).
  rewrite occurrences_column_image in Hpop.
  destruct Hpop as [[Hc _]|[(Hc & _)|(Hc & group & child & h1 & h2 & Hg & Hb & _)]];
    cbn [count character] in *; [lia | lia |].
  apply gather_Some in Hg as [-> _].
  apply (IH _ _ pk _ _) in Hb; [done | | by rewrite Hff].
  apply max_length_bound. intros e He. apply Hlen.
  by apply list_elem_of_filter in He as [_ ?].
Qed.

(** A list with a repeated element has an element that occurs twice. *)
Lemma not_NoDup_twice {A} `{EqDecision A} (l : list A) :
  ¬ NoDup l → ∃ x, (2 <= length (filter (λ y, y = x) l))%nat.
Proof.
  induction l as [|x l IH]; intros Hn.
  { destruct Hn. constructor. }
  destruct (decide (x ∈ l)) as [Hin|Hnotin].
  - exists x. rewrite filter_cons_True by done. cbn.
    assert (Hx : x ∈ filter (λ y, y = x) l) by (by apply list_elem_of_filter).
    destruct (filter (λ y, y = x) l); [by apply elem_of_nil in Hx | cbn; lia].
  - destruct IH as [y Hy].
    { intros Hnd. apply Hn. by constructor. }
    exists y. etrans; [exact Hy|].
    destruct (decide (x = y)).
    + rewrite filter_cons_True by done. cbn. lia.
    + by rewrite filter_cons_False.
Qed.

Lemma length_filter_fmap {A B} (f : A → B) (P : B → Prop) `{!∀ y, Decision (P y)} (l : list A) :
  length (filter P (f <$> l)) = length (filter (λ x, P (f x)) l).
Proof.
  induction l as [|x l IH]; [done|]. cbn [fmap list_fmap].
  destruct (decide (P (f x))).
  - rewrite !filter_cons_True by done. cbn. by rewrite <- IH.
  - by rewrite !filter_cons_False.
Qed.

(** X6: [create_binary_hash] builds a tree only for keys that pairwise
    differ at some column under the padding rule: every two entries of the
    input at different positions have different padded keys.  Keys that
    are byte-identical, or that differ only by trailing 0x00 bytes, never
    yield a tree. *)
Theorem create_binary_hash_Built_distinct (values : list (list byte * Z)) (root : HashNode) :
  create_binary_hash values = Built root →
  NoDup ((λ e : list byte * Z, padded_key (max_length values) e.1) <$> values) ∧
  NoDup values.*1.
Proof.
  unfold create_binary_hash, create_binary_hash_heap. intros H.
  destruct (create_binary_hash_rec (length values) values empty_heap) as [r h'] eqn:E.
  cbn in H. subst r.
  assert (Hpad : NoDup ((λ e : list byte * Z, padded_key (max_length values) e.1) <$> values)).
  { destruct (decide (NoDup ((λ e : list byte * Z, padded_key (max_length values) e.1)
                               <$> values))) as [|Hn]; [done|].
    exfalso. apply not_NoDup_twice in Hn as [pk Hpk].
    rewrite length_filter_fmap in Hpk.
    by apply (padded_duplicates_not_built (max_length values) _ _ _ pk root h'
                (Nat.le_refl _) Hpk) in E. }
  split; [done|].
  apply (NoDup_fmap_1 (padded_key (max_length values))).
  by rewrite <- list_fmap_compose.
Qed.

(** X7: [create_binary_hash] returns NULL only for the empty input or for
    an input in which two keys read the same at every column under the
    padding rule (byte-identical keys, or keys that differ only by
    trailing 0x00 bytes). *)
Theorem create_binary_hash_Null_cause (values : list (list byte * Z)) :
  create_binary_hash values = Null →
  values = [] ∨
  ¬ NoDup ((λ e : list byte * Z, padded_key (max_length values) e.1) <$> values).
Proof.
  intros H. destruct values as [|e values]; [by left|]. right. intros Hnd.
  revert H. unfold create_binary_hash, create_binary_hash_heap.
  by apply (create_binary_hash_rec_not_Null (max_length (e :: values))).
Qed.

(** X8: [create_binary_hash] never takes the exit "PANIC: Binary not
    found": every singleton slot of a node finds its key. *)
Theorem create_binary_hash_never_panics (values : list (list byte * Z)) :
  create_binary_hash values ≠ Panic.
Proof.
  unfold create_binary_hash, create_binary_hash_heap.
  apply create_binary_hash_rec_no_panic.
Qed.

(** ** create_binary_hash: one key *)

Lemma distribution_single (b : byte) :
  calculate_character_distribution [b] = (1, 1)%nat.
Proof. destruct b; vm_compute; reflexivity. Qed.

Lemma find_best_hash_single (b : byte) :
  find_best_hash [b] 1 1
  = Some (Node 0 2 1 [Slot b 1 NullPtr zero_payload; Slot "000" 0 NullPtr zero_payload]).
Proof. destruct b; vm_compute; reflexivity. Qed.

(** For one key the column loop keeps column 0. *)
Lemma survey_single (k : list byte) (p : Z) (todo : nat) :
  ∀ c b, best_num_slots b = 1%nat → survey todo c [(k, p)] b = b.
Proof.
  assert (Hcol : ∀ c b, best_num_slots b = 1%nat → survey_column [(k, p)] c b = b).
  { intros c b Hb. unfold survey_column. cbn [fmap list_fmap fst].
    rewrite distribution_single, Hb. done. }
  induction todo as [|todo IH]; intros c b Hb; cbn [survey]; rewrite (Hcol c b Hb);
    destruct (last_column [(k, p)] c); auto.
Qed.

(** X9: for a single key (of any length, the empty key too)
    [create_binary_hash] builds one node on column 0 with prime 2 and two
    slots: slot 0 is the leaf of the key with its payload and records the
    key's first byte (0 for the empty key), slot 1 is empty. *)
Theorem create_binary_hash_single_key (k : list byte) (p : Z) :
  create_binary_hash [(k, p)]
  = Built (Node 0 2 1 [Slot (column_byte k 0) 1 (BinaryPtr k) p;
                       Slot "000" 0 NullPtr zero_payload]).
Proof.
  unfold create_binary_hash, create_binary_hash_heap.
  cbn [length create_binary_hash_rec Nat.ltb Nat.leb].
  assert (H0 : survey_column [(k, p)] 0 (mkBestColumn 0 (S (length [(k, p)])) 0 [])
               = mkBestColumn 0 1 1 [column_byte k 0]).
  { unfold survey_column. cbn [fmap list_fmap fst]. by rewrite distribution_single. }
  assert (Hs : column_survey [(k, p)] = mkBestColumn 0 1 1 [column_byte k 0]).
  { unfold column_survey. destruct (max_length [(k, p)]) as [|todo]; cbn [survey];
      rewrite H0; destruct (last_column [(k, p)] 0); try done.
    by apply survey_single. }
  rewrite Hs. cbn [best_unique_chars best_num_slots best_column_chars best_column].
  rewrite find_best_hash_single. cbn [Nat.eqb andb slot prime num_slots].
  cbn [populate_slots count character payload Nat.eqb find_binary fst snd app].
  rewrite (proj2 (byte_eqb_eq _ _) eq_refl). done.
Qed.

(** ** create_binary_hash: the shape and the depth of the tree *)

Lemma foldr_and_elem {A} (Q : A → Prop) (l : list A) :
  foldr (λ s rest, Q s ∧ rest) True l ↔ ∀ s, s ∈ l → Q s.
Proof.
  induction l as [|x l IH]; cbn [foldr].
  - split; [|done]. intros _ s Hs. by apply elem_of_nil in Hs.
  - rewrite IH. split.
    + intros [Hx Hl] s Hs. apply elem_of_cons in Hs as [->|Hs]; auto.
    + intros H. split; [apply H; left|]. intros s Hs. apply H. by right.
Qed.

Lemma well_formed_built (fuel : nat) :
  ∀ values h root h',
    create_binary_hash_rec fuel values h = (Built root, h') → well_formed root.
Proof.
  induction fuel as [|fuel IH]; intros values h root h' H;
    apply create_binary_hash_rec_Built in H
      as (fuel' & col & node0 & new & Hfuel & Hne & Hu & Hsel & -> & Hnew);
    [done|].
  injection Hfuel as <-.
  pose proof Hsel as (Ha & Hm & Hlen & _).
  cbn [well_formed]. split; [done|]. split; [done|].
  split; [by rewrite <- (Forall2_length _ _ _ Hnew)|].
  apply foldr_and_elem. intros s' Hs'.
  apply list_elem_of_lookup in Hs' as [i Hs'].
  destruct (Forall2_lookup_r _ _ _ _ _ Hnew Hs') as (s & Hs & Hpop).
  destruct Hpop as [[Hc ->]|[(Hc & e & _ & ->)|(Hc & group & child & h1 & h2 & _ & Hb & ->)]];
    cbn [slot_shape]; [done | done |].
  split; [done|]. by eapply IH.
Qed.

(** X10: in a run that reads no byte past the end of a key, every node
    of a tree that [create_binary_hash] builds has a prime of the list and
    [num_slots + 1] slots, between 1 and 256; a slot with [count = 0] has a
    NULL pointer, a slot with [count = 1] a binary, a slot with
    [count > 1] a child node of the same kind.  So [lookup_binary] and
    [free_tree] read the member of the union that was stored. *)
Theorem create_binary_hash_well_formed (values : list (list byte * Z)) (root : HashNode) :
  create_binary_hash values = Built root → well_formed root.
Proof.
  unfold create_binary_hash, create_binary_hash_heap. intros H.
  destruct (create_binary_hash_rec (length values) values empty_heap) as [r h'] eqn:E.
  cbn in H. subst r. by eapply well_formed_built.
Qed.

(** X11: in a run that reads no byte past the end of a key, the tree
    built for two or more keys is no deeper than the number of columns at
    which the keys disagree (a column at which all keys read the same byte
    is never used twice on a path, and never at all once the keys of a
    subtree agree on it). *)
Theorem depth_le_disagreements (values : list (list byte * Z)) (root : HashNode) :
  create_binary_hash values = Built root →
  (1 < length values)%nat →
  (1 <= depth root <= disagreements (max_length values) values)%nat.
Proof.
  unfold create_binary_hash, create_binary_hash_heap. intros H Hn.
  destruct (create_binary_hash_rec (length values) values empty_heap) as [r h'] eqn:E.
  cbn in H. subst r.
  destruct (depth_disagreements _ _ _ _ _ (max_length values) E (Nat.le_refl _)) as [_ H2].
  split; [destruct root; cbn [depth]; lia | by apply H2].
Qed.

(** ** The heap after create_binary_hash and after free_tree *)

Section populate_heap.
Variable create : list (list byte * Z) → Heap → Build * Heap.
Variable values : list (list byte * Z).
Variables (col : nat) (a m : Z).
Hypothesis create_allocated :
  ∀ group h child h', create group h = (Built child, h') → allocated h h' child.

(** The blocks that the slot loop adds when it runs to its end. *)
Lemma populate_slots_heap (todo : list HashSlot) :
  ∀ filled h root h',
    populate_slots create values col a m filled todo h = (Built root, h') →
    ∃ new, root = Node col a m (filled ++ new) ∧
      live_nodes h' = (live_nodes h + foldr (λ s k, on_branch tree_nodes s + k) 0 new)%nat ∧
      live_binaries h'
        = (live_binaries h + (length (filter (λ s, count s = 1%nat) new)
                              + foldr (λ s k, on_branch tree_leaves s + k) 0 new))%nat ∧
      live_buffers h' = (live_buffers h + foldr (λ s k, on_branch tree_nodes s + k) 0 new)%nat.
Proof.
  induction todo as [|s todo IH]; intros filled h root h' H; cbn [populate_slots] in H.
  { injection H as <- <-. exists []. rewrite app_nil_r. cbn. split_and!; [done | lia..]. }
  destruct (Nat.eqb_spec (count s) 0) as [Z0|NZ].
  { apply IH in H as (new & -> & Hn & Hb & Hf). eexists (_ :: new).
    rewrite <- app_assoc. split; [done|].
    rewrite filter_cons_False by (cbn; lia). cbn [foldr on_branch]. split_and!; lia. }
  destruct (Nat.eqb_spec (count s) 1) as [Z1|NZ1].
  { destruct (find_binary values col (character s)) as [e|]; [|done].
    apply IH in H as (new & -> & Hn & Hb & Hf). eexists (_ :: new).
    rewrite <- app_assoc. split; [done|].
    rewrite filter_cons_True by done. cbn [foldr on_branch length] in *.
    cbn [malloc_binary live_nodes live_binaries live_buffers] in *. split_and!; lia. }
  destruct (gather values col (character s)) as [group|]; [|done].
  destruct (create group (malloc_buffer (malloc_buffer h))) as [r h1] eqn:Hcreate.
  destruct r; try done.
  apply create_allocated in Hcreate as (Hcn & Hcb & Hcf).
  apply IH in H as (new & -> & Hn & Hb & Hf). eexists (_ :: new).
  rewrite <- app_assoc. split; [done|].
  rewrite filter_cons_False by (cbn; lia). cbn [foldr on_branch].
  assert (Hlt : (1 <? count s)%nat = true) by (apply Nat.ltb_lt; lia). rewrite Hlt.
  assert (Hpos : (1 <= tree_nodes root0)%nat) by (destruct root0; cbn; lia).
  cbn [malloc_buffer free_buffer live_nodes live_binaries live_buffers] in *.
  split_and!; lia.
Qed.
End populate_heap.

Lemma create_binary_hash_rec_allocated (fuel : nat) :
  ∀ values h root h',
    create_binary_hash_rec fuel values h = (Built root, h') → allocated h h' root.
Proof.
  induction fuel as [|fuel IH]; intros values h root h' H; cbn [create_binary_hash_rec] in H.
  { by destruct (length values <? 1)%nat. }
  destruct (length values <? 1)%nat; [done|].
  destruct ((best_unique_chars (column_survey values) =? 1)%nat && (1 <? length values)%nat);
    [done|].
  destruct (find_best_hash _ _ _) as [node|]; [|done].
  destruct (populate_slots _ _ _ _ _ _ _ _) as [r h1] eqn:Hpop.
  destruct r; try done. injection H as <- <-.
  apply (populate_slots_heap _ _ _ _ _ IH) in Hpop as (new & -> & Hn & Hb & Hf).
  rewrite app_nil_l. unfold allocated. cbn [tree_nodes tree_leaves].
  cbn [malloc_node malloc_buffer free_buffer live_nodes live_binaries live_buffers] in *.
  split_and!; lia.
Qed.

(** X12: a call of [create_binary_hash] that builds a tree, in a run
    that reads no byte past the end of a key, leaves allocated, besides
    the nodes of the tree and one [BinaryValue] copy per leaf slot, one
    scratch buffer for every node below the root: the buffer
    [grouped_payloads] of a group is freed only when the group turns out to
    hold a duplicate. *)
Theorem create_binary_hash_allocated (values : list (list byte * Z)) (h h' : Heap)
    (root : HashNode) :
  create_binary_hash_heap values h = (Built root, h') →
  live_nodes h' = (live_nodes h + tree_nodes root)%nat ∧
  live_binaries h' = (live_binaries h + tree_leaves root)%nat ∧
  live_buffers h' = (live_buffers h + (tree_nodes root - 1))%nat.
Proof. apply create_binary_hash_rec_allocated. Qed.

Lemma free_fold (slots : list HashSlot) :
  (∀ s, s ∈ slots → slot_shape well_formed s) →
  (∀ s child, s ∈ slots → branch s = Some child →
     ∀ h, live_nodes (free_tree child h) = (live_nodes h - tree_nodes child)%nat ∧
          live_binaries (free_tree child h) = (live_binaries h - tree_leaves child)%nat ∧
          live_buffers (free_tree child h) = live_buffers h) →
  ∀ h,
    live_nodes (fold_left (free_slot free_tree) slots h)
      = (live_nodes h - foldr (λ s k, on_branch tree_nodes s + k) 0 slots)%nat ∧
    live_binaries (fold_left (free_slot free_tree) slots h)
      = (live_binaries h - (length (filter (λ s, count s = 1%nat) slots)
                            + foldr (λ s k, on_branch tree_leaves s + k) 0 slots))%nat ∧
    live_buffers (fold_left (free_slot free_tree) slots h) = live_buffers h.
Proof.
  induction slots as [|s slots IH]; intros Hshape Hchild h.
  { cbn. split_and!; lia. }
  cbn [fold_left foldr].
  destruct (IH ltac:(intros s' Hs'; apply Hshape; by right)
               ltac:(intros s' child Hs'; apply Hchild; by right)
               (free_slot free_tree h s)) as (Hn & Hb & Hf).
  rewrite Hn, Hb, Hf. clear Hn Hb Hf IH.
  pose proof (Hshape s ltac:(left)) as Hs.
  pose proof (Hchild s) as Hc. specialize (fun child => Hc child ltac:(left)).
  destruct s as [ch cnt [|child|bin] pl]; cbn [slot_shape] in Hs.
  - subst cnt. rewrite filter_cons_False by (cbn; lia). cbn. split_and!; lia.
  - destruct Hs as [Hcnt _].
    assert (Hlt : (1 <? cnt)%nat = true) by (apply Nat.ltb_lt; lia).
    rewrite filter_cons_False by (cbn; lia).
    cbn [free_slot on_branch branch] in *. rewrite Hlt in *.
    destruct (Hc child eq_refl h) as (Hn & Hb & Hf). rewrite Hn, Hb, Hf.
    split_and!; lia.
  - subst cnt. rewrite filter_cons_True by done. cbn. split_and!; lia.
Qed.

(** [free_tree] on a well-formed tree. *)
Lemma free_tree_counts (node : HashNode) :
  well_formed node →
  ∀ h, live_nodes (free_tree node h) = (live_nodes h - tree_nodes node)%nat ∧
       live_binaries (free_tree node h) = (live_binaries h - tree_leaves node)%nat ∧
       live_buffers (free_tree node h) = live_buffers h.
Proof.
  pose proof (Nat.le_refl (depth node)) as Hle.
  revert Hle. generalize (depth node) at 2. intros n.
  revert node. induction n as [|n IH]; intros [col a m slots] Hle Hwf h.
  { cbn in Hle. lia. }
  cbn [well_formed] in Hwf. destruct Hwf as (_ & _ & _ & Hshape).
  rewrite foldr_and_elem in Hshape.
  cbn [free_tree tree_nodes tree_leaves].
  destruct (free_fold slots Hshape) with (h := h) as (Hn & Hb & Hf).
  { intros s child Hs Hbr. apply IH.
    - pose proof (depth_child col a m slots s child Hs Hbr). lia.
    - specialize (Hshape s Hs).
      destruct s as [ch cnt [|c|bin] pl]; cbn [branch] in Hbr; try done.
      destruct (1 <? cnt)%nat; [|done]. injection Hbr as ->. by destruct Hshape. }
  cbn [free_node live_nodes live_binaries live_buffers]. rewrite Hn, Hb, Hf.
  split_and!; lia.
Qed.

(** X13: [free_tree] on a tree that [create_binary_hash] built, in a
    run that reads no byte past the end of a key, releases every node of
    the tree and every leaf copy, and nothing else: the numbers of live
    nodes and of live binaries are those from before the construction, and
    the scratch buffers that the construction left (one per node below the
    root) stay allocated. *)
Theorem free_tree_after_create (values : list (list byte * Z)) (h h' : Heap)
    (root : HashNode) :
  create_binary_hash_heap values h = (Built root, h') →
  live_nodes (free_tree root h') = live_nodes h ∧
  live_binaries (free_tree root h') = live_binaries h ∧
  live_buffers (free_tree root h') = (live_buffers h + (tree_nodes root - 1))%nat.
Proof.
  intros H. pose proof (well_formed_built _ _ _ _ _ H) as Hwf.
  apply create_binary_hash_rec_allocated in H as (Hn & Hb & Hf).
  destruct (free_tree_counts root Hwf h') as (Hn' & Hb' & Hf').
  rewrite Hn', Hb', Hf'. split_and!; lia.
Qed.

(** ** Keys of one width, and the integer adapter *)

(** X14: for a non-empty set of pairwise distinct keys of one width
    (such as the images of integers and doubles), [create_binary_hash]
    builds a tree; in it [lookup_binary] finds every key with its payload
    and finds no byte string that is not a key. *)
Theorem create_binary_hash_fixed_width (values : list (list byte * Z)) (width : nat) :
  values ≠ [] →
  (∀ e, e ∈ values → length e.1 = width) →
  NoDup values.*1 →
  ∃ root,
    create_binary_hash values = Built root ∧
    (∀ k p, (k, p) ∈ values → lookup_binary k root = Some p) ∧
    (∀ q, q ∉ values.*1 → lookup_binary q root = None).
Proof. apply one_width_round_trip. Qed.

Lemma byte_val_of_Z (z : Z) : byte_val (byte_of_Z z) = z mod 256.
Proof.
  unfold byte_of_Z, byte_val.
  pose proof (Z.mod_pos_bound z 256 ltac:(lia)) as Hz.
  destruct (Byte.of_nat (Z.to_nat (z mod 256))) as [b|] eqn:E.
  - apply Byte.to_of_nat in E. cbn. lia.
  - apply Byte.of_nat_None_iff in E. lia.
Qed.

Lemma length_low_bytes (n : nat) (z : Z) : length (low_bytes n z) = n.
Proof. revert z. induction n as [|n IH]; intros z; cbn; [done | by rewrite IH]. Qed.

Lemma bytes_value_low_bytes (n : nat) (z : Z) :
  bytes_value (low_bytes n z) = z mod 256 ^ Z.of_nat n.
Proof.
  revert z. induction n as [|n IH]; intros z.
  - cbn. by rewrite Z.mod_1_r.
  - cbn [low_bytes bytes_value foldr]. fold (bytes_value (low_bytes n (z / 256))).
    rewrite IH, byte_val_of_Z.
    rewrite Nat2Z.inj_succ, Z.pow_succ_r by lia.
    rewrite Z.rem_mul_r by lia. done.
Qed.

Lemma little_endian_length (z : Z) : length (little_endian z) = 8%nat.
Proof. apply length_low_bytes. Qed.

(** Different [int64_t] values have different images. *)
Lemma little_endian_inj (z1 z2 : Z) :
  int64 z1 → int64 z2 → little_endian z1 = little_endian z2 → z1 = z2.
Proof.
  unfold int64. intros H1 H2 E. apply (f_equal bytes_value) in E.
  unfold little_endian in E. rewrite !bytes_value_low_bytes in E.
  change (256 ^ Z.of_nat 8) with (2 ^ 64) in E.
  assert (Hmod : ∀ z, - 2 ^ 63 <= z < 2 ^ 63 →
            z mod 2 ^ 64 = if z <? 0 then z + 2 ^ 64 else z).
  { intros z Hz. destruct (Z.ltb_spec z 0).
    - symmetry. apply (Z.mod_unique z (2 ^ 64) (-1)); lia.
    - apply Z.mod_small. lia. }
  rewrite (Hmod z1 H1), (Hmod z2 H2) in E.
  destruct (Z.ltb_spec z1 0), (Z.ltb_spec z2 0); lia.
Qed.

Section integer_hash_facts.
Variable image : Z → list byte.
Hypothesis image_length : ∀ z, length (image z) = 8%nat.
Hypothesis image_inj : ∀ z1 z2, int64 z1 → int64 z2 → image z1 = image z2 → z1 = z2.

(** X15: for a non-empty array of pairwise distinct [int64_t] values,
    [create_integer_hash] builds a tree (never the duplicate signal), in
    which [lookup_integer] finds every integer of the array with its
    payload and no other [int64_t] value.  This holds for every byte
    order: all that is used of the memory image is that it has 8 bytes and
    that different values have different images. *)
Theorem create_integer_hash_round_trip (integers : list (Z * Z)) :
  integers ≠ [] →
  (∀ e, e ∈ integers → int64 e.1) →
  NoDup integers.*1 →
  ∃ root,
    create_integer_hash image integers = Built root ∧
    (∀ z p, (z, p) ∈ integers → lookup_integer image z root = Some p) ∧
    (∀ z, int64 z → z ∉ integers.*1 → lookup_integer image z root = None).
Proof.
  intros Hne Hrange Hnd. unfold create_integer_hash, lookup_integer.
  set (values := (λ e : Z * Z, (image e.1, e.2)) <$> integers).
  assert (Hkeys : values.*1 = image <$> integers.*1).
  { unfold values. rewrite <- !list_fmap_compose. done. }
  destruct (one_width_round_trip values 8) as (root & Hroot & Hin & Hout).
  - unfold values. intros E. apply fmap_nil_inv in E. done.
  - intros e He. apply list_elem_of_fmap in He as (e0 & -> & _). apply image_length.
  - rewrite Hkeys. apply NoDup_fmap_2_strong; [|done].
    intros z1 z2 H1 H2. apply list_elem_of_fmap in H1 as (e1 & -> & H1).
    apply list_elem_of_fmap in H2 as (e2 & -> & H2). apply image_inj; auto.
  - exists root. split; [done|]. split.
    + intros z p Hz. apply Hin.
      by apply (list_elem_of_fmap_2 (λ e : Z * Z, (image e.1, e.2)) _ (z, p)).
    + intros z Hz Hnot. apply Hout. rewrite Hkeys. intros Him.
      apply list_elem_of_fmap in Him as (z0 & E & Hz0). apply Hnot.
      replace z with z0; [done|]. symmetry. apply image_inj; [done | | done].
      apply list_elem_of_fmap in Hz0 as (e0 & -> & He0). auto.
Qed.
End integer_hash_facts.

(** ** One leaf for every key *)

Lemma length_filter_lt_succ {A} (f : A → nat) (l : list A) (n : nat) :
  length (filter (λ x, (f x < S n)%nat) l)
  = (length (filter (λ x, f x = n) l) + length (filter (λ x, (f x < n)%nat) l))%nat.
Proof.
  induction l as [|x l IH]; [done|].
  destruct (decide (f x = n)) as [E|N].
  - rewrite (filter_cons_True (λ x, (f x < S n)%nat)) by lia.
    rewrite (filter_cons_True (λ x, f x = n)) by done.
    rewrite (filter_cons_False (λ x, (f x < n)%nat)) by lia. cbn [length]. lia.
  - rewrite (filter_cons_False (λ x, f x = n)) by done.
    destruct (decide (f x < n)%nat).
    + rewrite (filter_cons_True (λ x, (f x < S n)%nat)) by lia.
      rewrite (filter_cons_True (λ x, (f x < n)%nat)) by done. cbn [length]. lia.
    + rewrite (filter_cons_False (λ x, (f x < S n)%nat)) by lia.
      by rewrite (filter_cons_False (λ x, (f x < n)%nat)).
Qed.

(** The elements of a list, counted by their index below [n]. *)
Lemma count_by_index {A} (f : A → nat) (l : list A) (n : nat) :
  foldr (λ i k, length (filter (λ x, f x = i) l) + k)%nat 0%nat (seq 0 n)
  = length (filter (λ x, (f x < n)%nat) l).
Proof.
  induction n as [|n IH].
  - cbn [seq foldr]. induction l as [|x l IHl]; [done|].
    by rewrite (filter_cons_False (λ x, (f x < 0)%nat)) by lia.
  - rewrite seq_S, foldr_app, Nat.add_0_l. cbn [foldr]. rewrite length_filter_lt_succ.
    rewrite <- IH. generalize (length (filter (λ x, f x = n) l)). intros k.
    generalize (seq 0 n). intros ns. induction ns as [|i ns IHns]; cbn [foldr]; lia.
Qed.

Lemma foldr_lookup_seq {A} (w : A → nat) (g : nat → nat) (l : list A) :
  ∀ start, (∀ i x, l !! i = Some x → w x = g (start + i)%nat) →
           foldr (λ x k, w x + k)%nat 0%nat l
           = foldr (λ i k, g i + k)%nat 0%nat (seq start (length l)).
Proof.
  induction l as [|x l IH]; intros start H; [done|].
  cbn [foldr length seq]. rewrite (H 0%nat x eq_refl), Nat.add_0_r.
  rewrite (IH (S start)); [done|].
  intros i y Hy. rewrite (H (S i) y Hy). f_equal. lia.
Qed.

(** The counts of the node of [find_best_hash] add up to the number of
    characters. *)
Lemma selected_counts (chars : list byte) (node : HashNode) :
  selected chars node →
  foldr (λ s k, count s + k)%nat 0%nat (slot node) = length chars.
Proof.
  intros (Ha & Hm & Hlen & Hp & Hocc & Hall).
  pose proof (primes_range _ Ha) as Ha'.
  rewrite (foldr_lookup_seq count
             (λ i, length (filter (λ c, slot_index c (prime node) (num_slots node) = i) chars))
             (slot node) 0).
  - rewrite count_by_index, Hlen. f_equal. apply filter_all.
    intros c _. apply slot_index_range; lia.
  - intros i s Hs. rewrite Nat.add_0_l.
    destruct (Hall i s Hs) as [->|(Hin & Hi & E)].
    + cbn [count].
      destruct (filter (λ c, slot_index c (prime node) (num_slots node) = i) chars)
        as [|c f] eqn:Ef; [done|].
      assert (Hc : c ∈ filter (λ c, slot_index c (prime node) (num_slots node) = i) chars)
        by (rewrite Ef; left).
      apply list_elem_of_filter in Hc as [Hci Hc].
      pose proof (Hocc c Hc) as Hslot. rewrite Hci, Hs in Hslot.
      injection Hslot as _ Hzero.
      apply occurrences_pos in Hc. lia.
    + rewrite E at 1. cbn [count]. unfold occurrences. f_equal.
      apply filter_ext_elem. intros c Hc. split; [by intros ->|].
      intros Hci. apply Hp; [done | done | by rewrite Hci].
Qed.

(** The leaves below the slots of a node that was populated. *)
Lemma leaves_populated (create : list (list byte * Z) → Heap → Build * Heap)
    (values : list (list byte * Z)) (col : nat) (slots new : list HashSlot) :
  Forall2 (populated create values col) slots new →
  (∀ s group child h1 h2, s ∈ slots → (1 < count s)%nat →
     gather values col (character s) = Some group →
     create group h1 = (Built child, h2) → tree_leaves child = count s) →
  (length (filter (λ s, count s = 1%nat) new)
   + foldr (λ s k, on_branch tree_leaves s + k) 0 new)%nat
  = foldr (λ s k, count s + k)%nat 0%nat slots.
Proof.
  induction 1 as [|s s' slots new Hpop _ IH]; intros Hchild; [done|].
  specialize (IH ltac:(intros s0 group child h1 h2 Hs0; apply Hchild; by right)).
  cbn [foldr]. rewrite <- IH.
  destruct Hpop as [[Hc ->]|[(Hc & e & _ & ->)|(Hc & group & child & h1 & h2 & Hg & Hb & ->)]].
  - rewrite filter_cons_False by (cbn; lia). cbn [on_branch]. lia.
  - rewrite filter_cons_True by done. cbn [on_branch length]. lia.
  - rewrite filter_cons_False by (cbn; lia). cbn [on_branch].
    assert (Hlt : (1 <? count s)%nat = true) by (apply Nat.ltb_lt; lia). rewrite Hlt.
    rewrite (Hchild s group child h1 h2 ltac:(left) Hc Hg Hb). lia.
Qed.

Lemma tree_leaves_built (fuel : nat) :
  ∀ values h root h',
    create_binary_hash_rec fuel values h = (Built root, h') →
    tree_leaves root = length values.
Proof.
  induction fuel as [|fuel IH]; intros values h root h' H;
    apply create_binary_hash_rec_Built in H
      as (fuel' & col & node0 & new & Hfuel & Hne & Hu & Hsel & -> & Hnew);
    [done|].
  injection Hfuel as <-. cbn [tree_leaves].
  rewrite (leaves_populated _ _ _ _ _ Hnew).
  - by rewrite (selected_counts _ _ Hsel), length_column_image.
  - intros s group child h1 h2 Hs Hc Hg Hb.
    rewrite (IH _ _ _ _ Hb).
    destruct (selected_count _ _ s Hsel Hs) as [_ ->]; [lia|].
    apply gather_Some in Hg as [-> _]. by rewrite occurrences_column_image.
Qed.

(** X16: in a run that reads no byte past the end of a key, a tree that
    [create_binary_hash] builds has exactly one leaf slot (a slot with
    [count = 1], holding the copy of a key) for every key of the input;
    with it, the number of [BinaryValue] copies that the construction
    allocates is the number of keys.  (When the gathering loop reads the
    bytes after a short key, a key can miss its group and the tree its
    leaf: [create_binary_hash_buffers_lost_key].) *)
Theorem create_binary_hash_leaves (values : list (list byte * Z)) (h h' : Heap)
    (root : HashNode) :
  create_binary_hash_heap values h = (Built root, h') →
  tree_leaves root = length values ∧
  live_binaries h' = (live_binaries h + length values)%nat.
Proof.
  intros H. pose proof (tree_leaves_built _ _ _ _ _ H) as Hleaves.
  apply create_binary_hash_rec_allocated in H as (_ & Hb & _).
  split; [done | by rewrite <- Hleaves].
Qed.

(** ** The numbers of hash_table_efficiency *)

(** X17: for every tree, [hash_table_efficiency] reports as
    [slots_used] the number of all the slots, as [max_comparisons] the
    depth of the tree, and a slot efficiency between 50 and 100, which is
    100 exactly when the tree has no empty slot: the empty slots are
    counted on both sides of the quotient. *)
Theorem hash_table_efficiency_range (node : HashNode) :
  slot node ≠ [] →
  ∃ slot_efficiency,
    hash_table_efficiency node
      = ((occupied_slots node + vacant_slots node)%nat, slot_efficiency, depth node) ∧
    (50 <= slot_efficiency <= 100)%nat ∧
    (slot_efficiency = 100%nat ↔ vacant_slots node = 0%nat) ∧
    (1 <= depth node)%nat.
Proof.
  intros Hne. rewrite hash_table_efficiency_spec. eexists. split; [done|].
  assert (Hpos : (0 < occupied_slots node + vacant_slots node)%nat).
  { rewrite <- total_slots_split. destruct node as [col a m [|s slots]]; [done|].
    cbn [total_slots length]. lia. }
  assert (Hle : (vacant_slots node <= occupied_slots node + vacant_slots node)%nat) by lia.
  revert Hpos Hle.
  generalize (occupied_slots node + vacant_slots node)%nat as t.
  generalize (vacant_slots node) as e. intros e t Hpos Hle.
  pose proof (Nat.div_mod_eq (t * 100) (t + e)) as Hdiv.
  pose proof (Nat.mod_upper_bound (t * 100) (t + e) ltac:(lia)) as Hmod.
  split_and!; [nia | nia | | destruct node; cbn [depth]; lia].
  split; intros H; [nia|]. subst e. rewrite Nat.add_0_r in *. nia.
Qed.

(** ** The column of the survey *)

Lemma survey_earliest (values : list (list byte * Z)) (todo : nat) :
  ∀ c b,
    survey todo c values b = b ∨
    ((c <= best_column (survey todo c values b) <= c + todo)%nat ∧
     (best_num_slots (survey todo c values b) < best_num_slots b)%nat ∧
     ∀ c', (c <= c' < best_column (survey todo c values b))%nat →
           (best_num_slots (survey todo c values b)
            < (calculate_character_distribution (column_image values c')).2)%nat).
Proof.
  assert (Hone : ∀ c b,
            survey_column values c b = b ∨
            (best_column (survey_column values c b) = c ∧
             (best_num_slots (survey_column values c b) < best_num_slots b)%nat)).
  { intros c b. unfold survey_column.
    destruct (calculate_character_distribution _) as [u k].
    destruct (Nat.ltb_spec k (best_num_slots b)); [right | by left]. by cbn. }
  induction todo as [|todo IH]; intros c b; cbn [survey].
  - assert (E : (if last_column values c then survey_column values c b
                 else survey_column values c b) = survey_column values c b)
      by (by destruct (last_column values c)).
    rewrite E. destruct (Hone c b) as [->|[Hc Hlt]]; [by left | right].
    rewrite Hc. split_and!; [lia.. | done |]. intros c' ?. lia.
  - destruct (last_column values c).
    { destruct (Hone c b) as [->|[Hc Hlt]]; [by left | right].
      rewrite Hc. split_and!; [lia.. | done |]. intros c' ?. lia. }
    pose proof (survey_column_le values c b) as [Hle Hsc].
    destruct (IH (S c) (survey_column values c b)) as [->|(Hrange & Hlt & Hbefore)].
    + destruct (Hone c b) as [->|[Hc Hlt]]; [by left | right].
      rewrite Hc. split_and!; [lia.. | done |]. intros c' ?. lia.
    + right. split_and!; [lia.. |].
      intros c' Hc'. destruct (decide (c' = c)) as [->|]; [lia|].
      apply Hbefore. lia.
Qed.

(** X18: the column that the survey of [create_binary_hash] settles on
    is the earliest of the columns [0 .. max_length] at which the largest
    group of keys that share a byte is smallest: no column of that range
    has a smaller largest group, and every earlier column has a strictly
    larger one. *)
Theorem column_survey_choice (values : list (list byte * Z)) :
  let b := column_survey values in
  let largest_group c := (calculate_character_distribution (column_image values c)).2 in
  (best_column b <= max_length values)%nat ∧
  best_num_slots b = largest_group (best_column b) ∧
  (∀ c, (c <= max_length values)%nat → (best_num_slots b <= largest_group c)%nat) ∧
  (∀ c, (c < best_column b)%nat → (best_num_slots b < largest_group c)%nat).
Proof.
  intros b largest_group.
  pose proof (column_survey_surveyed values) as (Hchars & _ & Hk). fold b in Hchars, Hk.
  assert (Hmin : ∀ c, (c <= max_length values)%nat → (best_num_slots b <= largest_group c)%nat).
  { intros c Hc. apply survey_min; lia. }
  assert (Hzero : (largest_group 0%nat <= length values)%nat).
  { pose proof (max_occurrence_spec (column_image values 0)) as (_ & Hle & _).
    by rewrite length_column_image in Hle. }
  destruct (survey_earliest values (max_length values) 0
              (mkBestColumn 0 (S (length values)) 0 [])) as [E|(Hrange & _ & Hbefore)].
  - exfalso. specialize (Hmin 0%nat ltac:(lia)). unfold b, column_survey in Hmin.
    rewrite E in Hmin. cbn [best_num_slots] in Hmin. lia.
  - fold (column_survey values) in Hrange, Hbefore. fold b in Hrange, Hbefore.
    split_and!; [lia | by rewrite Hk, Hchars | done |].
    intros c Hc. apply Hbefore. lia.
Qed.

(** ** Instances of the further properties at concrete inputs *)

Lemma hash_function_in_table_witness :
  0 <= 5 < 256 ∧ 0 <= 2 < 256 ∧
  0 <= hash_function "A"%byte 5 2 <= 2 ∧ (slot_index "A"%byte 5 2 < S (Z.to_nat 2))%nat.
Proof.
  split; [lia|]. split; [lia|].
  apply (hash_function_in_table "A"%byte 5 2); lia.
Defined.

Lemma lookup_character_absent_witness :
  ∃ node,
    create_character_hash [("a"%byte, 1); ("b"%byte, 2)] = Some node ∧
    ("c"%byte ∉ ([("a"%byte, 1); ("b"%byte, 2)].*1)) ∧
    lookup_character "c"%byte node = None.
Proof.
  eexists. split; [vm_compute; reflexivity|].
  assert (Hc : "c"%byte ∉ [("a"%byte, 1); ("b"%byte, 2)].*1) by compute_done.
  split; [exact Hc|].
  apply (lookup_character_absent [("a"%byte, 1); ("b"%byte, 2)]); [|exact Hc].
  vm_compute. reflexivity.
Defined.

Lemma create_binary_hash_Built_distinct_witness :
  ∃ root,
    create_binary_hash
      [(["a"; "a"]%byte, 1); (["a"; "b"]%byte, 2); (["c"; "a"]%byte, 3)] = Built root ∧
    NoDup [["a"; "a"]%byte; ["a"; "b"]%byte; ["c"; "a"]%byte].
Proof.
  eexists. split; [vm_compute; reflexivity|].
  eapply (create_binary_hash_Built_distinct
            [(["a"; "a"]%byte, 1); (["a"; "b"]%byte, 2); (["c"; "a"]%byte, 3)]).
  vm_compute. reflexivity.
Defined.

Lemma create_binary_hash_Null_cause_witness :
  create_binary_hash [(["a"; "b"]%byte, 1); (["a"; "b"; "000"]%byte, 2)] = Null ∧
  ([(["a"; "b"]%byte, 1); (["a"; "b"; "000"]%byte, 2)] = [] ∨
   ¬ NoDup ((λ e : list byte * Z, padded_key 3 e.1)
              <$> [(["a"; "b"]%byte, 1); (["a"; "b"; "000"]%byte, 2)])).
Proof.
  split; [vm_compute; reflexivity|].
  apply (create_binary_hash_Null_cause
           [(["a"; "b"]%byte, 1); (["a"; "b"; "000"]%byte, 2)]).
  vm_compute. reflexivity.
Defined.

Lemma create_binary_hash_well_formed_witness :
  ∃ root,
    create_binary_hash
      [(["a"; "a"]%byte, 1); (["a"; "b"]%byte, 2); (["c"; "a"]%byte, 3)] = Built root ∧
    well_formed root.
Proof.
  eexists. split; [vm_compute; reflexivity|].
  apply (create_binary_hash_well_formed
           [(["a"; "a"]%byte, 1); (["a"; "b"]%byte, 2); (["c"; "a"]%byte, 3)]).
  vm_compute. reflexivity.
Defined.

Lemma depth_le_disagreements_witness :
  ∃ root,
    create_binary_hash
      [(["a"; "a"]%byte, 1); (["a"; "b"]%byte, 2); (["c"; "a"]%byte, 3)] = Built root ∧
    (1 < 3)%nat ∧
    (1 <= depth root
     <= disagreements 2 [(["a"; "a"]%byte, 1%Z); (["a"; "b"]%byte, 2%Z);
                         (["c"; "a"]%byte, 3%Z)])%nat.
Proof.
  eexists. split; [vm_compute; reflexivity|]. split; [lia|].
  apply (depth_le_disagreements
           [(["a"; "a"]%byte, 1); (["a"; "b"]%byte, 2); (["c"; "a"]%byte, 3)]);
    [vm_compute; reflexivity | cbn; lia].
Defined.

Lemma create_binary_hash_allocated_witness :
  ∃ root h',
    create_binary_hash_heap
      [(["a"; "a"]%byte, 1); (["a"; "b"]%byte, 2); (["c"; "a"]%byte, 3)] empty_heap
      = (Built root, h') ∧
    tree_nodes root = 2%nat ∧
    live_nodes h' = (live_nodes empty_heap + tree_nodes root)%nat ∧
    live_binaries h' = (live_binaries empty_heap + tree_leaves root)%nat ∧
    live_buffers h' = (live_buffers empty_heap + (tree_nodes root - 1))%nat.
Proof.
  eexists _, _. split; [vm_compute; reflexivity|]. split; [vm_compute; reflexivity|].
  apply (create_binary_hash_allocated
           [(["a"; "a"]%byte, 1); (["a"; "b"]%byte, 2); (["c"; "a"]%byte, 3)]).
  vm_compute. reflexivity.
Defined.

Lemma free_tree_after_create_witness :
  ∃ root h',
    create_binary_hash_heap
      [(["a"; "a"]%byte, 1); (["a"; "b"]%byte, 2); (["c"; "a"]%byte, 3)] empty_heap
      = (Built root, h') ∧
    live_nodes (free_tree root h') = live_nodes empty_heap ∧
    live_binaries (free_tree root h') = live_binaries empty_heap ∧
    live_buffers (free_tree root h') = (live_buffers empty_heap + (tree_nodes root - 1))%nat.
Proof.
  eexists _, _. split; [vm_compute; reflexivity|].
  apply (free_tree_after_create
           [(["a"; "a"]%byte, 1); (["a"; "b"]%byte, 2); (["c"; "a"]%byte, 3)]).
  vm_compute. reflexivity.
Defined.

Lemma create_binary_hash_fixed_width_witness :
  [(["a"; "a"]%byte, 1); (["a"; "b"]%byte, 2); (["c"; "a"]%byte, 3)] ≠ [] ∧
  NoDup [(["a"; "a"]%byte, 1); (["a"; "b"]%byte, 2); (["c"; "a"]%byte, 3)].*1 ∧
  ∃ root,
    create_binary_hash
      [(["a"; "a"]%byte, 1); (["a"; "b"]%byte, 2); (["c"; "a"]%byte, 3)] = Built root ∧
    (∀ k p, (k, p) ∈ [(["a"; "a"]%byte, 1); (["a"; "b"]%byte, 2); (["c"; "a"]%byte, 3)] →
            lookup_binary k root = Some p) ∧
    (∀ q, q ∉ [(["a"; "a"]%byte, 1); (["a"; "b"]%byte, 2); (["c"; "a"]%byte, 3)].*1 →
          lookup_binary q root = None).
Proof.
  assert (Hnd : NoDup [(["a"; "a"]%byte, 1); (["a"; "b"]%byte, 2);
                       (["c"; "a"]%byte, 3)].*1) by compute_done.
  split; [discriminate|]. split; [exact Hnd|].
  apply (create_binary_hash_fixed_width
           [(["a"; "a"]%byte, 1); (["a"; "b"]%byte, 2); (["c"; "a"]%byte, 3)] 2);
    [discriminate | | exact Hnd].
  intros e He. repeat (apply elem_of_cons in He as [->|He]; [reflexivity|]).
  by apply elem_of_nil in He.
Defined.

Lemma create_integer_hash_round_trip_witness :
  [(1, 10); (-1, 20); (256, 30)] ≠ [] ∧
  NoDup [(1, 10); (-1, 20); (256, 30)].*1 ∧
  ∃ root,
    create_integer_hash little_endian [(1, 10); (-1, 20); (256, 30)] = Built root ∧
    (∀ z p, (z, p) ∈ [(1, 10); (-1, 20); (256, 30)] →
            lookup_integer little_endian z root = Some p) ∧
    (∀ z, int64 z → z ∉ [(1, 10); (-1, 20); (256, 30)].*1 →
          lookup_integer little_endian z root = None).
Proof.
  assert (Hnd : NoDup [(1, 10); (-1, 20); (256, 30)].*1) by compute_done.
  split; [discriminate|]. split; [exact Hnd|].
  apply (create_integer_hash_round_trip little_endian little_endian_length little_endian_inj
           [(1, 10); (-1, 20); (256, 30)]); [discriminate | | exact Hnd].
  intros e He. unfold int64.
  repeat (apply elem_of_cons in He as [->|He]; [cbn; lia|]).
  by apply elem_of_nil in He.
Defined.

Lemma create_binary_hash_leaves_witness :
  ∃ root h',
    create_binary_hash_heap
      [(["a"; "a"]%byte, 1); (["a"; "b"]%byte, 2); (["c"; "a"]%byte, 3)] empty_heap
      = (Built root, h') ∧
    tree_leaves root = 3%nat ∧
    live_binaries h' = (live_binaries empty_heap + 3)%nat.
Proof.
  eexists _, _. split; [vm_compute; reflexivity|].
  apply (create_binary_hash_leaves
           [(["a"; "a"]%byte, 1); (["a"; "b"]%byte, 2); (["c"; "a"]%byte, 3)]).
  vm_compute. reflexivity.
Defined.

Lemma hash_table_efficiency_range_witness :
  let node := Node 0 2 1 [Slot "a" 1 (BinaryPtr ["a"%byte]) 7; Slot "000" 0 NullPtr 0] in
  slot node ≠ [] ∧
  ∃ slot_efficiency,
    hash_table_efficiency node
      = ((occupied_slots node + vacant_slots node)%nat, slot_efficiency, depth node) ∧
    (50 <= slot_efficiency <= 100)%nat ∧
    (slot_efficiency = 100%nat ↔ vacant_slots node = 0%nat) ∧
    (1 <= depth node)%nat.
Proof.
  intros node. split; [discriminate|].
  apply (hash_table_efficiency_range node). discriminate.
Defined.

Lemma lookup_binary_sound_witness :
  ∃ root,
    create_binary_hash
      [(["a"; "a"]%byte, 1); (["a"; "b"]%byte, 2); (["c"]%byte, 3)] = Built root ∧
    (∀ k p, (k, p) ∈ [(["a"; "a"]%byte, 1); (["a"; "b"]%byte, 2); (["c"]%byte, 3)] →
            lookup_binary k root = Some p) ∧
    (∀ q, (∀ p, (q, p) ∉ [(["a"; "a"]%byte, 1); (["a"; "b"]%byte, 2); (["c"]%byte, 3)]) →
          lookup_binary q root = None).
Proof.
  eexists. split; [vm_compute; reflexivity|].
  apply (lookup_binary_sound [(["a"; "a"]%byte, 1); (["a"; "b"]%byte, 2); (["c"]%byte, 3)]).
  vm_compute. reflexivity.
Defined.

